(** * AlgoViz: the instrumentation-and-trace pipeline

    A shallow embedding of the pipeline of the repository:

    - [PythonTranspiler.transpilePythonToJs] (backend/sandbox/pythonTranspiler.ts),
    - [CppTranspiler.transpileCppToJs] (backend/sandbox/cppTranspiler.ts),
    - [Instrumenter.instrumentCode] (backend/tracer/instrumenter.ts),
    - [Executor.executeCode] (backend/sandbox/executor.ts),

    followed by the properties of the specification, each settled on these
    definitions.

    Strings are ASCII strings of the Standard Library (the scenarios of the
    specification are ASCII texts).  Numbers are the integers a trace of a
    teaching program records, with a separate not-a-number value; floating
    point is not modelled.  Three components the code calls are not part of
    the repository: the regular-expression engine of the host language, the
    acorn parser, and the evaluation of program text by [new Function].  The
    first is modelled by a backtracking matcher for the pattern language the
    two transpilers use; the other two are inputs of the driver. *)

From ITree Require Import ITree.
From Stdlib Require Import String Ascii List Bool Arith ZArith Lia.
From Stdlib Require Import Sorting.Sorted Sorting.Permutation.
From Stdlib Require Import Numbers.DecimalString.
Import ListNotations.

Set Warnings "-register-all".

Local Open Scope string_scope.
Local Open Scope list_scope.
Local Open Scope nat_scope.

(** String concatenation, the [+] of the host language on strings. *)
Infix "+++" := String.append (at level 60, right associativity).

(** [x |> f]: the statements of the code read top to bottom. *)
Notation "x |> f" := (f x) (at level 71, left associativity, only parsing).

(* ===================================================================== *)
(** * Strings of the host language *)
(* ===================================================================== *)

Module JsString.

(** The double quote, which the code writes inside its string literals. *)
Definition dq : string := String (ascii_of_nat 34) EmptyString.

Definition LF : ascii := ascii_of_nat 10.
Definition nl : string := String LF EmptyString.

Definition chars (s : string) : list ascii := list_ascii_of_string s.
Definition str (l : list ascii) : string := string_of_list_ascii l.

(** White space and line terminators, as [\s] and [trim] see them (the
    ASCII part of the set). *)
Definition is_space (c : ascii) : bool :=
  let n := nat_of_ascii c in
  ((9 <=? n) && (n <=? 13)) || (n =? 32).

Definition is_digit (c : ascii) : bool :=
  let n := nat_of_ascii c in (48 <=? n) && (n <=? 57).

(** [\w]: letters, digits and the underscore. *)
Definition is_word (c : ascii) : bool :=
  let n := nat_of_ascii c in
  ((48 <=? n) && (n <=? 57)) || ((65 <=? n) && (n <=? 90))
  || ((97 <=? n) && (n <=? 122)) || (n =? 95).

(** [.] matches everything but a line terminator. *)
Definition is_line_terminator (c : ascii) : bool :=
  let n := nat_of_ascii c in (n =? 10) || (n =? 13).

Fixpoint drop_space (l : list ascii) : list ascii :=
  match l with
  | c :: l' => if is_space c then drop_space l' else l
  | [] => []
  end.

Definition trim_chars (l : list ascii) : list ascii :=
  rev (drop_space (rev (drop_space l))).

(** [s.trim()] *)
Definition trim (s : string) : string := str (trim_chars (chars s)).

(** [s.startsWith(p)] *)
Definition startsWith (s p : string) : bool := String.prefix p s.

Fixpoint prefix_chars (p l : list ascii) : bool :=
  match p, l with
  | [], _ => true
  | a :: p', b :: l' => Ascii.eqb a b && prefix_chars p' l'
  | _ :: _, [] => false
  end.

(** [s.endsWith(p)] *)
Definition endsWith (s p : string) : bool :=
  prefix_chars (rev (chars p)) (rev (chars s)).

(** [s.split(sep)] for a separator that is not empty. *)
Fixpoint split_chars (fuel : nat) (sep : list ascii) (l : list ascii) (cur : list ascii)
  : list (list ascii) :=
  match fuel with
  | O => [rev cur ++ l]
  | S fuel' =>
      match l with
      | [] => [rev cur]
      | c :: l' =>
          if prefix_chars sep l
          then rev cur :: split_chars fuel' sep (skipn (List.length sep) l) []
          else split_chars fuel' sep l' (c :: cur)
      end
  end.

Definition split (sep : string) (s : string) : list string :=
  map str (split_chars (S (String.length s)) (chars sep) (chars s) []).

(** [parts.join(sep)] *)
Fixpoint join (sep : string) (parts : list string) : string :=
  match parts with
  | [] => ""
  | [p] => p
  | p :: rest => p +++ sep +++ join sep rest
  end.

(** [' '.repeat(n)] *)
Fixpoint repeat_space (n : nat) : string :=
  match n with
  | O => ""
  | S n' => String " " (repeat_space n')
  end.

(** [s.slice(0, i)] and [s.slice(i)] for [0 <= i]; an index beyond the end
    is clamped, as [slice] does. *)
Definition slice_to (i : nat) (s : string) : string := str (firstn i (chars s)).
Definition slice_from (i : nat) (s : string) : string := str (skipn i (chars s)).

(** [s.substring(a, b)] for [a <= b]. *)
Definition substring (a b : nat) (s : string) : string :=
  str (firstn (b - a) (skipn a (chars s))).

(** [s.indexOf(p, from)]: the first index at or after [from] where [p]
    occurs, [None] for [-1]. *)
Fixpoint index_chars (p l : list ascii) (i : nat) : option nat :=
  if prefix_chars p l then Some i
  else match l with
       | [] => None
       | _ :: l' => index_chars p l' (S i)
       end.

Definition indexOf (p : string) (from : nat) (s : string) : option nat :=
  index_chars (chars p) (skipn from (chars s)) from.

(** Decimal rendering of a number, as a template literal prints it. *)
Definition of_nat (n : nat) : string := NilEmpty.string_of_uint (Nat.to_uint n).
Definition of_Z (z : Z) : string := NilZero.string_of_int (Z.to_int z).

End JsString.

(* ===================================================================== *)
(** * Regular expressions of the host language *)
(* ===================================================================== *)

(** The transpilers are sequences of [String.prototype.replace] calls with
    regular-expression literals.  The engine is the host's; this module
    models it for the pattern language the literals use: a parser from the
    literal's text to a syntax tree, and the backtracking matcher of the
    language definition (greedy quantifiers, capture groups, back
    references, look-ahead, word boundaries). *)

Module Regex.
Import JsString.

Inductive cls := ClsSpace | ClsWord | ClsDigit.

Inductive cset_item :=
| CChar (c : ascii)
| CRange (lo hi : ascii)
| CCls (neg : bool) (k : cls).

Inductive regex :=
| REmpty
| RChar (c : ascii)
| RAny
| RCls (neg : bool) (k : cls)
| RSet (neg : bool) (items : list cset_item)
| RSeq (r1 r2 : regex)
| RAlt (r1 r2 : regex)
| RRepeat (min : nat) (max : option nat) (r : regex)
| RGroup (idx : nat) (r : regex)
| RBackref (idx : nat)
| RBol
| REol
| RWordB (neg : bool)
| RLook (neg : bool) (r : regex).

(** The pattern that matches nothing: the empty class. *)
Definition RFail : regex := RSet false [].

Definition in_cls (k : cls) (c : ascii) : bool :=
  match k with
  | ClsSpace => is_space c
  | ClsWord => is_word c
  | ClsDigit => is_digit c
  end.

Definition in_item (it : cset_item) (c : ascii) : bool :=
  match it with
  | CChar x => Ascii.eqb x c
  | CRange lo hi => (nat_of_ascii lo <=? nat_of_ascii c) && (nat_of_ascii c <=? nat_of_ascii hi)
  | CCls neg k => xorb neg (in_cls k c)
  end.

Definition digit_val (c : ascii) : nat := nat_of_ascii c - 48.

(** ** The text of a pattern literal

    [parse] reads the text between the slashes of a literal.  Groups are
    numbered by their opening parenthesis, from 1.  Lazy quantifiers and
    named groups do not occur in the code and are refused. *)

Definition seq (r1 r2 : regex) : regex :=
  match r2 with
  | REmpty => r1
  | _ => RSeq r1 r2
  end.

Definition control_escape (c : ascii) : option ascii :=
  match c with
  | "n"%char => Some (ascii_of_nat 10)
  | "t"%char => Some (ascii_of_nat 9)
  | "r"%char => Some (ascii_of_nat 13)
  | "f"%char => Some (ascii_of_nat 12)
  | "v"%char => Some (ascii_of_nat 11)
  | "0"%char => Some (ascii_of_nat 0)
  | _ => None
  end.

Definition class_escape (c : ascii) : option (bool * cls) :=
  match c with
  | "s"%char => Some (false, ClsSpace)
  | "S"%char => Some (true, ClsSpace)
  | "w"%char => Some (false, ClsWord)
  | "W"%char => Some (true, ClsWord)
  | "d"%char => Some (false, ClsDigit)
  | "D"%char => Some (true, ClsDigit)
  | _ => None
  end.

(** A backslash escape outside a class. *)
Definition atom_escape (c : ascii) : regex :=
  match class_escape c with
  | Some (neg, k) => RCls neg k
  | None =>
      match control_escape c with
      | Some x => RChar x
      | None => if is_digit c then RBackref (digit_val c) else RChar c
      end
  end.

(** One member of a class: a character or an escape. *)
Definition class_atom (l : list ascii) : option (cset_item * list ascii) :=
  match l with
  | "\"%char :: c :: l' =>
      match class_escape c with
      | Some (neg, k) => Some (CCls neg k, l')
      | None =>
          match control_escape c with
          | Some x => Some (CChar x, l')
          | None => Some (CChar c, l')
          end
      end
  | c :: l' => Some (CChar c, l')
  | [] => None
  end.

(** The members of a class up to its closing bracket. *)
Fixpoint parse_class (fuel : nat) (l : list ascii) : option (list cset_item * list ascii) :=
  match fuel with
  | O => None
  | S fuel' =>
      match l with
      | "]"%char :: l' => Some ([], l')
      | _ =>
          match class_atom l with
          | None => None
          | Some (it, l1) =>
              let range :=
                match it, l1 with
                | CChar lo, "-"%char :: l2 =>
                    match l2 with
                    | "]"%char :: _ => None
                    | _ => match class_atom l2 with
                           | Some (CChar hi, l3) => Some (CRange lo hi, l3)
                           | _ => None
                           end
                    end
                | _, _ => None
                end in
              let '(it', l') := match range with Some p => p | None => (it, l1) end in
              match parse_class fuel' l' with
              | Some (its, l'') => Some (it' :: its, l'')
              | None => None
              end
          end
      end
  end.

Fixpoint read_digits (l : list ascii) (acc : nat) : nat * list ascii :=
  match l with
  | c :: l' => if is_digit c then read_digits l' (10 * acc + digit_val c) else (acc, l)
  | [] => (acc, l)
  end.

(** A quantifier after an atom, if there is one: its bounds and the rest
    of the text. *)
Definition quantifier (l : list ascii) : option (nat * option nat * list ascii) :=
  match l with
  | "*"%char :: l' => Some (0, None, l')
  | "+"%char :: l' => Some (1, None, l')
  | "?"%char :: l' => Some (0, Some 1, l')
  | "{"%char :: d :: l' =>
      if is_digit d then
        let '(lo, l1) := read_digits (d :: l') 0 in
        match l1 with
        | "}"%char :: l2 => Some (lo, Some lo, l2)
        | ","%char :: "}"%char :: l2 => Some (lo, None, l2)
        | ","%char :: d2 :: l2 =>
            if is_digit d2 then
              let '(hi, l3) := read_digits (d2 :: l2) 0 in
              match l3 with
              | "}"%char :: l4 => Some (lo, Some hi, l4)
              | _ => None
              end
            else None
        | _ => None
        end
      else None
  | _ => None
  end.

Definition quantified (r : regex) (l : list ascii) (n : nat) : option (regex * list ascii * nat) :=
  match quantifier l with
  | Some (lo, hi, l') =>
      match l' with
      | "?"%char :: _ => None
      | _ => Some (RRepeat lo hi r, l', n)
      end
  | None => Some (r, l, n)
  end.

Fixpoint parse_disj (fuel : nat) (l : list ascii) (n : nat) {struct fuel}
  : option (regex * list ascii * nat) :=
  match fuel with
  | O => None
  | S fuel' =>
      match parse_alt fuel' l n with
      | Some (r1, "|"%char :: l1, n1) =>
          match parse_disj fuel' l1 n1 with
          | Some (r2, l2, n2) => Some (RAlt r1 r2, l2, n2)
          | None => None
          end
      | other => other
      end
  end

with parse_alt (fuel : nat) (l : list ascii) (n : nat) {struct fuel}
  : option (regex * list ascii * nat) :=
  match fuel with
  | O => None
  | S fuel' =>
      match l with
      | [] => Some (REmpty, l, n)
      | "|"%char :: _ => Some (REmpty, l, n)
      | ")"%char :: _ => Some (REmpty, l, n)
      | _ =>
          match parse_term fuel' l n with
          | Some (r1, l1, n1) =>
              match parse_alt fuel' l1 n1 with
              | Some (r2, l2, n2) => Some (seq r1 r2, l2, n2)
              | None => None
              end
          | None => None
          end
      end
  end

with parse_term (fuel : nat) (l : list ascii) (n : nat) {struct fuel}
  : option (regex * list ascii * nat) :=
  match fuel with
  | O => None
  | S fuel' =>
      match l with
      | "^"%char :: l1 => Some (RBol, l1, n)
      | "$"%char :: l1 => Some (REol, l1, n)
      | "\"%char :: "b"%char :: l1 => Some (RWordB false, l1, n)
      | "\"%char :: "B"%char :: l1 => Some (RWordB true, l1, n)
      | "\"%char :: c :: l1 => quantified (atom_escape c) l1 n
      | "."%char :: l1 => quantified RAny l1 n
      | "["%char :: "^"%char :: l1 =>
          match parse_class (S (List.length l1)) l1 with
          | Some (items, l2) => quantified (RSet true items) l2 n
          | None => None
          end
      | "["%char :: l1 =>
          match parse_class (S (List.length l1)) l1 with
          | Some (items, l2) => quantified (RSet false items) l2 n
          | None => None
          end
      | "("%char :: "?"%char :: "!"%char :: l1 =>
          match parse_disj fuel' l1 n with
          | Some (r, ")"%char :: l2, n2) => Some (RLook true r, l2, n2)
          | _ => None
          end
      | "("%char :: "?"%char :: "="%char :: l1 =>
          match parse_disj fuel' l1 n with
          | Some (r, ")"%char :: l2, n2) => Some (RLook false r, l2, n2)
          | _ => None
          end
      | "("%char :: "?"%char :: ":"%char :: l1 =>
          match parse_disj fuel' l1 n with
          | Some (r, ")"%char :: l2, n2) => quantified r l2 n2
          | _ => None
          end
      | "("%char :: "?"%char :: _ => None
      | "("%char :: l1 =>
          match parse_disj fuel' l1 (S n) with
          | Some (r, ")"%char :: l2, n2) => quantified (RGroup (S n) r) l2 n2
          | _ => None
          end
      | "*"%char :: _ => None
      | "+"%char :: _ => None
      | "?"%char :: _ => None
      | c :: l1 => quantified (RChar c) l1 n
      | [] => None
      end
  end.

Definition parse (text : string) : option regex :=
  match parse_disj (3 * String.length text + 3) (chars text) 0 with
  | Some (r, [], _) => Some r
  | _ => None
  end.

(** The pattern of a literal; a text that is not a pattern of the modelled
    language gives the pattern that matches nothing (the code has none:
    [patterns_parse] below). *)
Definition re (text : string) : regex :=
  match parse text with
  | Some r => r
  | None => RFail
  end.

(** Matcher state: the rest of the input, the character before it (for
    word boundaries) and the captures so far. *)
Record mstate := MState {
  rest : list ascii;
  before : option ascii;
  caps : list (nat * list ascii)
}.

Fixpoint last_char (prev : option ascii) (l : list ascii) : option ascii :=
  match l with
  | [] => prev
  | c :: l' => last_char (Some c) l'
  end.

(** Consume the first [n] characters. *)
Definition advance (n : nat) (st : mstate) : mstate :=
  MState (skipn n (rest st)) (last_char (before st) (firstn n (rest st))) (caps st).

Definition one (p : ascii -> bool) (st : mstate) (k : mstate -> option mstate) : option mstate :=
  match rest st with
  | c :: l => if p c then k (MState l (Some c) (caps st)) else None
  | [] => None
  end.

Fixpoint get_cap (i : nat) (cs : list (nat * list ascii)) : option (list ascii) :=
  match cs with
  | [] => None
  | (j, v) :: cs' => if i =? j then Some v else get_cap i cs'
  end.

Definition set_cap (i : nat) (v : list ascii) (cs : list (nat * list ascii)) : list (nat * list ascii) :=
  (i, v) :: filter (fun p => negb (fst p =? i)) cs.

(** The capture groups inside a pattern: a quantifier resets them at each
    iteration. *)
Fixpoint groups (r : regex) : list nat :=
  match r with
  | RSeq a b | RAlt a b => groups a ++ groups b
  | RRepeat _ _ a | RLook _ a => groups a
  | RGroup i a => i :: groups a
  | _ => []
  end.

Definition clear_caps (gs : list nat) (st : mstate) : mstate :=
  MState (rest st) (before st)
         (filter (fun p => negb (existsb (Nat.eqb (fst p)) gs)) (caps st)).

Definition at_word_boundary (st : mstate) : bool :=
  let a := match before st with Some c => is_word c | None => false end in
  let b := match rest st with c :: _ => is_word c | [] => false end in
  xorb a b.

(** The matcher, in continuation-passing style: [m r st k] matches [r] at
    [st] and hands the state after it to [k]; [None] makes the caller try
    its next alternative. *)
Fixpoint m (r : regex) (st : mstate) (k : mstate -> option mstate) {struct r} : option mstate :=
  match r with
  | REmpty => k st
  | RChar c => one (Ascii.eqb c) st k
  | RAny => one (fun c => negb (is_line_terminator c)) st k
  | RCls neg cl => one (fun c => xorb neg (in_cls cl c)) st k
  | RSet neg items => one (fun c => xorb neg (existsb (fun it => in_item it c) items)) st k
  | RSeq r1 r2 => m r1 st (fun st1 => m r2 st1 k)
  | RAlt r1 r2 =>
      match m r1 st k with
      | Some res => Some res
      | None => m r2 st k
      end
  | RRepeat min max r1 =>
      (fix rep (fuel : nat) (min : nat) (max : option nat) (st : mstate) {struct fuel}
         : option mstate :=
         match fuel with
         | O => None
         | S fuel' =>
             match max with
             | Some O => k st
             | _ =>
                 let again :=
                   m r1 (clear_caps (groups r1) st)
                     (fun st' =>
                        if (min =? 0) && (List.length (rest st') =? List.length (rest st))
                        then None
                        else rep fuel' (Nat.pred min) (option_map Nat.pred max) st') in
                 match min with
                 | S _ => again
                 | O => match again with
                        | Some res => Some res
                        | None => k st
                        end
                 end
             end
         end) (min + List.length (rest st) + 1) min max st
  | RGroup i r1 =>
      m r1 st (fun st' =>
        let n := List.length (rest st) - List.length (rest st') in
        k (MState (rest st') (before st') (set_cap i (firstn n (rest st)) (caps st'))))
  | RBackref i =>
      match get_cap i (caps st) with
      | None => k st
      | Some v => if prefix_chars v (rest st) then k (advance (List.length v) st) else None
      end
  | RBol => match before st with None => k st | Some _ => None end
  | REol => match rest st with [] => k st | _ :: _ => None end
  | RWordB neg => if xorb neg (at_word_boundary st) then k st else None
  | RLook neg r1 =>
      match m r1 st Some with
      | Some st' => if neg then None else k (MState (rest st) (before st) (caps st'))
      | None => if neg then k st else None
      end
  end.

(** One successful match: the text matched, the captures, and the state
    after the match. *)
Record found := Found {
  matched : list ascii;
  fcaps : list (nat * list ascii);
  after : mstate
}.

(** The leftmost match at or after the current position, with the text
    skipped before it. *)
Fixpoint search (r : regex) (l : list ascii) (prev : option ascii)
  : option (list ascii * found) :=
  match m r (MState l prev []) Some with
  | Some st => Some ([], Found (firstn (List.length l - List.length (rest st)) l) (caps st) st)
  | None =>
      match l with
      | [] => None
      | c :: l' =>
          match search r l' (Some c) with
          | Some (sk, f) => Some (c :: sk, f)
          | None => None
          end
      end
  end.

(** The input cut at the matches of a global pattern. *)
Inductive piece :=
| Lit (text : list ascii)
| Hit (f : found).

(** All matches, left to right, from [lastIndex = 0]; after an empty match
    the scan moves one character on. *)
Fixpoint scan (fuel : nat) (r : regex) (l : list ascii) (prev : option ascii) : list piece :=
  match fuel with
  | O => [Lit l]
  | S fuel' =>
      match search r l prev with
      | None => [Lit l]
      | Some (sk, f) =>
          Lit sk :: Hit f ::
          match matched f with
          | [] =>
              match rest (after f) with
              | [] => []
              | c :: l' => Lit [c] :: scan fuel' r l' (Some c)
              end
          | _ :: _ => scan fuel' r (rest (after f)) (before (after f))
          end
      end
  end.

Definition pieces (r : regex) (s : string) : list piece :=
  scan (S (String.length s)) r (chars s) None.

(** [$1], [$2], ... of a match; a group that did not take part is the
    empty string in a replacement. *)
Definition group (i : nat) (f : found) : string :=
  match get_cap i (fcaps f) with
  | Some v => str v
  | None => ""
  end.

Definition whole (f : found) : string := str (matched f).

(** [s.replace(/r/g, fn)] with a replacer function. *)
Definition replace_fn (r : regex) (fn : found -> string) (s : string) : string :=
  String.concat "" (map (fun p => match p with Lit t => str t | Hit f => fn f end) (pieces r s)).

(** [s.replace(/r/, fn)] without the global flag: the first match only. *)
Definition replace_first_fn (r : regex) (fn : found -> string) (s : string) : string :=
  match search r (chars s) None with
  | None => s
  | Some (sk, f) => str sk +++ fn f +++ str (rest (after f))
  end.

(** A replacement template: [$$], [$&], [$n] and [$nn] are substituted,
    where [ngroups] is the number of groups of the pattern; a reference to
    a group the pattern does not have stays as it is written.  (The
    templates of the code use [$1] to [$4] only.) *)
Fixpoint expand (ngroups : nat) (t : list ascii) (f : found) : string :=
  match t with
  | [] => ""
  | "$"%char :: t1 =>
      match t1 with
      | "$"%char :: t2 => String "$" (expand ngroups t2 f)
      | "&"%char :: t2 => whole f +++ expand ngroups t2 f
      | d1 :: t2 =>
          if is_digit d1 then
            let two :=
              match t2 with
              | d2 :: t3 =>
                  if is_digit d2 then
                    let nn := 10 * digit_val d1 + digit_val d2 in
                    if (1 <=? nn) && (nn <=? ngroups)
                    then Some (group nn f +++ expand ngroups t3 f) else None
                  else None
              | [] => None
              end in
            match two with
            | Some res => res
            | None =>
                let n := digit_val d1 in
                if (1 <=? n) && (n <=? ngroups)
                then group n f +++ expand ngroups t2 f
                else String "$" (expand ngroups t1 f)
            end
          else String "$" (expand ngroups t1 f)
      | [] => "$"
      end
  | c :: t1 => String c (expand ngroups t1 f)
  end.

Definition replace_all (r : regex) (template : string) (s : string) : string :=
  replace_fn r (expand (List.length (groups r)) (chars template)) s.

Definition replace_first (r : regex) (template : string) (s : string) : string :=
  replace_first_fn r (expand (List.length (groups r)) (chars template)) s.

(** One statement [js = js.replace(/pattern/g, replacement)] of a
    transpiler, the replacement being a template or a function. *)
Inductive rule :=
| Replace (pattern template : string)
| ReplaceWith (pattern : string) (replacer : found -> string).

Definition pattern_of (r : rule) : string :=
  match r with
  | Replace p _ => p
  | ReplaceWith p _ => p
  end.

Definition apply_rule (js : string) (r : rule) : string :=
  match r with
  | Replace p template => replace_all (re p) template js
  | ReplaceWith p replacer => replace_fn (re p) replacer js
  end.

(** The statements one after the other. *)
Definition apply_rules (rules : list rule) (js : string) : string :=
  fold_left apply_rule rules js.

(** [s.match(/r/)] without the global flag. *)
Definition match_first (r : regex) (s : string) : option found :=
  match search r (chars s) None with
  | Some (_, f) => Some f
  | None => None
  end.

(** The matches of a global pattern with the index of each, as the loop
    [while ((match = re.exec(s)) !== null)] sees them, for a pattern that
    matches no empty string. *)
Fixpoint with_index (i : nat) (ps : list piece) : list (nat * found) :=
  match ps with
  | [] => []
  | Lit t :: ps' => with_index (i + List.length t) ps'
  | Hit f :: ps' => (i, f) :: with_index (i + List.length (matched f)) ps'
  end.

Definition exec_all (r : regex) (s : string) : list (nat * found) :=
  with_index 0 (pieces r s).

(** [s.split(/r/)], for a pattern that matches no empty string. *)
Fixpoint split_pieces (cur : string) (ps : list piece) : list string :=
  match ps with
  | [] => [cur]
  | Lit t :: ps' => split_pieces (cur +++ str t) ps'
  | Hit _ :: ps' => cur :: split_pieces "" ps'
  end.

Definition split_re (r : regex) (s : string) : list string :=
  match s with
  | EmptyString => match match_first r s with Some _ => [] | None => [""] end
  | _ => split_pieces "" (pieces r s)
  end.

End Regex.

(* ===================================================================== *)
(** * The Python front-end (backend/sandbox/pythonTranspiler.ts) *)
(* ===================================================================== *)

Module PythonTranspiler.
Import JsString Regex.

Definition indent_pattern : string := "^(\s*)".

(** [getIndent]: the number of white-space characters a line starts with. *)
Definition getIndent (line : string) : nat :=
  match match_first (re indent_pattern) line with
  | Some f => String.length (group 1 f)
  | None => 0
  end.

(** A line that is neither blank nor a comment. *)
Definition is_code_line (line : string) : bool :=
  let trimmed := trim line in
  negb (String.eqb trimmed "") && negb (startsWith trimmed "#").

Definition colon_pattern : string := ":\s*$".

(** The inner [for (let j = processedLines.length - 1; j >= 0; j--)] loop:
    the last code line gets an opening brace (its trailing colon removed)
    unless it already ends with one.  The argument is [processedLines]
    with its last line first. *)
Fixpoint open_block (rev_lines : list string) : list string :=
  match rev_lines with
  | [] => []
  | prevLine :: older =>
      if is_code_line prevLine then
        (if negb (endsWith (trim prevLine) "{")
         then replace_first (re colon_pattern) "" prevLine +++ " {"
         else prevLine) :: older
      else prevLine :: open_block older
  end.

(** The [while (indentStack.length > 1 && currentIndent < top)] loop.  The
    stack has its top first; its bottom entry [0] is never popped. *)
Fixpoint close_blocks (currentIndent : nat) (indentStack : list nat) (processedLines : list string)
  : list nat * list string :=
  match indentStack with
  | top :: ((below :: _) as popped) =>
      if currentIndent <? top
      then close_blocks currentIndent popped (processedLines ++ [repeat_space below +++ "}"])
      else (indentStack, processedLines)
  | _ => (indentStack, processedLines)
  end.

(** The final [while (indentStack.length > 1)] loop. *)
Fixpoint close_all (indentStack : list nat) (processedLines : list string) : list string :=
  match indentStack with
  | _ :: ((below :: _) as popped) => close_all popped (processedLines ++ [repeat_space below +++ "}"])
  | _ => processedLines
  end.

(** One turn of the loop over the lines. *)
Definition indent_step (st : list nat * list string) (line : string) : list nat * list string :=
  let '(indentStack, processedLines) := st in
  if negb (is_code_line line) then (indentStack, processedLines ++ [line])
  else
    let currentIndent := getIndent line in
    let lastIndent := hd 0 indentStack in
    if lastIndent <? currentIndent then
      (currentIndent :: indentStack, rev (open_block (rev processedLines)) ++ [line])
    else if currentIndent <? lastIndent then
      let '(stack', lines') := close_blocks currentIndent indentStack processedLines in
      (stack', lines' ++ [line])
    else (indentStack, processedLines ++ [line]).

(** PHASE 1: indentation to braces. *)
Definition indentation_to_braces (js : string) : string :=
  let lines := split nl js in
  let '(indentStack, processedLines) := fold_left indent_step lines ([0], []) in
  join nl (close_all indentStack processedLines).

(** PHASE 2: syntax replacement, the statements of the source in their order. *)
Definition syntax_rules : list rule :=
  [Replace "\bNone\b" "null";
   Replace "\bTrue\b" "true";
   Replace "\bFalse\b" "false";
   Replace "def\s+(\w+)\s*\(([^)]*)\)\s*\{" "function $1($2) {";
   Replace "\bprint\s*\(" "console.log(";
   Replace "if\s+(.+)\s*\{" "if ($1) {";
   Replace "elif\s+(.+)\s*\{" "else if ($1) {";
   Replace "else\s*\{" "else {";
   Replace "while\s+(.+)\s*\{" "while ($1) {";
   Replace "for\s+(\w+)\s+in\s+range\s*\(\s*([^,)]+)\s*\)\s*\{"
           "for (let $1 = 0; $1 < $2; $1++) {";
   Replace "for\s+(\w+)\s+in\s+range\s*\(\s*([^,]+)\s*,\s*([^)]+)\s*\)\s*\{"
           "for (let $1 = $2; $1 < $3; $1++) {";
   Replace "for\s+(\w+)\s+in\s+range\s*\(\s*([^,]+)\s*,\s*([^,]+)\s*,\s*([^)]+)\s*\)\s*\{"
           "for (let $1 = $2; $1 < $3; $1 += $4) {";
   Replace "for\s+(\w+)\s+in\s+(\w+)\s*\{" "for (let $1 of $2) {";
   Replace "\.append\s*\(" ".push(";
   Replace "\.pop\s*\(\s*\)" ".pop()";
   Replace "\.pop\s*\(\s*0\s*\)" ".shift()";
   Replace "len\s*\(([^)]+)\)" "$1.length";
   Replace "(\w+)\.insert\s*\(\s*([^,]+)\s*,\s*([^)]+)\s*\)" "$1.splice($2, 0, $3)";
   Replace "\bstr\s*\(" "String(";
   Replace "\bint\s*\(" "parseInt(";
   Replace "\bfloat\s*\(" "parseFloat(";
   Replace "math\.(\w+)\s*\(" "Math.$1(";
   Replace "([a-zA-Z0-9_]+)\s*\/\/\s*([a-zA-Z0-9_]+)" "Math.floor($1 / $2)";
   Replace "range\s*\(\s*(.+)\s*\/\/\s*(.+)\s*\)" "range(Math.floor($1 / $2))";
   Replace "\s+\/\/\s+" " / ";
   Replace "(\w+)\s*\/\/\s*(\w+)" "Math.floor($1 / $2)";
   Replace "#" "//"].

Definition syntax_replacement (js : string) : string := apply_rules syntax_rules js.

Definition keywords : list string := ["if"; "while"; "for"; "return"; "else"; "elif"].

Definition assignment_pattern : string := "^(\s*)([a-zA-Z_]\w*)\s*=(?!=)(.*)".

(** One turn of the loop over [lines2]. *)
Definition inject_declaration (line : string) : string :=
  match match_first (re assignment_pattern) line with
  | Some assignmentMatch =>
      let indent := group 1 assignmentMatch in
      let name := group 2 assignmentMatch in
      let rest := group 3 assignmentMatch in
      if existsb (String.eqb name) keywords then line
      else indent +++ "var " +++ name +++ " =" +++ rest
  | None => line
  end.

(** PHASE 3: variable declaration injection. *)
Definition declaration_injection (js : string) : string :=
  join nl (map inject_declaration (split nl js)).

(** The patterns of this front-end. *)
Definition patterns : list string :=
  [indent_pattern; colon_pattern; assignment_pattern] ++ map pattern_of syntax_rules.

Definition transpilePythonToJs (pythonCode : string) : string :=
  let js := pythonCode in
  let js := indentation_to_braces js in
  let js := syntax_replacement js in
  let js := declaration_injection js in
  js.

End PythonTranspiler.

(* ===================================================================== *)
(** * The C++ front-end (backend/sandbox/cppTranspiler.ts) *)
(* ===================================================================== *)

Module CppTranspiler.
Import JsString Regex.

Definition char_at (code : list ascii) (i : nat) : option ascii := nth_error code i.

Definition is_char (c : ascii) (o : option ascii) : bool :=
  match o with
  | Some x => Ascii.eqb x c
  | None => false
  end.

(** The loop of [findMatchingBrace]; [None] is its [-1].  Every turn moves
    [i] forward, so the length of the text bounds the number of turns. *)
Fixpoint findMatchingBrace_loop (fuel : nat) (code : list ascii) (i : nat) (depth : Z)
         (inString inChar : bool) : option nat :=
  match fuel with
  | O => None
  | S fuel' =>
      match char_at code i with
      | None => None
      | Some ch =>
          let prev := match i with O => None | S j => char_at code j end in
          if negb inChar && Ascii.eqb ch (ascii_of_nat 34) && negb (is_char "\" prev) then
            findMatchingBrace_loop fuel' code (S i) depth (negb inString) inChar
          else if negb inString && Ascii.eqb ch "'" && negb (is_char "\" prev) then
            findMatchingBrace_loop fuel' code (S i) depth inString (negb inChar)
          else if inString || inChar then
            findMatchingBrace_loop fuel' code (S i) depth inString inChar
          else if Ascii.eqb ch "/" && is_char "/" (char_at code (S i)) then
            match indexOf nl i (str code) with
            | None => None
            | Some eol => findMatchingBrace_loop fuel' code (S eol) depth inString inChar
            end
          else if Ascii.eqb ch "/" && is_char "*" (char_at code (S i)) then
            match indexOf "*/" (i + 2) (str code) with
            | None => None
            | Some e => findMatchingBrace_loop fuel' code (S (e + 1)) depth inString inChar
            end
          else
            let depth1 := if Ascii.eqb ch "{" then (depth + 1)%Z else depth in
            if Ascii.eqb ch "}" then
              let depth2 := (depth1 - 1)%Z in
              if (depth2 =? 0)%Z then Some i
              else findMatchingBrace_loop fuel' code (S i) depth2 inString inChar
            else findMatchingBrace_loop fuel' code (S i) depth1 inString inChar
      end
  end.

Definition findMatchingBrace (code : string) (openIndex : nat) : option nat :=
  findMatchingBrace_loop (S (String.length code)) (chars code) openIndex 0%Z false false.

(** The loop of [parseCoutArgs]: [parts] and [current] while the
    characters are read. *)
Definition push_trimmed (parts : list string) (current : list ascii) : list string :=
  let trimmed := trim (str current) in
  if String.eqb trimmed "" then parts else parts ++ [trimmed].

Fixpoint cout_parts (argsStr : list ascii) (parts : list string) (current : list ascii)
         (parenDepth : Z) : list string :=
  match argsStr with
  | [] => push_trimmed parts current
  | ch :: more =>
      let parenDepth :=
        if Ascii.eqb ch "(" then (parenDepth + 1)%Z
        else if Ascii.eqb ch ")" then (parenDepth - 1)%Z
        else parenDepth in
      match more with
      | next :: more' =>
          if (parenDepth =? 0)%Z && Ascii.eqb ch "<" && Ascii.eqb next "<"
          then cout_parts more' (push_trimmed parts current) [] parenDepth
          else cout_parts more parts (current ++ [ch]) parenDepth
      | [] => cout_parts more parts (current ++ [ch]) parenDepth
      end
  end.

Definition parseCoutArgs (argsStr : string) : string :=
  let parts := cout_parts (chars argsStr) [] [] 0%Z in
  let filtered :=
    filter (fun p => let clean := trim p in
                     negb (String.eqb clean "endl") && negb (String.eqb clean "std::endl"))
           parts in
  join ", " filtered.

(** PHASE 1: preprocessor and boilerplate removal. *)
Definition phase1_rules : list rule :=
  [Replace "#include\s*<[^>]*>" "";
   Replace ("#include\s*" +++ dq +++ "[^" +++ dq +++ "]*" +++ dq) "";
   Replace "#define\s+(\w+)\s+(.+)" "const $1 = $2;";
   Replace "using\s+namespace\s+std\s*;" "";
   Replace "typedef\s+[\w\s]+\s+(\w+)\s*;" "";
   Replace "using\s+\w+\s*=\s*[^;]+;" ""].

Definition phase1 (js : string) : string := apply_rules phase1_rules js.

Record func := Func { name : string; params : string; body : string; fullMatch : string }.

Definition funcPattern : string :=
  "(?:^|\n)\s*(?:(?:void|int|float|double|string|bool|char|long|auto|long\s+long|unsigned\s+int|short)\s+)(\w+)\s*\(([^)]*)\)\s*\{".

Definition funcRegex : regex := re funcPattern.

(** One turn of the [while ((match = funcRegex.exec(processedCode)) !== null)]
    loop: the function found at a match, or nothing where the loop
    continues. *)
Definition function_at (processedCode : string) (mt : nat * found) : option func :=
  let '(index, f) := mt in
  match indexOf "{" (index + List.length (matched f) - 1) processedCode with
  | None => None
  | Some openBraceIndex =>
      match findMatchingBrace processedCode openBraceIndex with
      | None => None
      | Some closeBraceIndex =>
          Some (Func (group 1 f) (group 2 f)
                     (substring (openBraceIndex + 1) closeBraceIndex processedCode)
                     (substring index (closeBraceIndex + 1) processedCode))
      end
  end.

Fixpoint collect {A B : Type} (g : A -> option B) (l : list A) : list B :=
  match l with
  | [] => []
  | a :: l' => match g a with Some b => b :: collect g l' | None => collect g l' end
  end.

Definition spaces_pattern : string := "\s+".
Definition return0_pattern : string := "return\s+0\s*;".

(** The parameter list of a helper function without its types: the last
    word of each parameter. *)
Definition jsParam (p : string) : string :=
  let trimmed := trim p in
  if String.eqb trimmed "" then ""
  else
    let parts := split_re (re spaces_pattern) (trim (replace_all (re "&") "" trimmed)) in
    last parts "".

Definition jsParams (ps : string) : string :=
  join ", " (filter (fun x => negb (String.eqb x "")) (map jsParam (split "," ps))).

(** PHASE 2: extract functions and main. *)
Definition phase2 (js : string) : string :=
  let processedCode := js in
  let functions := collect (function_at processedCode) (exec_all funcRegex processedCode) in
  let mainFunc := find (fun f => String.eqb (name f) "main") functions in
  let helperFuncs := filter (fun f => negb (String.eqb (name f) "main")) functions in
  match mainFunc, helperFuncs with
  | None, [] => replace_all (re return0_pattern) "" js
  | _, _ =>
      let parts :=
        map (fun f => "function " +++ name f +++ "(" +++ jsParams (params f) +++ ") {"
                      +++ body f +++ "}") helperFuncs
        ++ match mainFunc with
           | Some f => [replace_all (re return0_pattern) "" (body f)]
           | None => []
           end in
      join (nl +++ nl) parts
  end.

(** The replacer of the nested initialisers: braces become brackets. *)
Definition braces_to_brackets (init : string) : string :=
  replace_all (re "\}") "]" (replace_all (re "\{") "[" init).

(** PHASE 3: STL containers. *)
Definition phase3_rules : list rule :=
  [ReplaceWith "(?:std::)?vector\s*<\s*(?:std::)?vector\s*<[^>]+>\s*>\s+(\w+)\s*=\s*\{(\{[^}]*\}(?:\s*,\s*\{[^}]*\})*)\}\s*;"
     (fun f => "let " +++ group 1 f +++ " = [" +++ braces_to_brackets (group 2 f) +++ "];");
   Replace "(?:std::)?vector\s*<\s*(?:std::)?vector\s*<[^>]+>\s*>\s+(\w+)\s*;"
           "let $1 = [];";
   Replace "(?:std::)?vector\s*<[^>]+>\s+(\w+)\s*=\s*\{([^}]*)\}\s*;" "let $1 = [$2];";
   Replace "(?:std::)?vector\s*<[^>]+>\s+(\w+)\s*;" "let $1 = [];";
   Replace "(?:std::)?vector\s*<[^>]+>\s+(\w+)\s*\(([^,]+),\s*([^)]+)\)\s*;"
           "let $1 = Array($2).fill($3);";
   Replace "(?:std::)?vector\s*<[^>]+>\s+(\w+)\s*\(([^)]+)\)\s*;"
           "let $1 = Array($2).fill(0);";
   Replace "(?:std::)?(?:unordered_)?map\s*<[^>]+>\s+(\w+)\s*;" "let $1 = new Map();";
   ReplaceWith "(?:std::)?(?:unordered_)?map\s*<[^>]+>\s+(\w+)\s*=\s*\{([^}]*)\}\s*;"
     (fun f => "let " +++ group 1 f +++ " = new Map([" +++ braces_to_brackets (group 2 f) +++ "]);");
   Replace "(?:std::)?(?:unordered_)?set\s*<[^>]+>\s+(\w+)\s*;" "let $1 = new Set();";
   Replace "(?:std::)?(?:unordered_)?set\s*<[^>]+>\s+(\w+)\s*=\s*\{([^}]*)\}\s*;"
           "let $1 = new Set([$2]);";
   Replace "(?:std::)?pair\s*<[^>]+>\s+(\w+)\s*=\s*\{([^}]*)\}\s*;" "let $1 = [$2];";
   Replace "(?:std::)?pair\s*<[^>]+>\s+(\w+)\s*\(([^)]*)\)\s*;" "let $1 = [$2];";
   Replace "(?:std::)?pair\s*<[^>]+>\s+(\w+)\s*;" "let $1 = [0, 0];";
   Replace "(?:std::)?make_pair\s*\(([^,]+),\s*([^)]+)\)" "[$1, $2]";
   Replace "(?:std::)?stack\s*<[^>]+>\s+(\w+)\s*;" "let $1 = [];";
   Replace "(?:std::)?queue\s*<[^>]+>\s+(\w+)\s*;" "let $1 = [];";
   Replace "(?:std::)?priority_queue\s*<[^>]*>\s+(\w+)\s*;" "let $1 = [];"].

Definition phase3 (js : string) : string := apply_rules phase3_rules js.

Definition types : list string :=
  ["long\s+long"; "unsigned\s+int";
   "int"; "float"; "double"; "string"; "bool"; "char"; "auto"; "long"; "short"].

Definition typePattern : string := "\b(" +++ join "|" types +++ ")\s+".

(** PHASE 4: type replacement. *)
Definition phase4_rules : list rule :=
  [Replace "for\s*\(\s*(?:const\s+)?(?:auto|int|float|double|string|char|long|long\s+long|unsigned\s+int|short|bool)\s*&?\s+(\w+)\s*:\s*"
           "for (let $1 of ";
   Replace "\bconst\s+(?:int|float|double|string|bool|char|auto|long|short|long\s+long|unsigned\s+int)\s+"
           "const ";
   Replace typePattern "let "].

Definition phase4 (js : string) : string := apply_rules phase4_rules js.

(** PHASE 5: arrays. *)
Definition phase5_rules : list rule :=
  [Replace "let\s+(\w+)\[(\d+)\]\[(\d+)\]\s*;"
           "let $1 = Array($2).fill(null).map(() => Array($3).fill(0));";
   ReplaceWith "let\s+(\w+)\[\d+\]\[\d+\]\s*=\s*\{(\{[^}]*\}(?:\s*,\s*\{[^}]*\})*)\}\s*;"
     (fun f => "let " +++ group 1 f +++ " = [" +++ braces_to_brackets (group 2 f) +++ "];");
   Replace "let\s+(\w+)\[\]\s*=\s*\{([^}]*)\}\s*;" "let $1 = [$2];";
   Replace "let\s+(\w+)\[\d+\]\s*=\s*\{([^}]*)\}\s*;" "let $1 = [$2];";
   Replace "let\s+(\w+)\[(\d+)\]\s*;" "let $1 = Array($2).fill(0);"].

Definition phase5 (js : string) : string := apply_rules phase5_rules js.

(** PHASE 6: input and output. *)
Definition phase6_rules : list rule :=
  [ReplaceWith "(?:std::)?cout\s*<<\s*(.*);"
     (fun f => let parsed := parseCoutArgs (group 1 f) in
                 if String.eqb parsed "" then "// empty cout"
                 else "console.log(" +++ parsed +++ ");");
   ReplaceWith "(?:std::)?cerr\s*<<\s*(.*);"
     (fun f => let parsed := parseCoutArgs (group 1 f) in
                 if String.eqb parsed "" then "// empty cerr"
                 else "console.error(" +++ parsed +++ ");");
   ReplaceWith "(?:std::)?cin\s*>>\s*(.*);"
     (fun f => let vars := filter (fun v => negb (String.eqb v ""))
                                    (map trim (split ">>" (group 1 f))) in
                 join " " (map (fun v => v +++ " = __tracer.input();") vars));
   ReplaceWith ("printf\s*\(\s*" +++ dq +++ "([^" +++ dq +++ "]*)" +++ dq +++ "(?:\s*,\s*([^)]*))?\)\s*;")
     (fun f => if negb (String.eqb (group 2 f) "")
                 then "console.log(" +++ trim (group 2 f) +++ ");"
                 else "console.log(" +++ dq +++ group 1 f +++ dq +++ ");");
   Replace "scanf\s*\([^)]*\)\s*;" "// scanf not supported in visualizer"].

Definition phase6 (js : string) : string := apply_rules phase6_rules js.

(** PHASE 7: STL method translations. *)
Definition phase7_rules : list rule :=
  [Replace "\.push_back\s*\(" ".push(";
   Replace "\.pop_back\s*\(\s*\)" ".pop()";
   Replace "\.emplace_back\s*\(" ".push(";
   Replace "\.size\s*\(\s*\)" ".length";
   Replace "\.length\s*\(\s*\)" ".length";
   Replace "(\w+)\.empty\s*\(\s*\)" "($1.length === 0)";
   Replace "\.front\s*\(\s*\)" "[0]";
   Replace "\.back\s*\(\s*\)" "[this.length - 1]";
   Replace "(\w+)\[this\.length - 1\]" "$1[$1.length - 1]";
   Replace "\.clear\s*\(\s*\)" ".length = 0";
   Replace "\.erase\s*\(\s*(\w+)\.begin\s*\(\s*\)\s*\)" ".shift()";
   Replace "\.insert\s*\(\s*(\w+)\.begin\s*\(\s*\)\s*,\s*" ".unshift(";
   Replace "(\w+)\.count\s*\(([^)]+)\)"
           "($1.has ? ($1.has($2) ? 1 : 0) : ($2 in $1 ? 1 : 0))";
   Replace "(\w+)\.find\s*\(([^)]+)\)\s*!=\s*\1\.end\s*\(\s*\)" "$1.has($2)";
   Replace "(\w+)\.find\s*\(([^)]+)\)\s*==\s*\1\.end\s*\(\s*\)" "!$1.has($2)";
   Replace "\.insert\s*\((?!(\w+)\.begin)" ".add(";
   Replace "(\w+)\.top\s*\(\s*\)" "$1[$1.length - 1]";
   Replace "\.first\b" "[0]";
   Replace "\.second\b" "[1]";
   Replace "(\w+)\.substr\s*\(\s*([^,)]+)\s*,\s*([^)]+)\s*\)" "$1.substring($2, $2 + $3)";
   Replace "\.substr\s*\(" ".substring(";
   Replace "(\w+)\.find\s*\(([^)]+)\)(?!\s*[!=]=)" "$1.indexOf($2)";
   Replace "(?:std::)?string::npos" "-1";
   Replace "to_string\s*\(" "String(";
   Replace "stoi\s*\(" "parseInt(";
   Replace "sto[fd]\s*\(" "parseFloat(";
   Replace "getline\s*\(\s*(?:std::)?cin\s*,\s*(\w+)\s*\)" "$1 = __tracer.input()"].

Definition phase7 (js : string) : string := apply_rules phase7_rules js.

(** PHASE 8: STL algorithms. *)
Definition phase8_rules : list rule :=
  [Replace "(?:std::)?sort\s*\(\s*(\w+)\.begin\s*\(\s*\)\s*,\s*\1\.end\s*\(\s*\)\s*\)"
           "$1.sort((a, b) => a - b)";
   Replace "(?:std::)?sort\s*\(\s*(\w+)\.begin\s*\(\s*\)\s*,\s*\1\.end\s*\(\s*\)\s*,\s*(?:std::)?greater\s*<[^>]*>\s*\(\s*\)\s*\)"
           "$1.sort((a, b) => b - a)";
   Replace "(?:std::)?sort\s*\(\s*(\w+)\.begin\s*\(\s*\)\s*,\s*\1\.end\s*\(\s*\)\s*,\s*(\w+)\s*\)"
           "$1.sort($2)";
   Replace "(?:std::)?sort\s*\(\s*(\w+)\s*,\s*\1\s*\+\s*(\w+)\s*\)"
           "$1.sort((a, b) => a - b)";
   Replace "(?:std::)?reverse\s*\(\s*(\w+)\.begin\s*\(\s*\)\s*,\s*\1\.end\s*\(\s*\)\s*\)"
           "$1.reverse()";
   Replace "(?:std::)?swap\s*\(\s*(\w+(?:\[[^\]]*\])?)\s*,\s*(\w+(?:\[[^\]]*\])?)\s*\)\s*;"
           "[$1, $2] = [$2, $1];";
   Replace "(?:std::)?find\s*\(\s*(\w+)\.begin\s*\(\s*\)\s*,\s*\1\.end\s*\(\s*\)\s*,\s*([^)]+)\s*\)"
           "$1.indexOf($2)";
   Replace "(?:std::)?accumulate\s*\(\s*(\w+)\.begin\s*\(\s*\)\s*,\s*\1\.end\s*\(\s*\)\s*,\s*([^)]+)\s*\)"
           "$1.reduce((a, b) => a + b, $2)";
   Replace "\*\s*(?:std::)?min_element\s*\(\s*(\w+)\.begin\s*\(\s*\)\s*,\s*\1\.end\s*\(\s*\)\s*\)"
           "Math.min(...$1)";
   Replace "\*\s*(?:std::)?max_element\s*\(\s*(\w+)\.begin\s*\(\s*\)\s*,\s*\1\.end\s*\(\s*\)\s*\)"
           "Math.max(...$1)";
   Replace "(?:std::)?fill\s*\(\s*(\w+)\.begin\s*\(\s*\)\s*,\s*\1\.end\s*\(\s*\)\s*,\s*([^)]+)\s*\)"
           "$1.fill($2)";
   Replace "(?:std::)?count\s*\(\s*(\w+)\.begin\s*\(\s*\)\s*,\s*\1\.end\s*\(\s*\)\s*,\s*([^)]+)\s*\)"
           "$1.filter(x => x === $2).length"].

Definition phase8 (js : string) : string := apply_rules phase8_rules js.

(** PHASE 9: math functions and constants. *)
Definition phase9_rules : list rule :=
  [Replace "(?:std::)?min\s*\(\s*([^,)]+)\s*,\s*([^)]+)\s*\)" "Math.min($1, $2)";
   Replace "(?:std::)?max\s*\(\s*([^,)]+)\s*,\s*([^)]+)\s*\)" "Math.max($1, $2)";
   Replace "\babs\s*\(" "Math.abs(";
   Replace "\bpow\s*\(" "Math.pow(";
   Replace "\bsqrt\s*\(" "Math.sqrt(";
   Replace "\bceil\s*\(" "Math.ceil(";
   Replace "\bfloor\s*\(" "Math.floor(";
   Replace "\blog\s*\(" "Math.log(";
   Replace "\blog2\s*\(" "Math.log2(";
   Replace "\blog10\s*\(" "Math.log10(";
   Replace "\bround\s*\(" "Math.round(";
   Replace "\bINT_MAX\b" "Number.MAX_SAFE_INTEGER";
   Replace "\bINT_MIN\b" "Number.MIN_SAFE_INTEGER";
   Replace "\bLLONG_MAX\b" "Number.MAX_SAFE_INTEGER";
   Replace "\bLLONG_MIN\b" "Number.MIN_SAFE_INTEGER";
   Replace "\bnullptr\b" "null";
   Replace "\bNULL\b" "null";
   Replace "\btrue\b" "true";
   Replace "\bfalse\b" "false"].

Definition phase9 (js : string) : string := apply_rules phase9_rules js.

(** PHASE 10: cleanup, and the final [js.trim()]. *)
Definition phase10_rules : list rule :=
  [Replace "std::" "";
   Replace "\blet\s+&(\w+)" "let $1";
   Replace "\bconst\s+&(\w+)" "const $1";
   Replace "\n{3,}" (nl +++ nl)].

Definition phase10 (js : string) : string := trim (apply_rules phase10_rules js).

(** The patterns of this front-end. *)
Definition patterns : list string :=
  [funcPattern; spaces_pattern; "&"; return0_pattern; "\{"; "\}"]
  ++ map pattern_of (phase1_rules ++ phase3_rules ++ phase4_rules ++ phase5_rules ++ phase6_rules
                     ++ phase7_rules ++ phase8_rules ++ phase9_rules ++ phase10_rules).

Definition transpileCppToJs (cppCode : string) : string :=
  let js := cppCode in
  let js := phase1 js in
  let js := phase2 js in
  let js := phase3 js in
  let js := phase4 js in
  let js := phase5 js in
  let js := phase6 js in
  let js := phase7 js in
  let js := phase8 js in
  let js := phase9 js in
  let js := phase10 js in
  js.

End CppTranspiler.

(* ===================================================================== *)
(** * Values of the host language *)
(* ===================================================================== *)

Module Js.
Import JsString.

(** The values a traced program passes to the tracer or throws.  An error
    object has a name and a message; a function has its source text.  An
    object of [VObj] has data properties only, and is turned into a text
    as an object is that defines no [toString], [valueOf] or [toJSON] of
    its own: objects that define them are not among the values.  Four
    more values stand for what [JSON.stringify], a template literal and
    the reading of a property throw on: a BigInt, a symbol, an object that
    holds itself (as [o] does after [o.o = o]), and an object whose
    property [message] is a getter that throws
    ([{ get message() { throw thrown } }]). *)
Inductive JsVal :=
| VUndefined
| VNull
| VBool (b : bool)
| VNum (z : Z)
| VNaN
| VStr (s : string)
| VArr (items : list JsVal)
| VObj (props : list (string * JsVal))
| VError (name message : string)
| VFun (src : string)
| VBigInt (z : Z)
| VSymbol (description : string)
| VCyclic
| VGetter (thrown : JsVal).

(** [new Error(message)] and the errors the host raises. *)
Definition Error (message : string) : JsVal := VError "Error" message.
Definition TypeError (message : string) : JsVal := VError "TypeError" message.
Definition SyntaxError (message : string) : JsVal := VError "SyntaxError" message.

(** [typeof a === 'object'] *)
Definition is_object (a : JsVal) : bool :=
  match a with
  | VNull | VArr _ | VObj _ | VError _ _ | VCyclic | VGetter _ => true
  | _ => false
  end.

(** [String(a)]. *)
Fixpoint String_ (a : JsVal) : string :=
  match a with
  | VUndefined => "undefined"
  | VNull => "null"
  | VBool true => "true"
  | VBool false => "false"
  | VNum z => of_Z z
  | VNaN => "NaN"
  | VStr s => s
  | VArr items =>
      join "," (map (fun v => match v with
                              | VUndefined | VNull => ""
                              | _ => String_ v
                              end) items)
  | VObj _ => "[object Object]"
  | VError name message =>
      if String.eqb message "" then name else name +++ ": " +++ message
  | VFun src => src
  | VBigInt z => of_Z z
  | VSymbol description => "Symbol(" +++ description +++ ")"
  | VCyclic | VGetter _ => "[object Object]"
  end.

(** A value a template literal cannot print: a symbol, or an array that
    has one among the elements it joins. *)
Fixpoint has_symbol (a : JsVal) : bool :=
  match a with
  | VSymbol _ => true
  | VArr items => existsb has_symbol items
  | _ => false
  end.

(** [`${a}`]: the text, which is that of [String(a)], or the [TypeError]
    the conversion of a symbol throws. *)
Definition template (a : JsVal) : JsVal + string :=
  if has_symbol a then inl (TypeError "Cannot convert a Symbol value to a string")
  else inr (String_ a).

Definition hex_digit (n : nat) : ascii :=
  if n <? 10 then ascii_of_nat (48 + n) else ascii_of_nat (87 + n).

(** A character inside a JSON string. *)
Definition json_char (c : ascii) : string :=
  let n := nat_of_ascii c in
  if n =? 34 then "\" +++ dq
  else if n =? 92 then "\\"
  else if n =? 8 then "\b"
  else if n =? 12 then "\f"
  else if n =? 10 then "\n"
  else if n =? 13 then "\r"
  else if n =? 9 then "\t"
  else if n <? 32 then "\u00" +++ String (hex_digit (n / 16)) (String (hex_digit (n mod 16)) "")
  else String c "".

Definition json_quote (s : string) : string :=
  dq +++ String.concat "" (map json_char (chars s)) +++ dq.

(** What [JSON.stringify(a)] throws, with the replacer of [tracer.step]
    or without one: a [TypeError] on a BigInt and on an object that holds
    itself, and what a getter throws that it calls, at the first of them
    it comes to.  (The texts of the messages are the engine's; of what V8
    says of a cycle the first line is kept.) *)
Fixpoint json_error (a : JsVal) : option JsVal :=
  match a with
  | VBigInt _ => Some (TypeError "Do not know how to serialize a BigInt")
  | VCyclic => Some (TypeError "Converting circular structure to JSON")
  | VGetter thrown => Some thrown
  | VArr items =>
      (fix elements (vs : list JsVal) : option JsVal :=
         match vs with
         | [] => None
         | v :: vs' => match json_error v with
                       | Some e => Some e
                       | None => elements vs'
                       end
         end) items
  | VObj props =>
      (fix members (ps : list (string * JsVal)) : option JsVal :=
         match ps with
         | [] => None
         | (_, v) :: ps' => match json_error v with
                            | Some e => Some e
                            | None => members ps'
                            end
         end) props
  | _ => None
  end.

(** [JSON.stringify(a)] where it does not throw ([json_error]); [None] is
    its [undefined]. *)
Fixpoint stringify (a : JsVal) : option string :=
  match a with
  | VUndefined | VFun _ | VSymbol _ => None
  | VBigInt _ | VCyclic | VGetter _ => None
  | VNull | VNaN => Some "null"
  | VBool true => Some "true"
  | VBool false => Some "false"
  | VNum z => Some (of_Z z)
  | VStr s => Some (json_quote s)
  | VArr items =>
      Some ("[" +++ join "," (map (fun v => match stringify v with
                                            | Some t => t
                                            | None => "null"
                                            end) items) +++ "]")
  | VObj props =>
      Some ("{" +++ join ","
                  ((fix members (ps : list (string * JsVal)) : list string :=
                      match ps with
                      | [] => []
                      | (k, v) :: ps' =>
                          match stringify v with
                          | Some t => (json_quote k +++ ":" +++ t) :: members ps'
                          | None => members ps'
                          end
                      end) props) +++ "}")
  | VError _ _ => Some "{}"
  end.

(** What [JSON.parse(JSON.stringify(vars, replacer))] throws: what
    [JSON.stringify] throws, and the [SyntaxError] of [JSON.parse] on the
    [undefined] that [JSON.stringify] returns for a symbol. *)
Definition roundtrip_error (vars : JsVal) : option JsVal :=
  match json_error vars with
  | Some e => Some e
  | None =>
      match vars with
      | VSymbol _ => Some (SyntaxError (dq +++ "undefined" +++ dq +++ " is not valid JSON"))
      | _ => None
      end
  end.

(** [JSON.parse(JSON.stringify(vars, replacer))] with the replacer of
    [tracer.step], where it does not throw ([roundtrip_error]):
    functions, [undefined] and [NaN] become the strings that name them,
    at every depth; a symbol is left out of an object and is [null] in an
    array; and the rest is copied. *)
Fixpoint safeVars (vars : JsVal) : JsVal :=
  match vars with
  | VFun _ => VStr "[Function]"
  | VUndefined => VStr "undefined"
  | VNaN => VStr "NaN"
  | VArr items =>
      VArr (map (fun v => match v with VSymbol _ => VNull | _ => safeVars v end) items)
  | VObj props =>
      VObj ((fix members (ps : list (string * JsVal)) : list (string * JsVal) :=
               match ps with
               | [] => []
               | (k, v) :: ps' =>
                   match v with
                   | VSymbol _ => members ps'
                   | _ => (k, safeVars v) :: members ps'
                   end
               end) props)
  | VError _ _ => VObj []
  | v => v
  end.

(** [e.message]: the value read, or what reading it throws, which is a
    [TypeError] on [null] and on [undefined]. *)
Definition message_of (e : JsVal) : JsVal + JsVal :=
  match e with
  | VUndefined =>
      inl (TypeError "Cannot read properties of undefined (reading 'message')")
  | VNull => inl (TypeError "Cannot read properties of null (reading 'message')")
  | VGetter thrown => inl thrown
  | VError _ message => inr (VStr message)
  | VObj props =>
      inr ((fix get (ps : list (string * JsVal)) : JsVal :=
              match ps with
              | [] => VUndefined
              | (k, v) :: ps' => if String.eqb k "message" then v else get ps'
              end) props)
  | _ => inr VUndefined
  end.

End Js.

(* ===================================================================== *)
(** * The instrumenter (backend/tracer/instrumenter.ts) *)
(* ===================================================================== *)

(** The syntax tree is the one acorn returns: a node is an object with a
    [type], the offsets [start] and [end] of its text, and further
    properties in the order acorn creates them; a property holds a node, an
    array, a string (the [name] of an identifier) or something the walk
    does not look at. *)

Module Instrumenter.
Import JsString Regex.

Inductive Node :=
| mkNode (type : string) (start end_ : nat) (props : list (string * Value))
with Value :=
| ANode (n : Node)
| AList (items : list Value)
| AString (s : string)
| ANull
| AOther.

Definition type (n : Node) : string := let '(mkNode t _ _ _) := n in t.
Definition start (n : Node) : nat := let '(mkNode _ s _ _) := n in s.
Definition end_ (n : Node) : nat := let '(mkNode _ _ e _) := n in e.
Definition props (n : Node) : list (string * Value) := let '(mkNode _ _ _ ps) := n in ps.

(** [node[key]] *)
Fixpoint lookup (key : string) (ps : list (string * Value)) : option Value :=
  match ps with
  | [] => None
  | (k, v) :: ps' => if String.eqb k key then Some v else lookup key ps'
  end.

Definition prop (key : string) (n : Node) : option Value := lookup key (props n).

(** [node[key]] when it is a node. *)
Definition child (key : string) (n : Node) : option Node :=
  match prop key n with
  | Some (ANode c) => Some c
  | _ => None
  end.

(** [node[key]?.name] *)
Definition name_of (key : string) (n : Node) : option string :=
  match child key n with
  | Some c => match prop "name" c with Some (AString s) => Some s | _ => None end
  | None => None
  end.

(** [acorn.getLineInfo(code, offset).line]: one more than the number of
    line breaks before the offset, a carriage return and the line feed
    after it being one break. *)
Fixpoint count_breaks (l : list ascii) : nat :=
  match l with
  | [] => 0
  | c :: l' =>
      if Ascii.eqb c (ascii_of_nat 13) then
        match l' with
        | d :: l'' => if Ascii.eqb d LF then S (count_breaks l'') else S (count_breaks l')
        | [] => 1
        end
      else if Ascii.eqb c LF then S (count_breaks l')
      else count_breaks l'
  end.

Definition getLineInfo_line (code : string) (offset : nat) : nat :=
  S (count_breaks (firstn offset (chars code))).

Record Patch := mkPatch { index : nat; text : string }.

(** The state of one instrumentation: [patches] in the order they were
    registered and [scopeStack] with its innermost frame last; a frame is
    a set that keeps the order of insertion. *)
Record Walk := mkWalk { patches : list Patch; scopeStack : list (list string) }.

Definition addPatch (index : nat) (text : string) (w : Walk) : Walk :=
  mkWalk (patches w ++ [mkPatch index text]) (scopeStack w).

(** [set.add(v)] *)
Definition set_add (v : string) (set : list string) : list string :=
  if existsb (String.eqb v) set then set else set ++ [v].

(** [scopeStack[scopeStack.length - 1 - k].add(v)]; the walk only writes
    where the frame exists. *)
Fixpoint add_from_top (k : nat) (v : string) (rev_stack : list (list string)) : list (list string) :=
  match rev_stack, k with
  | [], _ => []
  | frame :: below, O => set_add v frame :: below
  | frame :: below, S k' => frame :: add_from_top k' v below
  end.

Definition add_to_frame (k : nat) (v : string) (w : Walk) : Walk :=
  mkWalk (patches w) (rev (add_from_top k v (rev (scopeStack w)))).

Definition push_scope (w : Walk) : Walk := mkWalk (patches w) (scopeStack w ++ [[]]).
Definition pop_scope (w : Walk) : Walk := mkWalk (patches w) (removelast (scopeStack w)).

Definition getCurrentScopeVars (w : Walk) : list string :=
  fold_left (fun vars frame => fold_left (fun vars v => set_add v vars) frame vars)
            (scopeStack w) [].

Definition generateTraceCall (w : Walk) (line : nat) : string :=
  let vars := getCurrentScopeVars w in
  let varObj :=
    "{ " +++ join ", " (map (fun v => v +++ ": (typeof " +++ v +++ " !== 'undefined' ? "
                                        +++ v +++ " : undefined)") vars) +++ " }" in
  "__tracer.step(" +++ of_nat line +++ ", " +++ varObj +++ ");".

Definition one_of (l : list string) (t : string) : bool := existsb (String.eqb t) l.

(** How a node hangs under its parent: the parent's type, and the key when
    the node is the value of a property of the parent itself (not an
    element of an array).  Nodes of a tree are not shared, so
    [parent.key === node] holds exactly for that key. *)
Record Parent := mkParent { ptype : string; pkey : option string }.

Definition is_key (key : string) (p : Parent) : bool :=
  match pkey p with
  | Some k => String.eqb k key
  | None => false
  end.

(** The initialiser of a loop header is not visited. *)
Definition skipped_initializer (parent : option Parent) : bool :=
  match parent with
  | Some p =>
      (String.eqb (ptype p) "ForStatement" && is_key "init" p)
      || (String.eqb (ptype p) "ForInStatement" && is_key "left" p)
      || (String.eqb (ptype p) "ForOfStatement" && is_key "left" p)
  | None => false
  end.

(** "Variable Collection": the declared names, the name of a function (in
    the enclosing frame) and its parameters. *)
Definition declared_names (node : Node) : list string :=
  match prop "declarations" node with
  | Some (AList decls) =>
      flat_map (fun d => match d with
                         | ANode decl =>
                             match child "id" decl with
                             | Some id =>
                                 if String.eqb (type id) "Identifier"
                                 then match prop "name" id with Some (AString s) => [s] | _ => [] end
                                 else []
                             | None => []
                             end
                         | _ => []
                         end) decls
  | _ => []
  end.

Definition param_names (node : Node) : list string :=
  match prop "params" node with
  | Some (AList ps) =>
      flat_map (fun p => match p with
                         | ANode param =>
                             if String.eqb (type param) "Identifier"
                             then match prop "name" param with Some (AString s) => [s] | _ => [] end
                             else []
                         | _ => []
                         end) ps
  | _ => []
  end.

Definition collect_variables (isFunction : bool) (node : Node) (w : Walk) : Walk :=
  let w :=
    if String.eqb (type node) "VariableDeclaration"
    then fold_left (fun w v => add_to_frame 0 v w) (declared_names node) w
    else w in
  let w :=
    if isFunction then
      match child "id" node with
      | Some id =>
          if String.eqb (type id) "Identifier" && (1 <? List.length (scopeStack w))
          then match prop "name" id with
               | Some (AString s) => add_to_frame 1 s w
               | _ => w
               end
          else w
      | None => w
      end
    else w in
  if isFunction then fold_left (fun w v => add_to_frame 0 v w) (param_names node) w else w.

(** The rules of one node, before its children are visited; [None] is the
    [TypeError] of reading [body.type] where a loop or a function has no
    body node, which a tree from the parser always has. *)
Definition visit (code : string) (node : Node) (parent : option Parent) (w : Walk) : option Walk :=
  (* Scope Management *)
  let isBlock := one_of ["BlockStatement"; "Program"] (type node) in
  let isFunction :=
    one_of ["FunctionDeclaration"; "ArrowFunctionExpression"; "FunctionExpression"] (type node) in
  let w := if isBlock || isFunction then push_scope w else w in
  (* Variable Collection *)
  let w := collect_variables isFunction node w in
  (* Loop Protection *)
  let loop :=
    if one_of ["ForStatement"; "WhileStatement"; "DoWhileStatement"] (type node) then
      match child "body" node with
      | Some body =>
          if String.eqb (type body) "BlockStatement"
          then Some (w |> addPatch (start body + 1) " if (__tracer.checkLoop()) break; ")
          else Some (w |> addPatch (start body) "{ if (__tracer.checkLoop()) break; "
                       |> addPatch (end_ body) " }")
      | None => None
      end
    else Some w in
  match loop with
  | None => None
  | Some w =>
      (* Line Tracking & Call Stack Instrumentation *)
      let line := getLineInfo_line code (start node) in
      (* Function Entry/Exit with Try-Finally *)
      let func :=
        if isFunction then
          match child "body" node with
          | Some body =>
              let funcName := match name_of "id" node with
                              | Some n => if String.eqb n "" then "(anonymous)" else n
                              | None => "(anonymous)"
                              end in
              if String.eqb (type body) "BlockStatement"
              then Some (w |> addPatch (start body + 1)
                                       (" __tracer.enter(" +++ dq +++ funcName +++ dq +++ "); try { ")
                           |> addPatch (end_ body - 1) " } finally { __tracer.exit(); } ")
              else Some w
          | None => None
          end
        else Some w in
      match func with
      | None => None
      | Some w =>
          (* Statement Instrumentation *)
          let w :=
            if one_of ["VariableDeclaration"; "ExpressionStatement"] (type node) then
              let w := w |> addPatch (start node) ("__tracer.setLine(" +++ of_nat line +++ "); ") in
              let trace := generateTraceCall w line in
              let needsBlock :=
                match parent with
                | Some p =>
                    one_of ["IfStatement"; "ForStatement"; "WhileStatement"; "DoWhileStatement";
                            "ForInStatement"; "ForOfStatement"] (ptype p)
                    && negb (is_key "body" p)
                    && (is_key "consequent" p || is_key "alternate" p || is_key "body" p)
                | None => false
                end in
              if needsBlock
              then w |> addPatch (start node) "{ "
                     |> addPatch (end_ node) ("; " +++ trace +++ " }")
              else w |> addPatch (end_ node) ("; " +++ trace)
            else w in
          (* Return Trace *)
          let w :=
            if String.eqb (type node) "ReturnStatement" then
              let w := w |> addPatch (start node) ("__tracer.setLine(" +++ of_nat line +++ "); ") in
              let trace := generateTraceCall w line in
              let traceExpr := replace_first (re ";$") "" trace in
              match child "argument" node with
              | Some argument =>
                  w |> addPatch (start argument) ("(" +++ traceExpr +++ ", ")
                    |> addPatch (end_ argument) ")"
              | None =>
                  w |> addPatch (start node) (generateTraceCall w line)
                    |> addPatch (start node) "{ "
                    |> addPatch (end_ node) " }"
              end
            else w in
          Some w
      end
  end.

(** "Exit Scope" *)
Definition leave (node : Node) (w : Walk) : Walk :=
  let isBlock := one_of ["BlockStatement"; "Program"] (type node) in
  let isFunction :=
    one_of ["FunctionDeclaration"; "ArrowFunctionExpression"; "FunctionExpression"] (type node) in
  if isBlock || isFunction then pop_scope w else w.

(** [walk(node, parent)]: the rules of the node, then its children in the
    order of [Object.keys(node)], then the scope is left. *)
Fixpoint walk (code : string) (node : Node) (parent : option Parent) (w : Walk) {struct node}
  : option Walk :=
  if skipped_initializer parent then Some w
  else
    match visit code node parent w with
    | None => None
    | Some w =>
        match node with
        | mkNode ty _ _ ps =>
            let children :=
              (fix keys (ps : list (string * Value)) (w : Walk) {struct ps} : option Walk :=
                 match ps with
                 | [] => Some w
                 | (key, val) :: ps' =>
                     let after_val :=
                       match val with
                       | ANode c => walk code c (Some (mkParent ty (Some key))) w
                       | AList items =>
                           (fix each (vs : list Value) (w : Walk) {struct vs} : option Walk :=
                              match vs with
                              | [] => Some w
                              | ANode c :: vs' =>
                                  match walk code c (Some (mkParent ty None)) w with
                                  | Some w' => each vs' w'
                                  | None => None
                                  end
                              | _ :: vs' => each vs' w
                              end) items w
                       | _ => Some w
                       end in
                     match after_val with
                     | Some w' => keys ps' w'
                     | None => None
                     end
                 end) in
            match children ps w with
            | Some w' => Some (leave node w')
            | None => None
            end
        end
    end.

(** [patches.sort((a, b) => b.index - a.index)]: descending offsets; the
    sort of the host is stable, so patches of one offset keep the order in
    which they were registered. *)
Fixpoint insert_patch (p : Patch) (sorted : list Patch) : list Patch :=
  match sorted with
  | [] => [p]
  | q :: rest => if index p <? index q then q :: insert_patch p rest else p :: q :: rest
  end.

Definition sort_patches (ps : list Patch) : list Patch := fold_right insert_patch [] ps.

(** [out = out.slice(0, p.index) + p.text + out.slice(p.index)] *)
Definition splice (out : string) (p : Patch) : string :=
  slice_to (index p) out +++ text p +++ slice_from (index p) out.

Definition apply_patches (code : string) (ps : list Patch) : string :=
  fold_left splice ps code.

(** [instrumentCode(code)], given the parser: an error the parser throws
    is thrown on. *)
Definition instrumentCode (parse : string -> Js.JsVal + Node) (code : string) : Js.JsVal + string :=
  match parse code with
  | inl e => inl e
  | inr ast =>
      match walk code ast None (mkWalk [] [[]]) with
      | None => inl (Js.TypeError "Cannot read properties of undefined (reading 'type')")
      | Some w => inr (apply_patches code (sort_patches (patches w)))
      end
  end.

End Instrumenter.

(* ===================================================================== *)
(** * The trace runtime and the driver (backend/sandbox/executor.ts) *)
(* ===================================================================== *)

Module Executor.
Import JsString Js.

(** ConsoleLog, ExecutionStep and Timeline of types.ts.  The optional
    properties [isError] and [errorMessage] read as [false] and
    [undefined] where a step does not have them. *)
Inductive LogType := log_ | error_ | warn_.

Record ConsoleLog := mkLog { type : LogType; message : string }.

Record ExecutionStep := mkStep {
  line : nat;
  variables : JsVal;
  callStack : list string;
  consoleOutput : list ConsoleLog;
  isError : bool;
  errorMessage : JsVal
}.

Definition Timeline := list ExecutionStep.

Definition MAX_STEPS : nat := 2000.

Definition _inputValues : list Z := [5; 10; 3; 7; 1; 42; 100; 0; -1; 99]%Z.

(** What one call of [executeCode] owns: the variables of its closure
    ([timeline], [currentLogs], [lastLine], [stepCount]) and the fields of
    its [tracer] object.  [stack] has its bottom frame first. *)
Record State := mkState {
  timeline : Timeline;
  currentLogs : list ConsoleLog;
  lastLine : nat;
  stepCount : nat;
  stack : list string;
  currentLine : nat;
  _inputIndex : nat
}.

Definition initial : State := mkState [] [] 0 0 ["main"] 1 0.

(** ** The operations of the tracer *)

Definition enter (name : string) (s : State) : State :=
  mkState (timeline s) (currentLogs s) (lastLine s) (stepCount s)
          (stack s ++ [name]) (currentLine s) (_inputIndex s).

Definition exit (s : State) : State :=
  if 1 <? List.length (stack s)
  then mkState (timeline s) (currentLogs s) (lastLine s) (stepCount s)
               (removelast (stack s)) (currentLine s) (_inputIndex s)
  else s.

Definition setLine (line : nat) (s : State) : State :=
  mkState (timeline s) (currentLogs s) line (stepCount s) (stack s) line (_inputIndex s).

(** [step] increments [stepCount] whatever happens, and throws when the
    value it had before was above [MAX_STEPS].  Otherwise it assigns the
    line, and then copies the variables, which throws where
    [JSON.stringify] or [JSON.parse] does; only then does it push the
    step.  The result is the error thrown, if one is. *)
Definition step (line : nat) (vars : JsVal) (s : State) : option JsVal * State :=
  if MAX_STEPS <? stepCount s then
    (Some (Error "Execution limit exceeded (infinite loop detection)."),
     mkState (timeline s) (currentLogs s) (lastLine s) (S (stepCount s))
             (stack s) (currentLine s) (_inputIndex s))
  else
    match roundtrip_error vars with
    | Some e =>
        (Some e,
         mkState (timeline s) (currentLogs s) line (S (stepCount s))
                 (stack s) line (_inputIndex s))
    | None =>
        (None,
         mkState (timeline s
                  ++ [mkStep line (safeVars vars) (stack s) (currentLogs s) false VUndefined])
                 (currentLogs s) line (S (stepCount s)) (stack s) line (_inputIndex s))
    end.

Definition checkLoop (s : State) : bool := MAX_STEPS <? stepCount s.

(** What [args.map(a => typeof a === 'object' ? JSON.stringify(a) :
    String(a))] throws: what [JSON.stringify] throws on the first object
    among the arguments on which it throws. *)
Fixpoint log_error (args : list JsVal) : option JsVal :=
  match args with
  | [] => None
  | a :: args' =>
      match (if is_object a then json_error a else None) with
      | Some e => Some e
      | None => log_error args'
      end
  end.

(** The message, where the mapping does not throw; [join] prints an
    [undefined] among the texts as the empty text. *)
Definition log_message (args : list JsVal) : string :=
  join " " (map (fun a => if is_object a
                          then match stringify a with Some t => t | None => "" end
                          else String_ a) args).

(** [log] builds the message first, and pushes the entry when that did
    not throw; the result is the error thrown, if one is. *)
Definition log (args : list JsVal) (s : State) : option JsVal * State :=
  match log_error args with
  | Some e => (Some e, s)
  | None =>
      (None,
       mkState (timeline s) (currentLogs s ++ [mkLog log_ (log_message args)]) (lastLine s)
               (stepCount s) (stack s) (currentLine s) (_inputIndex s))
  end.

(** The arrow of the message of [input], in UTF-8. *)
Definition arrow : string :=
  String (ascii_of_nat 226) (String (ascii_of_nat 134) (String (ascii_of_nat 146) "")).

Definition input (s : State) : JsVal * State :=
  let val := nth (_inputIndex s mod List.length _inputValues) _inputValues 0%Z in
  (VNum val,
   mkState (timeline s)
           (currentLogs s ++ [mkLog log_ ("[input] " +++ arrow +++ " " +++ of_Z val +++ " ")])
           (lastLine s) (stepCount s) (stack s) (currentLine s) (S (_inputIndex s))).

(** The evaluated text holds the tracer object ([const __tracer =
    arguments[0]]) and can write its [stack] itself, as
    [__tracer.stack.pop()] does. *)
Definition writeStack (frames : list string) (s : State) : State :=
  mkState (timeline s) (currentLogs s) (lastLine s) (stepCount s)
          frames (currentLine s) (_inputIndex s).

(** ** The evaluated program

    [new Function(wrappedCode).call(null, tracer)] runs text that is not
    part of the repository on an engine that is not either.  What the
    driver sees of it is this: the program calls methods of the tracer,
    gets their results, writes the stack of the tracer, and at the end
    completes or throws.  A program is therefore an interaction tree over
    the calls of the tracer and the writes of its stack; a call of [step]
    or of [log] answers with the error it throws, if any, and the program
    goes on from there as its [try] statements say.  Every tree is a
    program: the properties below that speak of all programs speak of all
    trees.  What a text reads of the tracer needs no event: the run of a
    text that reads is the run of the tree of the calls it makes.  Of the
    other fields a text could write, [currentLine] is read by nothing; the
    two fields of [input] are not modelled as written, and what is said
    of [input] is said of texts that do not write them.  The variables of
    the closure ([timeline], [currentLogs], [lastLine], [stepCount]) are
    out of the reach of the text. *)

Variant tracerE : Type -> Type :=
| Enter (name : string) : tracerE unit
| Exit : tracerE unit
| SetLine (line : nat) : tracerE unit
| Step (line : nat) (vars : JsVal) : tracerE (option JsVal)
| CheckLoop : tracerE bool
| Log (args : list JsVal) : tracerE (option JsVal)
| Input : tracerE JsVal
| WriteStack (frames : list string) : tracerE unit.

Inductive Completion :=
| Normal
| Throw (e : JsVal).

Definition Program : Type := itree tracerE Completion.

(** The [console] of [wrappedCode]: [log], [error] and [warn] are all
    [__tracer.log]; it has no other property. *)
Definition console : list (string * (list JsVal -> tracerE (option JsVal))) :=
  [("log", Log); ("error", Log); ("warn", Log)].

Fixpoint console_method (method : string)
         (table : list (string * (list JsVal -> tracerE (option JsVal))))
  : option (list JsVal -> tracerE (option JsVal)) :=
  match table with
  | [] => None
  | (k, f) :: table' => if String.eqb k method then Some f else console_method method table'
  end.

(** A record of one call, for stating what a run did. *)
Inductive Call :=
| CallEnter (name : string)
| CallExit
| CallSetLine (line : nat)
| CallStep (line : nat) (vars : JsVal) (thrown : option JsVal)
| CallCheckLoop (result : bool)
| CallLog (args : list JsVal) (thrown : option JsVal)
| CallInput (result : JsVal)
| CallWriteStack (frames : list string).

(** The tracer answers a call. *)
Definition call {R : Type} (e : tracerE R) (s : State) : R * State * Call :=
  match e in tracerE R return R * State * Call with
  | Enter name => (tt, enter name s, CallEnter name)
  | Exit => (tt, exit s, CallExit)
  | SetLine line => (tt, setLine line s, CallSetLine line)
  | Step line vars => let '(thrown, s') := step line vars s in (thrown, s', CallStep line vars thrown)
  | CheckLoop => (checkLoop s, s, CallCheckLoop (checkLoop s))
  | Log args => let '(thrown, s') := log args s in (thrown, s', CallLog args thrown)
  | Input => let '(val, s') := input s in (val, s', CallInput val)
  | WriteStack frames => (tt, writeStack frames s, CallWriteStack frames)
  end.

(** What a run did: its calls in order, each with the state after it. *)
Definition History : Type := list (Call * State).

(** The evaluation of a program, one node of its tree per unit of fuel:
    how it completes, the state it leaves and what it did.  [None] means
    the evaluation has not ended within the fuel. *)
Fixpoint run (fuel : nat) (p : Program) (s : State) : option (Completion * State * History) :=
  match fuel with
  | O => None
  | S fuel' =>
      match observe p with
      | RetF c => Some (c, s, [])
      | TauF p' => run fuel' p' s
      | VisF e k =>
          let '(r, s', c) := call e s in
          match run fuel' (k r) s' with
          | Some (done, s'', history) => Some (done, s'', (c, s') :: history)
          | None => None
          end
      end
  end.

(** ** Reading program text as a tree

    The statements of the instrumented texts below are put together with
    these: a call of a method of the tracer, a sequence (the second
    statement runs when the first completes normally), [throw],
    [try ... finally], a call through the [console] object, and a loop
    (one turn of its body says whether to go on, and with what). *)

Definition perform (e : tracerE unit) : Program :=
  ITree.bind (ITree.trigger e) (fun _ => Ret Normal).

Definition perform_step (line : nat) (vars : JsVal) : Program :=
  ITree.bind (ITree.trigger (Step line vars))
             (fun thrown => Ret match thrown with Some e => Throw e | None => Normal end).

Definition seq (a b : Program) : Program :=
  ITree.bind a (fun c => match c with Normal => b | Throw e => Ret (Throw e) end).

Definition throw (e : JsVal) : Program := Ret (Throw e).

Definition try_finally (body finalizer : Program) : Program :=
  ITree.bind body (fun c =>
    ITree.bind finalizer (fun f => Ret match f with Normal => c | Throw e => Throw e end)).

(** A function body as the instrumenter wraps it:
    [__tracer.enter(name); try { body } finally { __tracer.exit(); }]. *)
Definition instrumented_function (name : string) (body : Program) : Program :=
  seq (perform (Enter name)) (try_finally body (perform Exit)).

(** A call of a method of the console, which throws what the method
    throws. *)
Definition perform_log (e : tracerE (option JsVal)) : Program :=
  ITree.bind (ITree.trigger e)
             (fun thrown => Ret match thrown with Some e => Throw e | None => Normal end).

(** [console.method(args)] *)
Definition console_call (method : string) (args : list JsVal) : Program :=
  match console_method method console with
  | Some f => perform_log (f args)
  | None => throw (TypeError ("console." +++ method +++ " is not a function"))
  end.

(** [console.object.method(args)] for an [object] that [console] does not
    have: [console.object] is [undefined], and reading its [method]
    throws.  For one it has, [method] is a member of a function ([call],
    [apply], [bind] and the rest), which is not modelled: [None]. *)
Definition console_member_call (object method : string) (args : list JsVal) : option Program :=
  match console_method object console with
  | Some _ => None
  | None =>
      Some (throw (TypeError ("Cannot read properties of undefined (reading '"
                              +++ method +++ "')")))
  end.

(** One turn of a loop body ends the loop when it throws. *)
Definition turn {S : Type} (body : Program) (next : S) : itree tracerE (S + Completion) :=
  ITree.bind body (fun c => Ret match c with Normal => inl next | Throw e => inr (Throw e) end).

(** [if (__tracer.checkLoop()) break;] at the top of a loop body. *)
Definition guarded {S : Type} (rest : itree tracerE (S + Completion)) : itree tracerE (S + Completion) :=
  ITree.bind (ITree.trigger CheckLoop) (fun b => if b : bool then Ret (inr Normal) else rest).

Definition loop {S : Type} (body : S -> itree tracerE (S + Completion)) (s : S) : Program :=
  ITree.iter body s.

(** ** The driver *)

Definition wrappedCode (instrumented : string) : string :=
  nl +++ "const __tracer = arguments[0];" +++ nl
  +++ "const console = {" +++ nl
  +++ "  log: __tracer.log," +++ nl
  +++ "  error: __tracer.log," +++ nl
  +++ "  warn: __tracer.log" +++ nl
  +++ "};" +++ nl
  +++ nl
  +++ "try {" +++ nl
  +++ "          " +++ instrumented +++ nl
  +++ "} catch (e) {" +++ nl
  +++ "  throw e;" +++ nl
  +++ "}" +++ nl.

(** The promise [executeCode] returns is settled once. *)
Inductive Outcome :=
| Resolved (t : Timeline)
| Rejected (e : JsVal).

(** [timeline[timeline.length - 1]], where [timeline.length > 0]. *)
Definition last_step (t : Timeline) : option ExecutionStep :=
  nth_error t (List.length t - 1).

(** The step the [catch] block appends, where the template literal of
    its console entry prints the message. *)
Definition errorStep (s : State) (message : JsVal) : ExecutionStep :=
  mkStep (lastLine s)
         (match last_step (timeline s) with
          | Some st => variables st
          | None => VObj []
          end)
         (match last_step (timeline s) with
          | Some st => callStack st
          | None => ["main"]
          end)
         (currentLogs s ++ [mkLog error_ ("Runtime Error: " +++ String_ message +++ " ")])
         true
         message.

(** The [catch] block reads [e.message] and prints it in a template
    literal.  What either throws is thrown inside the executor of the
    promise, which rejects the promise with it. *)
Definition catch (s : State) (e : JsVal) : Outcome :=
  match message_of e with
  | inl thrown => Rejected thrown
  | inr message =>
      match template message with
      | inl thrown => Rejected thrown
      | inr _ => Resolved (timeline s ++ [errorStep s message])
      end
  end.

Section Driver.

(** [acorn.parse]: the tree of a text, or the [SyntaxError] it throws. *)
Variable parse : string -> JsVal + Instrumenter.Node.

(** [new Function(text)]: the program of a text, or the [SyntaxError] it
    throws. *)
Variable new_Function : string -> JsVal + Program.

(** "Transpile if C++ or Python".  The two front-ends contain no [throw],
    so the [catch] around each call that would prefix the message with
    "Transpilation Failed" has nothing to catch. *)
Definition codeToInstrument (userCode language : string) : string :=
  if String.eqb language "c++" || String.eqb language "cpp" then
    CppTranspiler.transpileCppToJs userCode
  else if String.eqb language "python" || String.eqb language "py" then
    PythonTranspiler.transpilePythonToJs userCode
  else userCode.

(** The [try] block: how it ends, with the state at that moment and what
    the program did. *)
Definition attempt (fuel : nat) (userCode language : string)
  : option (Completion * State * History) :=
  match Instrumenter.instrumentCode parse (codeToInstrument userCode language) with
  | inl e => Some (Throw e, initial, [])
  | inr instrumented =>
      match new_Function (wrappedCode instrumented) with
      | inl e => Some (Throw e, initial, [])
      | inr program => run fuel program initial
      end
  end.

Definition executeCode (fuel : nat) (userCode language : string) : option Outcome :=
  match attempt fuel userCode language with
  | None => None
  | Some (Normal, s, _) => Some (Resolved (timeline s))
  | Some (Throw e, s, _) => Some (catch s e)
  end.

End Driver.

End Executor.

(* ===================================================================== *)
(** * The panels and the player (frontend/components, frontend/App.tsx) *)
(* ===================================================================== *)

(** A component is modelled by the data it shows (the rows, their labels
    and their styles), not by its markup; the player by the state of
    [App] that its handlers read and write. *)

Module CallStackPanel.

(** [const displayStack = [...stack].reverse()] *)
Definition displayStack (stack : list string) : list string := rev stack.

(** [displayStack.map((frame, index) => ...)]: the number of the label
    [Frame {stack.length - 1 - index}] and the name of each row. *)
Fixpoint rows_from (stack : list string) (index : nat) (display : list string)
  : list (nat * string) :=
  match display with
  | [] => []
  | frame :: more => (List.length stack - 1 - index, frame) :: rows_from stack (S index) more
  end.

(** The rows of the panel; [None] is the notice "Stack empty". *)
Definition CallStackPanel (stack : list string) : option (list (nat * string)) :=
  if List.length (displayStack stack) =? 0 then None
  else Some (rows_from stack 0 (displayStack stack)).

End CallStackPanel.

Module ConsolePanel.
Import JsString Executor.

Inductive Style := red | yellow | neutral.

(** A row: its style, the underlined location if it has one, and its
    text. *)
Record Row := mkRow { style : Style; location : option string; text : string }.

Definition row (log : ConsoleLog) : Row :=
  let isError := match type log with error_ => true | _ => false end in
  let isWarn := match type log with warn_ => true | _ => false end in
  let style := if isError then red else if isWarn then yellow else neutral in
  if isError && startsWith (message log) "Line " then
    mkRow style (Some (hd "" (split ":" (message log))))
          (": " +++ join ":" (tl (split ":" (message log))))
  else mkRow style None (message log).

(** The rows of the panel; [None] is the notice "No output yet...". *)
Definition ConsolePanel (logs : list ConsoleLog) : option (list Row) :=
  if List.length logs =? 0 then None else Some (map row logs).

End ConsolePanel.

Module App.
Import Js Executor.

(** The state of [App] that the player reads and writes. *)
Record State := mkState {
  timeline : Timeline;
  currentStepIndex : Z;
  isPlaying : bool;
  executionError : option JsVal
}.

(** The initial values of [useState]. *)
Definition initial : State := mkState [] (-1) false None.

(** [timeline.length - 1] *)
Definition last_index (a : State) : Z := Z.of_nat (List.length (timeline a)) - 1.

(** Whether [value || other] is [value]. *)
Definition truthy (v : JsVal) : bool :=
  match v with
  | VUndefined | VNull | VNaN | VBool false => false
  | VNum z | VBigInt z => negb (z =? 0)%Z
  | VStr s => negb (String.eqb s "")
  | _ => true
  end.

(** [handleRun], given how the promise of [executeCode] was settled: a
    rejection ends it at the [await], after [setExecutionError(null)]. *)
Definition handleRun (result : Outcome) (a : State) : State :=
  match result with
  | Rejected _ => mkState (timeline a) (currentStepIndex a) (isPlaying a) None
  | Resolved result =>
      let executionError :=
        match last_step result with
        | Some final =>
            if (0 <? List.length result) && isError final
            then Some (if truthy (errorMessage final) then errorMessage final else VStr "Error")
            else None
        | None => None
        end in
      mkState result 0 (isPlaying a) executionError
  end.

(** The callback of the interval, which exists while [isPlaying]. *)
Definition tick (a : State) : State :=
  if isPlaying a then
    if (currentStepIndex a <? last_index a)%Z
    then mkState (timeline a) (currentStepIndex a + 1) (isPlaying a) (executionError a)
    else mkState (timeline a) (currentStepIndex a) false (executionError a)
  else a.

(** [onNext], [onPrev] and [onPlayPause] of the controls. *)
Definition onNext (a : State) : State :=
  mkState (timeline a) (Z.min (last_index a) (currentStepIndex a + 1))
          (isPlaying a) (executionError a).

Definition onPrev (a : State) : State :=
  mkState (timeline a) (Z.max 0 (currentStepIndex a - 1)) (isPlaying a) (executionError a).

Definition onPlayPause (a : State) : State :=
  mkState (timeline a) (currentStepIndex a) (negb (isPlaying a)) (executionError a).

Definition canNext (a : State) : bool := (currentStepIndex a <? last_index a)%Z.
Definition canPrev (a : State) : bool := (0 <? currentStepIndex a)%Z.

(** [timeline[i]]; [None] is [undefined]. *)
Definition at_index (t : Timeline) (i : Z) : option ExecutionStep :=
  if (i <? 0)%Z then None else nth_error t (Z.to_nat i).

(** [timeline[currentStepIndex] || { line: 0, variables: {}, callStack: [],
    consoleOutput: [] }] *)
Definition currentStep (a : State) : ExecutionStep :=
  match at_index (timeline a) (currentStepIndex a) with
  | Some st => st
  | None => mkStep 0 (VObj []) [] [] false VUndefined
  end.

(** What the user and the timer do to the player. *)
Inductive Event := Next | Prev | Tick | PlayPause.

Definition handle (a : State) (e : Event) : State :=
  match e with
  | Next => onNext a
  | Prev => onPrev a
  | Tick => tick a
  | PlayPause => onPlayPause a
  end.

End App.


(* ===================================================================== *)
(** * The scenarios *)
(* ===================================================================== *)

(** The texts on which the properties below are exercised, each with the
    tree acorn returns for it and, for an instrumented text, the program
    it is.  Of the properties of a node, those with a primitive value other
    than [name] are left out: the walk reads none of them. *)

Module Scenarios.
Import JsString Js Instrumenter Executor.

Definition node := mkNode.
Definition Identifier (s e : nat) (name : string) : Value :=
  ANode (node "Identifier" s e [("name", AString name)]).
Definition Literal (s e : nat) : Value := ANode (node "Literal" s e []).
Definition Program_ (e : nat) (body : list Value) : Node :=
  node "Program" 0 e [("body", AList body)].

(** Scenario E of the specification. *)
Definition while_true : string := "while(true){}".

Definition while_true_ast : Node :=
  Program_ 13
    [ANode (node "WhileStatement" 0 13
       [("test", Literal 6 10);
        ("body", ANode (node "BlockStatement" 11 13 [("body", AList [])]))])].

Definition while_true_instrumented : string :=
  "while(true){ if (__tracer.checkLoop()) break; }".

Definition while_true_program : Program :=
  loop (fun _ : unit => guarded (Ret (inl tt))) tt.

(** A loop without exit whose body has a traced statement. *)
Definition busy_loop : string := "let x = 0; while(true){ x = 1; }".

Definition busy_loop_ast : Node :=
  Program_ 32
    [ANode (node "VariableDeclaration" 0 10
       [("declarations", AList
          [ANode (node "VariableDeclarator" 4 9
             [("id", Identifier 4 5 "x"); ("init", Literal 8 9)])])]);
     ANode (node "WhileStatement" 11 32
       [("test", Literal 17 21);
        ("body", ANode (node "BlockStatement" 22 32
           [("body", AList
              [ANode (node "ExpressionStatement" 24 30
                 [("expression", ANode (node "AssignmentExpression" 24 29
                    [("left", Identifier 24 25 "x"); ("right", Literal 28 29)]))])])]))])].

Definition busy_loop_instrumented : string :=
  "__tracer.setLine(1); let x = 0;; __tracer.step(1, { x: (typeof x !== 'undefined' ? x : undefined) }); "
  +++ "while(true){ if (__tracer.checkLoop()) break;  __tracer.setLine(1); x = 1;; "
  +++ "__tracer.step(1, { x: (typeof x !== 'undefined' ? x : undefined) }); }".

Definition busy_loop_program : Program :=
  seq (perform (SetLine 1))
 (seq (perform_step 1 (VObj [("x", VNum 0)]))
      (loop (fun _ : unit =>
               guarded (turn (seq (perform (SetLine 1))
                                  (perform_step 1 (VObj [("x", VNum 1)]))) tt)) tt)).

(** The empty source. *)
Definition empty_ast : Node := Program_ 0 [].
Definition empty_program : Program := Ret Normal.

(** A statement that calls a function declared on another line, followed
    by a [throw] statement. *)
Definition call_then_throw : string :=
  "function f(){ let a = 1; }" +++ nl +++ "f();" +++ nl +++ "throw new Error('boom');".

Definition call_then_throw_ast : Node :=
  Program_ 56
    [ANode (node "FunctionDeclaration" 0 26
       [("id", Identifier 9 10 "f");
        ("params", AList []);
        ("body", ANode (node "BlockStatement" 12 26
           [("body", AList
              [ANode (node "VariableDeclaration" 14 24
                 [("declarations", AList
                    [ANode (node "VariableDeclarator" 18 23
                       [("id", Identifier 18 19 "a"); ("init", Literal 22 23)])])])])]))]);
     ANode (node "ExpressionStatement" 27 31
       [("expression", ANode (node "CallExpression" 27 30
          [("callee", Identifier 27 28 "f"); ("arguments", AList [])]))]);
     ANode (node "ThrowStatement" 32 56
       [("argument", ANode (node "NewExpression" 38 55
          [("callee", Identifier 42 47 "Error"); ("arguments", AList [Literal 48 54])]))])].

Definition call_then_throw_f : string :=
  "function f(){ __tracer.enter(" +++ dq +++ "f" +++ dq +++ "); try {  __tracer.setLine(1); let a = 1;; "
  +++ "__tracer.step(1, { f: (typeof f !== 'undefined' ? f : undefined), "
  +++ "a: (typeof a !== 'undefined' ? a : undefined) });  } finally { __tracer.exit(); } }".

Definition call_then_throw_instrumented : string :=
  call_then_throw_f +++ nl
  +++ "__tracer.setLine(2); f();; __tracer.step(2, { f: (typeof f !== 'undefined' ? f : undefined) });"
  +++ nl +++ "throw new Error('boom');".

Definition call_then_throw_program : Program :=
  let f := VFun call_then_throw_f in
  let call_f :=
    instrumented_function "f"
      (seq (perform (SetLine 1)) (perform_step 1 (VObj [("f", f); ("a", VNum 1)]))) in
  seq (perform (SetLine 2))
 (seq call_f
 (seq (perform_step 2 (VObj [("f", f)]))
      (throw (Error "boom")))).

(** A program that throws [null]. *)
Definition throw_null : string := "throw null;".

Definition throw_null_ast : Node :=
  Program_ 11 [ANode (node "ThrowStatement" 0 11 [("argument", Literal 6 10)])].

Definition throw_null_program : Program := throw VNull.

(** A program that throws an object whose message is a symbol. *)
Definition throw_symbol : string := "throw {message: Symbol('x')};".

Definition throw_symbol_ast : Node :=
  Program_ 29
    [ANode (node "ThrowStatement" 0 29
       [("argument", ANode (node "ObjectExpression" 6 28
          [("properties", AList
             [ANode (node "Property" 7 27
                [("key", Identifier 7 14 "message");
                 ("value", ANode (node "CallExpression" 16 27
                    [("callee", Identifier 16 22 "Symbol");
                     ("arguments", AList [Literal 23 26])]))])])]))])].

Definition throw_symbol_program : Program := throw (VObj [("message", VSymbol "x")]).

(** A statement on line 3 that declares a variable and gives it an object
    that holds itself, made by a function whose body is on line 1. *)
Definition cyclic_node : string :=
  "function makeNode(){ let n = {}; return n.self = n; }" +++ nl +++ nl
  +++ "let o = makeNode();".

Definition cyclic_node_ast : Node :=
  Program_ 74
    [ANode (node "FunctionDeclaration" 0 53
       [("id", Identifier 9 17 "makeNode");
        ("params", AList []);
        ("body", ANode (node "BlockStatement" 19 53
           [("body", AList
              [ANode (node "VariableDeclaration" 21 32
                 [("declarations", AList
                    [ANode (node "VariableDeclarator" 25 31
                       [("id", Identifier 25 26 "n");
                        ("init", ANode (node "ObjectExpression" 29 31
                                          [("properties", AList [])]))])])]);
               ANode (node "ReturnStatement" 33 51
                 [("argument", ANode (node "AssignmentExpression" 40 50
                    [("left", ANode (node "MemberExpression" 40 46
                        [("object", Identifier 40 41 "n");
                         ("property", Identifier 42 46 "self")]));
                     ("right", Identifier 49 50 "n")]))])])]))]);
     ANode (node "VariableDeclaration" 55 74
       [("declarations", AList
          [ANode (node "VariableDeclarator" 59 73
             [("id", Identifier 59 60 "o");
              ("init", ANode (node "CallExpression" 63 73
                 [("callee", Identifier 63 71 "makeNode");
                  ("arguments", AList [])]))])])])].

Definition cyclic_node_f : string :=
  "function makeNode(){ __tracer.enter(" +++ dq +++ "makeNode" +++ dq
  +++ "); try {  __tracer.setLine(1); let n = {};; "
  +++ "__tracer.step(1, { makeNode: (typeof makeNode !== 'undefined' ? makeNode : undefined), "
  +++ "n: (typeof n !== 'undefined' ? n : undefined) }); "
  +++ "__tracer.setLine(1); return (__tracer.step(1, "
  +++ "{ makeNode: (typeof makeNode !== 'undefined' ? makeNode : undefined), "
  +++ "n: (typeof n !== 'undefined' ? n : undefined) }), n.self = n);  "
  +++ "} finally { __tracer.exit(); } }".

Definition cyclic_node_instrumented : string :=
  cyclic_node_f +++ nl +++ nl
  +++ "__tracer.setLine(3); let o = makeNode();; "
  +++ "__tracer.step(3, { makeNode: (typeof makeNode !== 'undefined' ? makeNode : undefined), "
  +++ "o: (typeof o !== 'undefined' ? o : undefined) });".

Definition cyclic_node_program : Program :=
  let f := VFun cyclic_node_f in
  let call_makeNode :=
    instrumented_function "makeNode"
      (seq (perform (SetLine 1))
      (seq (perform_step 1 (VObj [("makeNode", f); ("n", VObj [])]))
      (seq (perform (SetLine 1))
           (perform_step 1 (VObj [("makeNode", f); ("n", VObj [])]))))) in
  seq (perform (SetLine 3))
 (seq call_makeNode
      (perform_step 3 (VObj [("makeNode", f); ("o", VCyclic)]))).

(** A text that pops the stack of the tracer itself. *)
Definition stack_pop : string := "__tracer.stack.pop(); let x = 1;".

Definition stack_pop_ast : Node :=
  Program_ 32
    [ANode (node "ExpressionStatement" 0 21
       [("expression", ANode (node "CallExpression" 0 20
          [("callee", ANode (node "MemberExpression" 0 18
              [("object", ANode (node "MemberExpression" 0 14
                  [("object", Identifier 0 8 "__tracer");
                   ("property", Identifier 9 14 "stack")]));
               ("property", Identifier 15 18 "pop")]));
           ("arguments", AList [])]))]);
     ANode (node "VariableDeclaration" 22 32
       [("declarations", AList
          [ANode (node "VariableDeclarator" 26 31
             [("id", Identifier 26 27 "x"); ("init", Literal 30 31)])])])].

Definition stack_pop_instrumented : string :=
  "__tracer.setLine(1); __tracer.stack.pop();; __tracer.step(1, {  }); "
  +++ "__tracer.setLine(1); let x = 1;; "
  +++ "__tracer.step(1, { x: (typeof x !== 'undefined' ? x : undefined) });".

Definition stack_pop_program : Program :=
  seq (perform (SetLine 1))
 (seq (perform (WriteStack []))
 (seq (perform_step 1 (VObj []))
 (seq (perform (SetLine 1))
      (perform_step 1 (VObj [("x", VNum 1)]))))).

(** A function with an empty body. *)
Definition empty_function : string := "function f(){}".

Definition empty_function_ast : Node :=
  Program_ 14
    [ANode (node "FunctionDeclaration" 0 14
       [("id", Identifier 9 10 "f");
        ("params", AList []);
        ("body", ANode (node "BlockStatement" 12 14 [("body", AList [])]))])].

Definition empty_function_instrumented : string :=
  "function f(){ } finally { __tracer.exit(); }  __tracer.enter(" +++ dq +++ "f" +++ dq +++ "); try { }".

(** The three methods of the console. *)
Definition console_calls : string :=
  "console.log('a');" +++ nl +++ "console.error('b');" +++ nl +++ "console.warn('c');".

Definition console_statement (s e : nat) (method : string) : Value :=
  ANode (node "ExpressionStatement" s (e + 1)
    [("expression", ANode (node "CallExpression" s e
       [("callee", ANode (node "MemberExpression" s (s + 8 + String.length method)
          [("object", Identifier s (s + 7) "console");
           ("property", Identifier (s + 8) (s + 8 + String.length method) method)]));
        ("arguments", AList [Literal (e - 4) (e - 1)])]))]).

Definition console_calls_ast : Node :=
  Program_ 56
    [console_statement 0 16 "log"; console_statement 18 36 "error"; console_statement 38 55 "warn"].

Definition console_calls_instrumented : string :=
  "__tracer.setLine(1); console.log('a');; __tracer.step(1, {  });" +++ nl
  +++ "__tracer.setLine(2); console.error('b');; __tracer.step(2, {  });" +++ nl
  +++ "__tracer.setLine(3); console.warn('c');; __tracer.step(3, {  });".

Definition console_calls_program : Program :=
  seq (perform (SetLine 1)) (seq (console_call "log" [VStr "a"]) (seq (perform_step 1 (VObj []))
 (seq (perform (SetLine 2)) (seq (console_call "error" [VStr "b"]) (seq (perform_step 2 (VObj []))
 (seq (perform (SetLine 3)) (seq (console_call "warn" [VStr "c"]) (perform_step 3 (VObj []))))))))).

(** Scenario D of the specification, as the specification writes it and
    with the body of the loop on a line of its own. *)
Definition python_range_one_line : string := "for i in range(3): print(i)".

Definition python_range_one_line_js : string := "for i in range(3): console.log(i)".

Definition python_range : string := "for i in range(3):" +++ nl +++ "    print(i)".

Definition python_range_js : string :=
  "for (let i = 0; i < 3; i++) {" +++ nl +++ "    console.log(i)" +++ nl +++ "}".

Definition python_range_ast : Node :=
  Program_ 50
    [ANode (node "ForStatement" 0 50
       [("init", ANode (node "VariableDeclaration" 5 14
           [("declarations", AList
              [ANode (node "VariableDeclarator" 9 14
                 [("id", Identifier 9 10 "i"); ("init", Literal 13 14)])])]));
        ("test", ANode (node "BinaryExpression" 16 21
           [("left", Identifier 16 17 "i"); ("right", Literal 20 21)]));
        ("update", ANode (node "UpdateExpression" 23 26 [("argument", Identifier 23 24 "i")]));
        ("body", ANode (node "BlockStatement" 28 50
           [("body", AList
              [ANode (node "ExpressionStatement" 34 48
                 [("expression", ANode (node "CallExpression" 34 48
                    [("callee", ANode (node "MemberExpression" 34 45
                       [("object", Identifier 34 41 "console");
                        ("property", Identifier 42 45 "log")]));
                     ("arguments", AList [Identifier 46 47 "i"])]))])])]))])].

Definition python_range_instrumented : string :=
  "for (let i = 0; i < 3; i++) { if (__tracer.checkLoop()) break; " +++ nl
  +++ "    __tracer.setLine(2); console.log(i); __tracer.step(2, {  });" +++ nl +++ "}".

Definition python_range_program : Program :=
  loop (fun i : Z =>
          if (i <? 3)%Z
          then guarded (turn (seq (perform (SetLine 2))
                             (seq (console_call "log" [VNum i])
                                  (perform_step 2 (VObj [])))) (i + 1)%Z)
          else Ret (inr Normal)) 0%Z.

(** Scenario C of the specification. *)
Definition cpp_vector : string := "vector<int> v = {1,2,3}; cout << v.size() << endl;".

Definition cpp_vector_js : string := "let v = [1,2,3]; console.Math.log(v.length);".

Definition cpp_vector_ast : Node :=
  Program_ 44
    [ANode (node "VariableDeclaration" 0 16
       [("declarations", AList
          [ANode (node "VariableDeclarator" 4 15
             [("id", Identifier 4 5 "v");
              ("init", ANode (node "ArrayExpression" 8 15
                 [("elements", AList [Literal 9 10; Literal 11 12; Literal 13 14])]))])])]);
     ANode (node "ExpressionStatement" 17 44
       [("expression", ANode (node "CallExpression" 17 43
          [("callee", ANode (node "MemberExpression" 17 33
             [("object", ANode (node "MemberExpression" 17 29
                 [("object", Identifier 17 24 "console"); ("property", Identifier 25 29 "Math")]));
              ("property", Identifier 30 33 "log")]));
           ("arguments", AList
              [ANode (node "MemberExpression" 34 42
                 [("object", Identifier 34 35 "v"); ("property", Identifier 36 42 "length")])])]))])].

Definition cpp_vector_instrumented : string :=
  "__tracer.setLine(1); let v = [1,2,3];; "
  +++ "__tracer.step(1, { v: (typeof v !== 'undefined' ? v : undefined) }); "
  +++ "__tracer.setLine(1); console.Math.log(v.length);; "
  +++ "__tracer.step(1, { v: (typeof v !== 'undefined' ? v : undefined) });".

Definition cpp_vector_program : option Program :=
  let v := VArr [VNum 1; VNum 2; VNum 3] in
  option_map
    (fun call_log =>
       seq (perform (SetLine 1))
      (seq (perform_step 1 (VObj [("v", v)]))
      (seq (perform (SetLine 1))
      (seq call_log
           (perform_step 1 (VObj [("v", v)]))))))
    (console_member_call "Math" "log" [VNum (Z.of_nat (List.length [1; 2; 3]))]).

(** A check of the trees above against their texts: the text of a node
    lies inside the text of its parent, the text of an identifier is its
    name, and the text of a block is between braces. *)
Fixpoint fits (code : string) (lo hi : nat) (n : Node) {struct n} : bool :=
  match n with
  | mkNode ty s e ps =>
      (lo <=? s) && (s <=? e) && (e <=? hi) && (e <=? String.length code)
      && (if String.eqb ty "Identifier"
          then match lookup "name" ps with
               | Some (AString name) => String.eqb (substring s e code) name
               | _ => false
               end
          else true)
      && (if String.eqb ty "BlockStatement"
          then startsWith (substring s e code) "{" && endsWith (substring s e code) "}"
          else true)
      && (fix all (ps : list (string * Value)) : bool :=
            match ps with
            | [] => true
            | (_, v) :: ps' =>
                match v with
                | ANode c => fits code s e c
                | AList items =>
                    (fix each (vs : list Value) : bool :=
                       match vs with
                       | [] => true
                       | ANode c :: vs' => fits code s e c && each vs'
                       | _ :: vs' => each vs'
                       end) items
                | _ => true
                end && all ps'
            end) ps
  end.

Definition trees : list (string * Node) :=
  [(while_true, while_true_ast);
   (busy_loop, busy_loop_ast);
   ("", empty_ast);
   (call_then_throw, call_then_throw_ast);
   (throw_null, throw_null_ast);
   (throw_symbol, throw_symbol_ast);
   (cyclic_node, cyclic_node_ast);
   (stack_pop, stack_pop_ast);
   (empty_function, empty_function_ast);
   (console_calls, console_calls_ast);
   (python_range_js, python_range_ast);
   (cpp_vector_js, cpp_vector_ast)].

(** What acorn answers on the texts above. *)
Fixpoint answer {A : Type} (table : list (string * (JsVal + A))) (text : string) : JsVal + A :=
  match table with
  | [] => inl (SyntaxError "text outside the scenarios")
  | (t, a) :: table' => if String.eqb t text then a else answer table' text
  end.

Definition acorn_parse : string -> JsVal + Node :=
  answer
    [(while_true, inr while_true_ast);
     (busy_loop, inr busy_loop_ast);
     ("", inr empty_ast);
     (call_then_throw, inr call_then_throw_ast);
     (throw_null, inr throw_null_ast);
     (throw_symbol, inr throw_symbol_ast);
     (cyclic_node, inr cyclic_node_ast);
     (stack_pop, inr stack_pop_ast);
     (empty_function, inr empty_function_ast);
     (console_calls, inr console_calls_ast);
     (python_range_one_line_js, inl (SyntaxError "Unexpected token (1:4)"));
     (python_range_js, inr python_range_ast);
     (cpp_vector_js, inr cpp_vector_ast)].

(** The program of a text, where the model has one. *)
Definition program_of (p : option Program) : JsVal + Program :=
  match p with
  | Some p => inr p
  | None => inl (SyntaxError "text outside the scenarios")
  end.

(** What [new Function] answers on the wrapped instrumented texts. *)
Definition new_Function : string -> JsVal + Program :=
  answer
    [(wrappedCode while_true_instrumented, inr while_true_program);
     (wrappedCode busy_loop_instrumented, inr busy_loop_program);
     (wrappedCode "", inr empty_program);
     (wrappedCode call_then_throw_instrumented, inr call_then_throw_program);
     (wrappedCode throw_null, inr throw_null_program);
     (wrappedCode throw_symbol, inr throw_symbol_program);
     (wrappedCode cyclic_node_instrumented, inr cyclic_node_program);
     (wrappedCode stack_pop_instrumented, inr stack_pop_program);
     (wrappedCode empty_function_instrumented, inl (SyntaxError "Unexpected token 'finally'"));
     (wrappedCode console_calls_instrumented, inr console_calls_program);
     (wrappedCode python_range_instrumented, inr python_range_program);
     (wrappedCode cpp_vector_instrumented, program_of cpp_vector_program)].

Definition execute : nat -> string -> string -> option Outcome :=
  executeCode acorn_parse new_Function.

(** Programs that read input and that go on after the budget is spent;
    the second starts where the counter has reached the budget. *)
Definition eleven_inputs : Program :=
  loop (fun i : nat =>
          if i <? 11
          then ITree.bind (ITree.trigger Input) (fun _ => Ret (inl (S i)))
          else Ret (inr Normal)) 0.

Definition three_steps : Program :=
  ITree.bind (ITree.trigger (Step 1 (VObj []))) (fun _ =>
  ITree.bind (ITree.trigger (Step 2 (VObj []))) (fun _ =>
  ITree.bind (ITree.trigger (Step 3 (VObj []))) (fun _ => Ret Normal))).

Definition budget_reached : State := mkState [] [] 0 MAX_STEPS ["main"] 1 0.


(** The two patches of the wrapper of [empty_function], which meet at one
    offset. *)
Definition empty_function_patches : list Patch :=
  [mkPatch 13 (" __tracer.enter(" +++ dq +++ "f" +++ dq +++ "); try { ");
   mkPatch 13 " } finally { __tracer.exit(); } "].

(** A C++ text with nested blocks, and the operands of an output chain. *)
Definition cpp_nested : string := "int main() { if (x) { y; } }".

Definition cout_operands : list string := ["v.size() "; " (1 << 2) "; " endl"].

(** A Python text without blocks. *)
Definition python_flat : string := "x = 1" +++ nl +++ "# done" +++ nl +++ "y = 2".

(** Variables of several kinds: a function, a symbol, and an array with
    a symbol, [undefined], [NaN] and a number. *)
Definition mixed_vars : JsVal :=
  VObj [("f", VFun "function f(){}");
        ("s", VSymbol "x");
        ("a", VArr [VSymbol "y"; VUndefined; VNaN; VNum 1])].

(** A timeline of three steps in the player. *)
Definition three_shown : App.State :=
  App.mkState [mkStep 1 (VObj []) ["main"] [] false VUndefined;
               mkStep 2 (VObj []) ["main"] [] false VUndefined;
               mkStep 3 (VObj []) ["main"] [] false VUndefined] 0 true None.

End Scenarios.



(* ===================================================================== *)
(** * Notions of the specification *)
(* ===================================================================== *)

Module Spec.
Import JsString Js Executor.

(** [l1] is contained in [l2] in order: [l2] is [l1] with elements
    inserted. *)
Inductive subsequence {A : Type} : list A -> list A -> Prop :=
| sub_nil : subsequence [] []
| sub_keep (x : A) (l1 l2 : list A) : subsequence l1 l2 -> subsequence (x :: l1) (x :: l2)
| sub_insert (x : A) (l1 l2 : list A) : subsequence l1 l2 -> subsequence l1 (x :: l2).

(** Offsets that do not increase. *)
Definition descending (ps : list Instrumenter.Patch) : Prop :=
  StronglySorted (fun p q => Instrumenter.index q <= Instrumenter.index p) ps.

(** The patches registered for one offset, in their order. *)
Definition at_offset (i : nat) (ps : list Instrumenter.Patch) : list Instrumenter.Patch :=
  filter (fun p => Instrumenter.index p =? i) ps.

Definition inserted_length (ps : list Instrumenter.Patch) : nat :=
  fold_right (fun p n => String.length (Instrumenter.text p) + n) 0 ps.

(** A property of every transition of a run: the state before a call, the
    call, the state after it. *)
Fixpoint chain (P : State -> Call -> State -> Prop) (s : State) (history : History) : Prop :=
  match history with
  | [] => True
  | (c, s') :: history' => P s c s' /\ chain P s' history'
  end.

Definition calls (history : History) : list Call := map fst history.




(** The number of calls of [step] that did not throw. *)
Definition recorded_steps (history : History) : nat :=
  List.length (filter (fun c => match c with CallStep _ _ None => true | _ => false end)
                      (calls history)).

(** A call stack that has the seed frame at its bottom. *)
Definition seeded (st : list string) : Prop :=
  1 <= List.length st /\ hd_error st = Some "main".

(** What one call may do to the call stack. *)
Definition stack_transition (before : list string) (c : Call) (after : list string) : Prop :=
  match c with
  | CallEnter name => after = before ++ [name]
  | CallExit =>
      (List.length before = 1 /\ after = before) \/ (exists top, before = after ++ [top])
  | CallWriteStack frames => after = frames
  | _ => after = before
  end.

(** A run in which the text leaves the stack of the tracer to [enter] and
    [exit]. *)
Definition writes_stack (c : Call) : bool :=
  match c with
  | CallWriteStack _ => true
  | _ => false
  end.

Definition no_stack_writes (history : History) : Prop :=
  Forall (fun c => writes_stack c = false) (calls history).

(** The stack as the calls say it is: [enter] puts a frame on top, [exit]
    takes the top frame off unless it is the only one, a write replaces
    the stack.  And the stacks there were at the calls of [step] that did
    not throw, in their order. *)
Definition frames_after (frames : list string) (c : Call) : list string :=
  match c with
  | CallEnter name => frames ++ [name]
  | CallExit => if 1 <? List.length frames then removelast frames else frames
  | CallWriteStack written => written
  | _ => frames
  end.

Fixpoint recorded_stacks (frames : list string) (l : list Call) : list (list string) :=
  match l with
  | [] => []
  | c :: l' =>
      match c with
      | CallStep _ _ None => [frames]
      | _ => []
      end ++ recorded_stacks (frames_after frames c) l'
  end.

(** A thrown value whose message the [catch] block cannot read, or cannot
    print. *)
Definition unprintable (e : JsVal) : Prop :=
  e = VNull \/ e = VUndefined
  \/ (exists thrown, e = VGetter thrown)
  \/ (exists message, message_of e = inr message /\ has_symbol message = true).

Definition messages (logs : list ConsoleLog) : list string := map message logs.

(** The steps [step] records are not error steps, and there is at most one
    of them for each value the counter has had up to the budget. *)
Definition steps_bounded (s : State) : Prop :=
  Forall (fun st => isError st = false) (timeline s)
  /\ List.length (timeline s) <= stepCount s
  /\ List.length (timeline s) <= S MAX_STEPS.

(** The stack and the recorded stacks keep the seed frame at the bottom. *)
Definition stacks_seeded (s : State) : Prop :=
  seeded (stack s) /\ Forall (fun st => seeded (callStack st)) (timeline s).

(** The state with one more entry in the accumulating log. *)
Definition with_log (entry : ConsoleLog) (s : State) : State :=
  mkState (timeline s) (currentLogs s ++ [entry]) (lastLine s) (stepCount s)
          (stack s) (currentLine s) (_inputIndex s).

(** How an attempt ended, the timeline a promise was resolved with, and
    the console output of its last step. *)
Definition completion_of (r : option (Completion * State * History)) : option Completion :=
  option_map (fun x => fst (fst x)) r.

Definition resolved (o : option Outcome) : option Timeline :=
  match o with
  | Some (Resolved t) => Some t
  | _ => None
  end.

Definition final_console (o : option Outcome) : option (list ConsoleLog) :=
  match resolved o with
  | Some t => option_map consoleOutput (last_step t)
  | None => None
  end.

(** ** Notions of the further properties *)

(** The values the calls of [input] returned, in their order. *)
Definition inputs (history : History) : list JsVal :=
  flat_map (fun c => match c with CallInput v => [v] | _ => [] end) (calls history).


(** [l1] is how [l2] begins. *)
Definition begins {A : Type} (l1 l2 : list A) : Prop := exists more, l2 = l1 ++ more.


(** The error of the budget, and a call that found the budget spent. *)
Definition limit_error : JsVal := Error "Execution limit exceeded (infinite loop detection).".

Definition over_budget (c : Call) : Prop :=
  match c with
  | CallStep _ _ thrown => thrown = Some limit_error
  | CallCheckLoop result => result = true
  | _ => True
  end.



(** The entry of a call of [step] that found the budget spent: the
    counter, which that call too has incremented, is above 2001. *)
Definition step_over_budget (entry : Call * State) : Prop :=
  match fst entry with
  | CallStep _ _ (Some _) => S MAX_STEPS < stepCount (snd entry)
  | _ => False
  end.

(** The console output of a step is how that of every later step begins. *)
Definition console_grows (t : Timeline) : Prop :=
  StronglySorted (fun a b => begins (consoleOutput a) (consoleOutput b)) t.

Definition logs_kept (s : State) : Prop :=
  console_grows (timeline s)
  /\ Forall (fun st => begins (consoleOutput st) (currentLogs s)) (timeline s).

(** The entries of the log of a step: all of kind 'log', but for the one
    entry of kind 'error' that ends the log of an error step. *)
Definition kinds_of_step (st : ExecutionStep) : Prop :=
  if isError st then
    exists logs text,
      consoleOutput st = logs ++ [mkLog error_ ("Runtime Error: " +++ text)]
      /\ Forall (fun l => type l = log_) logs
  else Forall (fun l => type l = log_) (consoleOutput st).

Definition log_only (s : State) : Prop :=
  Forall (fun l => type l = log_) (currentLogs s)
  /\ Forall (fun st => isError st = false /\ Forall (fun l => type l = log_) (consoleOutput st))
            (timeline s).

(** Data that [JSON.stringify] writes and [JSON.parse] reads back as it
    was: no function, no [undefined], no [NaN] and no error object at any
    depth, and none of the values [JSON.stringify] throws on or leaves
    out. *)
Fixpoint plain (v : JsVal) : bool :=
  match v with
  | VUndefined | VNaN | VFun _ | VError _ _ => false
  | VBigInt _ | VSymbol _ | VCyclic | VGetter _ => false
  | VArr items => forallb plain items
  | VObj props =>
      (fix members (ps : list (string * JsVal)) : bool :=
         match ps with
         | [] => true
         | (_, v) :: ps' => plain v && members ps'
         end) props
  | _ => true
  end.

(** A node at which the walk enters a scope. *)
Definition opens_scope (node : Instrumenter.Node) : bool :=
  Instrumenter.one_of ["BlockStatement"; "Program"] (Instrumenter.type node)
  || Instrumenter.one_of ["FunctionDeclaration"; "ArrowFunctionExpression"; "FunctionExpression"]
                         (Instrumenter.type node).

(** Between two moments of a walk: the scope stack is as deep as it was,
    and the patches registered before are still there, in their places. *)
Definition walked (before after : Instrumenter.Walk) : Prop :=
  List.length (Instrumenter.scopeStack after) = List.length (Instrumenter.scopeStack before)
  /\ begins (Instrumenter.patches before) (Instrumenter.patches after).

(** A patch whose offset is an offset of the text. *)
Definition inside (code : string) (p : Instrumenter.Patch) : Prop :=
  Instrumenter.index p <= String.length code.

(** The offsets of a node that fits a text: in order, within the text,
    and with room for the two braces where the node is a block. *)
Definition placed (code : string) (n : Instrumenter.Node) : Prop :=
  Instrumenter.start n <= Instrumenter.end_ n
  /\ Instrumenter.end_ n <= String.length code
  /\ (String.eqb (Instrumenter.type n) "BlockStatement" = true ->
      Instrumenter.start n + 1 <= Instrumenter.end_ n).

(** A text that does not begin with white space. *)
Definition trimmed_head (l : list ascii) : Prop :=
  match l with
  | [] => True
  | c :: _ => is_space c = false
  end.

(** An operand of an output chain: read from a depth of parentheses, it
    has no [<] outside parentheses and ends outside them. *)
Fixpoint operand_from (parenDepth : Z) (x : list ascii) : bool :=
  match x with
  | [] => (parenDepth =? 0)%Z
  | ch :: more =>
      let parenDepth :=
        if Ascii.eqb ch "(" then (parenDepth + 1)%Z
        else if Ascii.eqb ch ")" then (parenDepth - 1)%Z
        else parenDepth in
      negb ((parenDepth =? 0)%Z && Ascii.eqb ch "<") && operand_from parenDepth more
  end.

Definition operand (x : string) : bool := operand_from 0 (chars x).

(** What an operand leaves in [parts]. *)
Definition operand_part (x : string) : list string :=
  if String.eqb (trim x) "" then [] else [trim x].

(** An operand that reaches the call of [console.log]. *)
Definition printed (p : string) : bool :=
  negb (String.eqb p "") && negb (String.eqb p "endl") && negb (String.eqb p "std::endl").

(** A text of one line. *)
Definition one_line (s : string) : bool := forallb (fun c => negb (Ascii.eqb c LF)) (chars s).

(** The lines of a text, as [split] cuts them at the line feeds. *)
Fixpoint lines_from (l : list ascii) (cur : list ascii) : list (list ascii) :=
  match l with
  | [] => [rev cur]
  | c :: l' => if Ascii.eqb LF c then rev cur :: lines_from l' [] else lines_from l' (c :: cur)
  end.

(** The white space a line starts with. *)
Fixpoint leading_space (l : list ascii) : list ascii :=
  match l with
  | c :: l' => if is_space c then c :: leading_space l' else []
  | [] => []
  end.

(** What the greedy [\s*] does in front of a continuation [k]: it takes
    all the white space there is, and gives it back one character at a
    time for as long as [k] fails. *)
Fixpoint after_spaces (k : Regex.mstate -> option Regex.mstate) (l : list ascii)
         (prev : option ascii) (cs : list (nat * list ascii)) : option Regex.mstate :=
  match l with
  | c :: l' =>
      if is_space c then
        match after_spaces k l' (Some c) cs with
        | Some res => Some res
        | None => k (Regex.MState l prev cs)
        end
      else k (Regex.MState l prev cs)
  | [] => k (Regex.MState [] prev cs)
  end.

(** The header of a block as the first phase leaves it: with its
    trailing colon removed and an opening brace added, unless it ends
    with an opening brace already. *)
Definition opened (header : string) : string :=
  if negb (endsWith (trim header) "{")
  then Regex.replace_first (Regex.re PythonTranspiler.colon_pattern) "" header +++ " {"
  else header.

(** A line of Python that opens no block and closes none. *)
Definition flat (line : string) : Prop :=
  PythonTranspiler.is_code_line line = true -> PythonTranspiler.getIndent line = 0.

(** The characters of a text are all of one kind. *)
Definition all_chars (P : ascii -> Prop) (s : string) : Prop := Forall P (chars s).

(** The character that starts a comment in Python. *)
Definition hash : ascii := "#"%char.

Definition hash_free (s : string) : Prop := all_chars (fun c => c <> hash) s.

(** A state of the matcher all of whose characters, those to come and
    those captured, are of one kind; and a continuation that keeps it
    so. *)
Definition of_kind (P : ascii -> Prop) (st : Regex.mstate) : Prop :=
  Forall P (Regex.rest st) /\ Forall (fun cap => Forall P (snd cap)) (Regex.caps st).

Definition keeps_kind (P : ascii -> Prop) (k : Regex.mstate -> option Regex.mstate) : Prop :=
  forall st res, of_kind P st -> k st = Some res -> of_kind P res.

(** The text before and after the first occurrence of a character. *)
Fixpoint cut (c : ascii) (l : list ascii) : option (list ascii * list ascii) :=
  match l with
  | [] => None
  | x :: l' =>
      if Ascii.eqb c x then Some ([], l')
      else match cut c l' with
           | Some (a, b) => Some (x :: a, b)
           | None => None
           end
  end.

(** The index of the player points at a step of its timeline. *)
Definition in_range (a : App.State) : Prop :=
  (0 <= App.currentStepIndex a <= App.last_index a)%Z.

End Spec.

(** The attempt on a scenario, computed. *)
Ltac compute_attempt E :=
  match goal with
  | |- context [Executor.attempt ?p ?n ?fuel ?code ?lang] =>
      destruct (Executor.attempt p n fuel code lang) as [[[?done ?s] ?history] |] eqn:E;
      [| vm_compute in E; discriminate E]
  end.

(** The cases of a call of the tracer: the eight events, [exit] at the
    seed frame and above it, [step] over the budget, refused by the copy
    and recorded, [log] throwing and pushing. *)
Ltac call_cases e s :=
  destruct e; simpl;
  [ | unfold Executor.exit; destruct (1 <? List.length (Executor.stack s)) eqn:?
    | | unfold Executor.step; destruct (Executor.MAX_STEPS <? Executor.stepCount s) eqn:?;
        [| destruct (Js.roundtrip_error _) eqn:?]
    | | unfold Executor.log; destruct (Executor.log_error _) eqn:?
    | | ]; simpl.

(* ===================================================================== *)
(** * Properties *)
(* ===================================================================== *)

Import JsString.

(** ** Strings as lists of characters *)

Lemma chars_str (l : list ascii) : chars (str l) = l.
Proof. apply list_ascii_of_string_of_list_ascii. Qed.

Lemma str_chars (s : string) : str (chars s) = s.
Proof. apply string_of_list_ascii_of_string. Qed.

Lemma chars_append (a b : string) : chars (a +++ b) = chars a ++ chars b.
Proof.
  induction a as [|c a IH]; simpl.
  - reflexivity.
  - unfold chars in *. simpl. now rewrite IH.
Qed.

Lemma length_chars (s : string) : List.length (chars s) = String.length s.
Proof.
  induction s as [|c s IH]; simpl.
  - reflexivity.
  - unfold chars in *. simpl. now rewrite IH.
Qed.

(** The matcher on small inputs: a word boundary lies between a dot and a
    letter; a greedy quantifier gives back what the rest of the pattern
    needs; a back reference matches the text of its group; a negative
    look-ahead consumes nothing; an empty match moves the scan one
    character on; and a group inside a quantifier is reset at each turn. *)
Lemma matcher_examples :
  Regex.replace_all (Regex.re "\blog\s*\(") "Math.log(" "console.log(x); log (2); catalog(3)"
  = "console.Math.log(x); Math.log(2); catalog(3)"
  /\ Regex.replace_all (Regex.re "if\s+(.+)\s*\{") "if ($1) {" "if x == 1 {" = "if (x == 1 ) {"
  /\ Regex.replace_all (Regex.re "(\w+)\.find\s*\(([^)]+)\)\s*!=\s*\1\.end\s*\(\s*\)") "$1.has($2)"
                       "m.find(k) != m.end(); m.find(k) != n.end()"
     = "m.has(k); m.find(k) != n.end()"
  /\ Regex.replace_all (Regex.re "\.insert\s*\((?!(\w+)\.begin)") ".add(" "s.insert(3); v.insert(v.begin"
     = "s.add(3); v.insert(v.begin"
  /\ Regex.replace_all (Regex.re "x*") "-" "abxxc" = "-a-b--c-"
  /\ Regex.replace_all (Regex.re "(a|(b))*c") "[$1|$2]" "abac bc" = "[a|] [b|b]"
  /\ Regex.split_re (Regex.re "\s+") "const  string s" = ["const"; "string"; "s"].
Proof. repeat split; vm_compute; reflexivity. Qed.

(** Every pattern literal of the two front-ends is a pattern of the
    modelled language. *)
Lemma patterns_parse :
  Forall (fun text => Regex.parse text <> None)
         (PythonTranspiler.patterns ++ CppTranspiler.patterns).
Proof.
  apply Forall_forall. intros text Hin.
  assert (H : forallb (fun t => match Regex.parse t with Some _ => true | None => false end)
                      (PythonTranspiler.patterns ++ CppTranspiler.patterns) = true)
    by (vm_compute; reflexivity).
  rewrite forallb_forall in H. specialize (H text Hin).
  destruct (Regex.parse text); [discriminate | discriminate H].
Qed.

(** ** The patches of the instrumenter *)

Section Patches.
Import Instrumenter Spec.

Lemma insert_patch_perm (p : Patch) (l : list Patch) : Permutation (p :: l) (insert_patch p l).
Proof.
  induction l as [|q l IH]; simpl.
  - apply Permutation_refl.
  - destruct (index p <? index q).
    + eapply Permutation_trans; [apply perm_swap | apply perm_skip, IH].
    + apply Permutation_refl.
Qed.

Lemma sort_patches_perm (ps : list Patch) : Permutation ps (sort_patches ps).
Proof.
  induction ps as [|p ps IH]; simpl.
  - apply perm_nil.
  - eapply Permutation_trans; [apply perm_skip, IH | apply insert_patch_perm].
Qed.

Lemma insert_patch_descending (p : Patch) (l : list Patch) :
  descending l -> descending (insert_patch p l).
Proof.
  unfold descending. induction l as [|q l IH]; simpl; intros Hs.
  - constructor; constructor.
  - inversion Hs as [|? ? Hl Hq]; subst.
    destruct (index p <? index q) eqn:E.
    + apply Nat.ltb_lt in E.
      constructor; [apply IH, Hl |].
      apply Forall_forall. intros x Hx.
      apply (Permutation_in _ (Permutation_sym (insert_patch_perm p l))) in Hx.
      destruct Hx as [<- | Hx]; [lia |].
      rewrite Forall_forall in Hq. now apply Hq.
    + apply Nat.ltb_ge in E.
      constructor; [exact Hs |].
      constructor; [exact E |].
      rewrite Forall_forall in *. intros x Hx. specialize (Hq x Hx). lia.
Qed.

Lemma sort_patches_descending (ps : list Patch) : descending (sort_patches ps).
Proof.
  induction ps as [|p ps IH]; simpl.
  - constructor.
  - now apply insert_patch_descending.
Qed.

Lemma insert_patch_at_offset (i : nat) (p : Patch) (l : list Patch) :
  descending l -> at_offset i (insert_patch p l) = at_offset i (p :: l).
Proof.
  unfold descending, at_offset. induction l as [|q l IH]; intros Hs.
  - reflexivity.
  - inversion Hs as [|? ? Hl Hq]; subst. simpl.
    destruct (index p <? index q) eqn:E.
    + apply Nat.ltb_lt in E. simpl. rewrite (IH Hl). simpl.
      destruct (index p =? i) eqn:Ep, (index q =? i) eqn:Eq; try reflexivity.
      apply Nat.eqb_eq in Ep, Eq. lia.
    + reflexivity.
Qed.

Lemma sort_patches_stable (i : nat) (ps : list Patch) :
  at_offset i (sort_patches ps) = at_offset i ps.
Proof.
  induction ps as [|p ps IH]; simpl.
  - reflexivity.
  - rewrite insert_patch_at_offset by apply sort_patches_descending.
    unfold at_offset in *. simpl. now rewrite IH.
Qed.

Lemma subsequence_refl {A : Type} (l : list A) : subsequence l l.
Proof. induction l; constructor; assumption. Qed.

Lemma subsequence_trans {A : Type} (l1 l2 l3 : list A) :
  subsequence l1 l2 -> subsequence l2 l3 -> subsequence l1 l3.
Proof.
  intros H12 H23. revert l1 H12.
  induction H23 as [|x l2 l3 H IH|x l2 l3 H IH]; intros l1 H12.
  - exact H12.
  - inversion H12; subst.
    + apply sub_keep. now apply IH.
    + apply sub_insert. now apply IH.
  - apply sub_insert. now apply IH.
Qed.

Lemma subsequence_insert {A : Type} (i : nat) (t l : list A) :
  subsequence l (firstn i l ++ t ++ skipn i l).
Proof.
  revert i. induction l as [|x l IH]; intros i.
  - rewrite firstn_nil, skipn_nil, app_nil_r. simpl.
    induction t as [|y t IHt]; constructor; assumption.
  - destruct i as [|i]; simpl.
    + clear IH. induction t as [|y t IHt]; simpl.
      * apply subsequence_refl.
      * apply sub_insert, IHt.
    + apply sub_keep, IH.
Qed.

Lemma chars_splice (out : string) (p : Patch) :
  chars (splice out p)
  = firstn (index p) (chars out) ++ chars (text p) ++ skipn (index p) (chars out).
Proof.
  unfold splice, slice_to, slice_from.
  now rewrite !chars_append, !chars_str.
Qed.

Lemma apply_patches_subsequence (ps : list Patch) (code : string) :
  subsequence (chars code) (chars (apply_patches code ps)).
Proof.
  unfold apply_patches. revert code.
  induction ps as [|p ps IH]; intros code; simpl.
  - apply subsequence_refl.
  - eapply subsequence_trans; [| apply IH].
    rewrite chars_splice. apply subsequence_insert.
Qed.

Lemma length_splice (out : string) (p : Patch) :
  String.length (splice out p) = String.length out + String.length (text p).
Proof.
  rewrite <- !length_chars, chars_splice, !length_app.
  rewrite <- (firstn_skipn (index p) (chars out)) at 3. rewrite length_app. lia.
Qed.

Lemma apply_patches_length (ps : list Patch) (code : string) :
  String.length (apply_patches code ps) = String.length code + inserted_length ps.
Proof.
  unfold apply_patches. revert code.
  induction ps as [|p ps IH]; intros code; simpl.
  - lia.
  - rewrite IH, length_splice. lia.
Qed.

Lemma inserted_length_perm (l1 l2 : list Patch) :
  Permutation l1 l2 -> inserted_length l1 = inserted_length l2.
Proof. induction 1; simpl; lia. Qed.

(** Splices at or after an offset leave the text before it as it is. *)
Lemma apply_patches_prefix (i : nat) (ps : list Patch) (code : string) :
  i <= String.length code ->
  Forall (fun p => i <= index p) ps ->
  slice_to i (apply_patches code ps) = slice_to i code.
Proof.
  unfold apply_patches, slice_to. revert code.
  induction ps as [|p ps IH]; intros code Hi Hps; simpl.
  - reflexivity.
  - inversion Hps as [|? ? Hp Hps']; subst.
    rewrite IH; [| rewrite length_splice; lia | exact Hps'].
    f_equal. rewrite chars_splice.
    rewrite firstn_app.
    assert (Hlen : List.length (firstn (index p) (chars code)) = index p \/
                   List.length (firstn (index p) (chars code)) = String.length code).
    { rewrite length_firstn, length_chars. lia. }
    rewrite firstn_firstn.
    replace (Nat.min i (index p)) with i by lia.
    replace (i - List.length (firstn (index p) (chars code))) with 0.
    + simpl. apply app_nil_r.
    + destruct Hlen as [-> | ->]; lia.
Qed.

End Patches.

Section Inserts.
Import Instrumenter Spec.

Lemma descending_before (before after : list Patch) (p : Patch) :
  descending (before ++ p :: after) -> Forall (fun q => index p <= index q) before.
Proof.
  unfold descending. induction before as [|q before IH]; simpl; intros Hs.
  - constructor.
  - inversion Hs as [|? ? Hl Hq]; subst. constructor.
    + rewrite Forall_forall in Hq. apply Hq. apply in_or_app. right. now left.
    + now apply IH.
Qed.

(** C9.  For every source text the parser accepts, [instrumentCode] only
    inserts text: the patches it registered are applied in descending
    order of their offsets, patches of one offset in the order of their
    registration (the sort is stable); the instrumented text contains the
    whole source as a subsequence, in order, and is longer by exactly the
    inserted texts; and when a patch is spliced, the text before its
    offset is still the text of the source, so that the offset recorded
    for it means what it meant. *)
Theorem instrumentCode_only_inserts
        (parse : string -> Js.JsVal + Node) (code out : string) :
  instrumentCode parse code = inr out ->
  exists (ast : Node) (w : Walk),
    parse code = inr ast
    /\ walk code ast None (mkWalk [] [[]]) = Some w
    /\ out = apply_patches code (sort_patches (patches w))
    /\ Permutation (patches w) (sort_patches (patches w))
    /\ descending (sort_patches (patches w))
    /\ (forall i, at_offset i (sort_patches (patches w)) = at_offset i (patches w))
    /\ subsequence (chars code) (chars out)
    /\ String.length out = String.length code + inserted_length (patches w)
    /\ (forall before p after,
           sort_patches (patches w) = before ++ p :: after ->
           index p <= String.length code ->
           slice_to (index p) (apply_patches code before) = slice_to (index p) code).
Proof.
  unfold instrumentCode. intros H.
  destruct (parse code) as [e | ast] eqn:Hparse; [discriminate |].
  destruct (walk code ast None (mkWalk [] [[]])) as [w |] eqn:Hwalk; [| discriminate].
  injection H as <-.
  exists ast, w.
  split; [reflexivity |]. split; [exact Hwalk |]. split; [reflexivity |].
  repeat split.
  - apply sort_patches_perm.
  - apply sort_patches_descending.
  - intros i. apply sort_patches_stable.
  - apply apply_patches_subsequence.
  - rewrite apply_patches_length. f_equal.
    symmetry. apply inserted_length_perm, sort_patches_perm.
  - intros before p after Hsplit Hp.
    apply apply_patches_prefix; [exact Hp |].
    apply descending_before with (after := after).
    rewrite <- Hsplit. apply sort_patches_descending.
Qed.

End Inserts.

(** The trees of the scenarios fit their texts. *)
Lemma trees_fit :
  Forall (fun t => Scenarios.fits (fst t) 0 (String.length (fst t)) (snd t) = true)
         Scenarios.trees.
Proof. repeat constructor. Qed.

(** The instrumented texts of the scenarios are what [instrumentCode]
    computes. *)
Lemma instrumented_texts :
  let instrument := Instrumenter.instrumentCode Scenarios.acorn_parse in
  instrument Scenarios.while_true = inr Scenarios.while_true_instrumented
  /\ instrument Scenarios.busy_loop = inr Scenarios.busy_loop_instrumented
  /\ instrument "" = inr ""
  /\ instrument Scenarios.call_then_throw = inr Scenarios.call_then_throw_instrumented
  /\ instrument Scenarios.throw_null = inr Scenarios.throw_null
  /\ instrument Scenarios.throw_symbol = inr Scenarios.throw_symbol
  /\ instrument Scenarios.cyclic_node = inr Scenarios.cyclic_node_instrumented
  /\ instrument Scenarios.stack_pop = inr Scenarios.stack_pop_instrumented
  /\ instrument Scenarios.empty_function = inr Scenarios.empty_function_instrumented
  /\ instrument Scenarios.console_calls = inr Scenarios.console_calls_instrumented
  /\ instrument Scenarios.python_range_js = inr Scenarios.python_range_instrumented
  /\ instrument Scenarios.cpp_vector_js = inr Scenarios.cpp_vector_instrumented.
Proof. vm_compute. repeat split. Qed.

Lemma instrumentCode_only_inserts_witness :
  Instrumenter.instrumentCode Scenarios.acorn_parse Scenarios.busy_loop
  = inr Scenarios.busy_loop_instrumented
  /\ Spec.subsequence (chars Scenarios.busy_loop) (chars Scenarios.busy_loop_instrumented).
Proof.
  assert (H : Instrumenter.instrumentCode Scenarios.acorn_parse Scenarios.busy_loop
              = inr Scenarios.busy_loop_instrumented) by (vm_compute; reflexivity).
  split; [exact H |].
  destruct (instrumentCode_only_inserts _ _ _ H) as (ast & w & _ & _ & _ & _ & _ & _ & Hsub & _).
  exact Hsub.
Defined.

(** ** Runs of the tracer *)

Section Runs.
Import Js Executor Spec.

(** What holds of every call holds along a run, and an invariant of the
    calls holds at its end. *)
Lemma run_chain (I : State -> Prop) (P : State -> Call -> State -> Prop) :
  (forall (R : Type) (e : tracerE R) (s : State),
      I s -> I (snd (fst (call e s))) /\ P s (snd (call e s)) (snd (fst (call e s)))) ->
  forall fuel p s done s' history,
    run fuel p s = Some (done, s', history) -> I s -> chain P s history /\ I s'.
Proof.
  intros Hcall. induction fuel as [|fuel IH]; intros p s done s' history Hrun Hs.
  - discriminate.
  - simpl in Hrun. destruct (observe p) as [c | p' | R e k].
    + injection Hrun as <- <- <-. simpl. auto.
    + eapply IH; eauto.
    + destruct (Hcall R e s Hs) as [HI HP].
      destruct (call e s) as [[r s1] c1]. simpl in HI, HP.
      destruct (run fuel (k r) s1) as [[[d s2] h] |] eqn:Hrest; [| discriminate].
      injection Hrun as <- <- <-.
      destruct (IH _ _ _ _ _ Hrest HI) as [Hchain Hend].
      simpl. auto.
Qed.

Lemma run_invariant (I : State -> Prop) :
  (forall (R : Type) (e : tracerE R) (s : State), I s -> I (snd (fst (call e s)))) ->
  forall fuel p s done s' history,
    run fuel p s = Some (done, s', history) -> I s -> I s'.
Proof.
  intros Hcall fuel p s done s' history Hrun Hs.
  apply (run_chain I (fun _ _ _ => True)) in Hrun; [tauto | | exact Hs].
  intros R e s0 H0. split; [now apply Hcall | exact Logic.I].
Qed.

(** An observation of the state that each call updates in a way its
    record determines is a fold over the calls of the run. *)
Lemma run_fold {A : Type} (f : A -> Call -> A) (g : State -> A) :
  (forall (R : Type) (e : tracerE R) (s : State),
      g (snd (fst (call e s))) = f (g s) (snd (call e s))) ->
  forall fuel p s done s' history,
    run fuel p s = Some (done, s', history) -> g s' = fold_left f (calls history) (g s).
Proof.
  intros Hcall. induction fuel as [|fuel IH]; intros p s done s' history Hrun.
  - discriminate.
  - simpl in Hrun. destruct (observe p) as [c | p' | R e k].
    + injection Hrun as <- <- <-. reflexivity.
    + eapply IH; eauto.
    + specialize (Hcall R e s).
      destruct (call e s) as [[r s1] c1]. simpl in Hcall.
      destruct (run fuel (k r) s1) as [[[d s2] h] |] eqn:Hrest; [| discriminate].
      injection Hrun as <- <- <-.
      unfold calls. simpl. rewrite <- Hcall. apply (IH _ _ _ _ _ Hrest).
Qed.

(** More fuel does not change the result of a run that has ended. *)
Lemma run_more_fuel (fuel : nat) :
  forall fuel' p s result, run fuel p s = Some result -> fuel <= fuel' -> run fuel' p s = Some result.
Proof.
  induction fuel as [|fuel IH]; intros fuel' p s result Hrun Hle.
  - discriminate.
  - destruct fuel' as [|fuel']; [lia |].
    simpl in *. destruct (observe p) as [c | p' | R e k].
    + exact Hrun.
    + apply IH; [exact Hrun | lia].
    + destruct (call e s) as [[r s1] c1].
      destruct (run fuel (k r) s1) as [res |] eqn:Hrest; [| discriminate].
      rewrite (IH fuel' _ _ _ Hrest); [exact Hrun | lia].
Qed.

(** The same for a run none of whose calls is of a kind [G] excludes. *)
Lemma run_chain_where (G : Call -> Prop) (I : State -> Prop)
      (P : State -> Call -> State -> Prop) :
  (forall (R : Type) (e : tracerE R) (s : State),
      I s -> G (snd (call e s)) ->
      I (snd (fst (call e s))) /\ P s (snd (call e s)) (snd (fst (call e s)))) ->
  forall fuel p s done s' history,
    run fuel p s = Some (done, s', history) -> Forall G (calls history) -> I s ->
    chain P s history /\ I s'.
Proof.
  intros Hcall. induction fuel as [|fuel IH]; intros p s done s' history Hrun HG Hs.
  - discriminate.
  - simpl in Hrun. destruct (observe p) as [c | p' | R e k].
    + injection Hrun as <- <- <-. simpl. auto.
    + eapply IH; eauto.
    + specialize (Hcall R e s Hs).
      destruct (call e s) as [[r s1] c1]. simpl in Hcall.
      destruct (run fuel (k r) s1) as [[[d s2] h] |] eqn:Hrest; [| discriminate].
      injection Hrun as <- <- <-.
      unfold calls in HG. simpl in HG. inversion HG as [|? ? Hc1 Hh]; subst.
      destruct (Hcall Hc1) as [HI HP].
      destruct (IH _ _ _ _ _ Hrest Hh HI) as [Hchain Hend].
      simpl. auto.
Qed.

Lemma call_steps_bounded (R : Type) (e : tracerE R) (s : State) :
  steps_bounded s -> steps_bounded (snd (fst (call e s))).
Proof.
  unfold steps_bounded. intros (Herr & Hcount & Hmax).
  call_cases e s; auto.
  - apply Nat.ltb_ge in Heqb. rewrite length_app. simpl. repeat split.
    + apply Forall_app. split; [exact Herr | repeat constructor].
    + lia.
    + lia.
Qed.

Lemma call_recorded_steps (R : Type) (e : tracerE R) (s : State) :
  List.length (timeline (snd (fst (call e s))))
  = List.length (timeline s)
    + match snd (call e s) with CallStep _ _ None => 1 | _ => 0 end.
Proof.
  call_cases e s; try lia.
  rewrite length_app. simpl. lia.
Qed.

Lemma recorded_steps_fold (l : list Call) (n : nat) :
  fold_left (fun n c => n + match c with CallStep _ _ None => 1 | _ => 0 end) l n
  = n + List.length (filter (fun c => match c with CallStep _ _ None => true | _ => false end) l).
Proof.
  revert n. induction l as [|c l IH]; intros n; simpl.
  - lia.
  - rewrite IH. destruct c as [| | | ? ? [e|] | | | |]; simpl; lia.
Qed.


Lemma seeded_push (st : list string) (name : string) : seeded st -> seeded (st ++ [name]).
Proof.
  unfold seeded. intros [Hlen Hhd]. rewrite length_app. simpl. split; [lia |].
  destruct st; [simpl in Hlen; lia | exact Hhd].
Qed.

Lemma seeded_pop (st : list string) :
  seeded st -> 1 < List.length st ->
  seeded (removelast st) /\ exists top, st = removelast st ++ [top].
Proof.
  unfold seeded. intros [Hlen Hhd] Hlt.
  destruct st as [|a [|b st]]; simpl in Hlt; try lia.
  split.
  - split; [simpl; lia | exact Hhd].
  - exists (last (a :: b :: st) ""). apply app_removelast_last. discriminate.
Qed.

Lemma call_stacks (R : Type) (e : tracerE R) (s : State) :
  stacks_seeded s ->
  writes_stack (snd (call e s)) = false ->
  stacks_seeded (snd (fst (call e s)))
  /\ seeded (stack s)
  /\ seeded (stack (snd (fst (call e s))))
  /\ stack_transition (stack s) (snd (call e s)) (stack (snd (fst (call e s)))).
Proof.
  unfold stacks_seeded. intros [Hst Htl].
  call_cases e s; intros Hwrite; auto; try discriminate Hwrite.
  - (* enter *) pose proof (seeded_push _ name Hst). auto.
  - (* exit above the seed frame *)
    apply Nat.ltb_lt in Heqb. destruct (seeded_pop _ Hst Heqb) as [Hpop Htop]. auto 6.
  - (* exit at the seed frame *)
    apply Nat.ltb_ge in Heqb. destruct Hst as [Hlen Hhd].
    repeat split; auto. left. split; [lia | reflexivity].
  - (* a step recorded *)
    repeat split; auto; try apply Hst.
    apply Forall_app. split; [exact Htl | repeat constructor; apply Hst].
Qed.

(** The stack after a call is what the call says, and a call of [step]
    that does not throw records the stack it finds. *)
Lemma call_frames (R : Type) (e : tracerE R) (s : State) :
  stack (snd (fst (call e s))) = frames_after (stack s) (snd (call e s))
  /\ map callStack (timeline (snd (fst (call e s))))
     = map callStack (timeline s)
       ++ match snd (call e s) with CallStep _ _ None => [stack s] | _ => [] end.
Proof.
  call_cases e s; rewrite ?Heqb, ?app_nil_r; try (split; reflexivity).
  rewrite map_app. split; reflexivity.
Qed.

Lemma run_recorded_stacks (fuel : nat) :
  forall (p : Program) (s : State) done s' history,
    run fuel p s = Some (done, s', history) ->
    map callStack (timeline s')
    = map callStack (timeline s) ++ recorded_stacks (stack s) (calls history).
Proof.
  induction fuel as [|fuel IH]; intros p s done s' history Hrun; [discriminate |].
  simpl in Hrun. destruct (observe p) as [c | p' | R e k].
  - injection Hrun as <- <- <-. simpl. now rewrite app_nil_r.
  - eapply IH; eauto.
  - destruct (call_frames R e s) as [Hstack Hsteps].
    destruct (call e s) as [[r s1] c1]. simpl in Hstack, Hsteps.
    destruct (run fuel (k r) s1) as [[[d s2] h] |] eqn:Hrest; [| discriminate].
    injection Hrun as <- <- <-.
    rewrite (IH _ _ _ _ _ Hrest), Hsteps, Hstack. unfold calls. simpl.
    now rewrite <- app_assoc.
Qed.

Lemma last_step_app (t : Timeline) (st : ExecutionStep) : last_step (t ++ [st]) = Some st.
Proof.
  unfold last_step. rewrite length_app. simpl.
  replace (List.length t + 1 - 1) with (List.length t) by lia.
  rewrite nth_error_app2 by lia. now rewrite Nat.sub_diag.
Qed.

Lemma last_step_in (t : Timeline) (st : ExecutionStep) : last_step t = Some st -> In st t.
Proof. unfold last_step. apply nth_error_In. Qed.

(** A run is a matter of what [observe] shows of the program. *)
Lemma run_observe (fuel : nat) (p q : Program) (s : State) :
  observe p = observe q -> run fuel p s = run fuel q s.
Proof. intros H. destruct fuel; simpl; [reflexivity | now rewrite H]. Qed.

Lemma observe_bind_cases (t : Program) (k : Completion -> Program) :
  observe (ITree.bind t k)
  = match observe t with
    | RetF c => observe (k c)
    | TauF t' => TauF (ITree.bind t' k)
    | VisF e ke => VisF e (fun x => ITree.bind (ke x) k)
    end.
Proof.
  etransitivity; [apply Shallow.observe_bind |].
  destruct (observe t); reflexivity.
Qed.

Lemma run_S (fuel : nat) (p : Program) (s : State) :
  run (S fuel) p s
  = match observe p with
    | RetF c => Some (c, s, [])
    | TauF p' => run fuel p' s
    | VisF e k =>
        let '(r, s', c) := call e s in
        match run fuel (k r) s' with
        | Some (done, s'', history) => Some (done, s'', (c, s') :: history)
        | None => None
        end
    end.
Proof. reflexivity. Qed.

(** A run of [t] followed by [k] is a run of [t] and then a run of what
    [k] makes of its completion. *)
Lemma run_bind (k : Completion -> Program) (fuel : nat) :
  forall (t : Program) s done s2 h,
    run fuel (ITree.bind t k) s = Some (done, s2, h) ->
    exists c s1 h1 h2 f1 f2,
      run f1 t s = Some (c, s1, h1)
      /\ run f2 (k c) s1 = Some (done, s2, h2)
      /\ h = h1 ++ h2.
Proof.
  induction fuel as [|fuel IH]; intros t s done s2 h Hrun; [discriminate |].
  rewrite run_S, observe_bind_cases in Hrun.
  destruct (observe t) as [c | t' | R e ke] eqn:Ot.
  - exists c, s, [], h, 1, (S fuel). split; [rewrite run_S, Ot; reflexivity |].
    split; [| reflexivity]. rewrite run_S. exact Hrun.
  - destruct (IH _ _ _ _ _ Hrun) as (c & s1 & h1 & h2 & f1 & f2 & H1 & H2 & Hh).
    exists c, s1, h1, h2, (S f1), f2. split; [rewrite run_S, Ot; exact H1 |]. auto.
  - destruct (call e s) as [[r s'] c'] eqn:Hcall.
    destruct (run fuel (ITree.bind (ke r) k) s') as [[[d s3] h3] |] eqn:Hrest; [| discriminate].
    injection Hrun as <- <- <-.
    destruct (IH _ _ _ _ _ Hrest) as (c & s1 & h1 & h2 & f1 & f2 & H1 & H2 & Hh).
    exists c, s1, ((c', s') :: h1), h2, (S f1), f2.
    split; [rewrite run_S, Ot, Hcall, H1; reflexivity |].
    split; [exact H2 | simpl; now rewrite Hh].
Qed.

(** The wrapper of a function body calls [enter] before the body and
    [exit] after it, however the body completes, and completes as the
    body did; where the body leaves the stack as it found it, the stack is
    after the call what it was before. *)
Lemma function_wrapper_exits (name : string) (body : Program) (fuel : nat) s done s' h :
  run fuel (instrumented_function name body) s = Some (done, s', h) ->
  exists s1 h1 f1,
    run f1 body (enter name s) = Some (done, s1, h1)
    /\ s' = exit s1
    /\ h = (CallEnter name, enter name s) :: h1 ++ [(CallExit, exit s1)]
    /\ (stack s1 = stack (enter name s) -> stack s <> [] -> stack s' = stack s).
Proof.
  unfold instrumented_function, seq, perform, try_finally. intros Hrun.
  destruct fuel as [|fuel]; [discriminate |].
  cbn in Hrun.
  destruct (run fuel _ (enter name s)) as [[[d s2] h2] |] eqn:Hrest; [| discriminate].
  injection Hrun as <- <- <-.
  assert (Hrest' : run fuel
                     (ITree.bind body (fun c =>
                        ITree.bind (ITree.bind (ITree.trigger Exit) (fun _ => Ret Normal))
                                   (fun f => Ret match f with Normal => c | Throw e => Throw e end)))
                     (enter name s) = Some (d, s2, h2)).
  { rewrite <- Hrest. apply run_observe. reflexivity. }
  clear Hrest.
  destruct (run_bind _ _ _ _ _ _ _ Hrest') as (c & s1 & h1 & h3 & f1 & f2 & H1 & H2 & Hh).
  destruct f2 as [|[|f2]]; try discriminate.
  assert (H2' : Some (c, exit s1, [(CallExit, exit s1)]) = Some (d, s2, h3)).
  { rewrite <- H2. reflexivity. }
  injection H2' as <- <- <-.
  exists s1, h1, f1. split; [exact H1 |]. split; [reflexivity |].
  split; [now rewrite Hh |].
  intros Hbal Hne. unfold exit. rewrite Hbal. simpl. rewrite length_app. simpl.
  replace (1 <? List.length (stack s) + 1) with true.
  - simpl. apply removelast_last.
  - symmetry. apply Nat.ltb_lt. destruct (stack s); [contradiction | simpl; lia].
Qed.

End Runs.

(** ** The driver *)

Section Driver.
Import Js Executor Spec.

Variable parse : string -> JsVal + Instrumenter.Node.
Variable new_Function : string -> JsVal + Program.

(** The [try] block fails before the program starts, in the initial state,
    or it is a run of the program from the initial state. *)
Lemma attempt_cases (fuel : nat) (userCode language : string) done s history :
  attempt parse new_Function fuel userCode language = Some (done, s, history) ->
  (s = initial /\ history = [] /\ exists e, done = Throw e)
  \/ exists program, run fuel program initial = Some (done, s, history).
Proof.
  unfold attempt. intros H.
  destruct (Instrumenter.instrumentCode parse (codeToInstrument userCode language)) as [e | text].
  - injection H as <- <- <-. left. eauto.
  - destruct (new_Function (wrappedCode text)) as [e | program].
    + injection H as <- <- <-. left. eauto.
    + right. eauto.
Qed.

Lemma initial_steps_bounded : steps_bounded initial.
Proof. unfold steps_bounded, initial, MAX_STEPS. simpl. repeat split; [constructor | lia | lia]. Qed.

Lemma initial_stacks_seeded : stacks_seeded initial.
Proof. unfold stacks_seeded, seeded, initial. simpl. repeat split; [lia | constructor]. Qed.

Lemma attempt_steps_bounded (fuel : nat) (userCode language : string) done s history :
  attempt parse new_Function fuel userCode language = Some (done, s, history) ->
  steps_bounded s.
Proof.
  intros H. destruct (attempt_cases _ _ _ _ _ _ H) as [(-> & _ & _) | [program Hrun]].
  - apply initial_steps_bounded.
  - eapply (run_invariant steps_bounded); eauto using call_steps_bounded, initial_steps_bounded.
Qed.

Lemma attempt_recorded_steps (fuel : nat) (userCode language : string) done s history :
  attempt parse new_Function fuel userCode language = Some (done, s, history) ->
  List.length (timeline s) = recorded_steps history.
Proof.
  intros H. destruct (attempt_cases _ _ _ _ _ _ H) as [(-> & -> & _) | [program Hrun]].
  - reflexivity.
  - apply (run_fold (fun n c => n + match c with CallStep _ _ None => 1 | _ => 0 end)
                    (fun s => List.length (timeline s))) in Hrun.
    + rewrite Hrun, recorded_steps_fold. reflexivity.
    + intros R e s0. apply call_recorded_steps.
Qed.


(** Without a write of the stack, the seed frame stays at the bottom:
    of the stack of the tracer along the run, and of the stacks
    recorded. *)
Lemma attempt_stacks_seeded (fuel : nat) (userCode language : string) done s history :
  attempt parse new_Function fuel userCode language = Some (done, s, history) ->
  no_stack_writes history ->
  chain (fun before c after =>
           seeded (stack before) /\ seeded (stack after)
           /\ stack_transition (stack before) c (stack after)) initial history
  /\ stacks_seeded s.
Proof.
  intros Hattempt Hwrites.
  destruct (attempt_cases _ _ _ _ _ _ Hattempt) as [(-> & -> & _) | [program Hrun]].
  - split; [exact I | apply initial_stacks_seeded].
  - eapply run_chain_where; [| exact Hrun | exact Hwrites | apply initial_stacks_seeded].
    intros R ev s0 H0 Hw. destruct (call_stacks R ev s0 H0 Hw) as (H1 & H2 & H3 & H4). auto.
Qed.

(** The error step has the stack of the last step recorded, or the seed
    stack. *)
Lemma errorStep_seeded (s : State) (message : JsVal) :
  Forall (fun st => seeded (callStack st)) (timeline s) ->
  seeded (callStack (errorStep s message)).
Proof.
  intros Hsteps. unfold errorStep. simpl.
  destruct (last_step (timeline s)) as [st |] eqn:Hlast.
  - apply last_step_in in Hlast. rewrite Forall_forall in Hsteps. now apply Hsteps.
  - unfold seeded. simpl. split; [lia | reflexivity].
Qed.

(** A timeline the promise is resolved with is the timeline of the
    tracer, followed by the error step where the [try] block failed. *)
Lemma executeCode_cases (fuel : nat) (userCode language : string) (t : Timeline) :
  executeCode parse new_Function fuel userCode language = Some (Resolved t) ->
  exists done s history,
    attempt parse new_Function fuel userCode language = Some (done, s, history)
    /\ match done with
       | Normal => t = timeline s
       | Throw e => exists message, message_of e = inr message
                                    /\ has_symbol message = false
                                    /\ t = timeline s ++ [errorStep s message]
       end.
Proof.
  unfold executeCode.
  destruct (attempt parse new_Function fuel userCode language) as [[[done s] history] |];
    [| discriminate].
  intros H. exists done, s, history. split; [reflexivity |].
  destruct done as [| e].
  - now injection H as <-.
  - unfold catch, template in H. destruct (message_of e) as [thrown | message]; [discriminate |].
    destruct (has_symbol message) eqn:Hsymbol; [discriminate |].
    injection H as <-. eauto.
Qed.


(** The fuel does not show in the outcome: once an evaluation has ended,
    more fuel gives the same. *)
Lemma executeCode_more_fuel (fuel fuel' : nat) (userCode language : string) outcome :
  executeCode parse new_Function fuel userCode language = Some outcome ->
  fuel <= fuel' ->
  executeCode parse new_Function fuel' userCode language = Some outcome.
Proof.
  unfold executeCode, attempt. intros H Hle.
  destruct (Instrumenter.instrumentCode parse (codeToInstrument userCode language)) as [e | text];
    [exact H |].
  destruct (new_Function (wrappedCode text)) as [e | program]; [exact H |].
  destruct (run fuel program initial) as [result |] eqn:Hrun; [| discriminate].
  now rewrite (run_more_fuel _ _ _ _ _ Hrun Hle).
Qed.

(** C3, as the code has it.  When the program ends normally, the promise
    is resolved with the timeline as the calls of [step] built it: one
    step for each call that did not throw (none, where the program made no
    such call), none of them an error step and so not the last one
    either, and never more than 2001 of them. *)
Theorem normal_run_timeline (fuel : nat) (userCode language : string) s history :
  attempt parse new_Function fuel userCode language = Some (Normal, s, history) ->
  executeCode parse new_Function fuel userCode language = Some (Resolved (timeline s))
  /\ List.length (timeline s) = recorded_steps history
  /\ Forall (fun st => isError st = false) (timeline s)
  /\ (forall st, last_step (timeline s) = Some st -> isError st = false)
  /\ List.length (timeline s) <= 2001.
Proof.
  intros Hattempt.
  destruct (attempt_steps_bounded _ _ _ _ _ _ Hattempt) as (Herr & _ & Hmax).
  split; [| split; [| split; [| split]]].
  - unfold executeCode. now rewrite Hattempt.
  - eapply attempt_recorded_steps; eauto.
  - exact Herr.
  - intros st Hlast. apply last_step_in in Hlast.
    rewrite Forall_forall in Herr. now apply Herr.
  - exact Hmax.
Qed.

(** C4, as the code has it.  In every run in which the text leaves the
    stack of the tracer to [enter] and [exit], the stack has the seed
    frame "main" at its bottom before and after every call; [enter]
    pushes exactly one frame, [exit] pops exactly one frame unless only
    the seed frame is left, which it leaves, and no other call changes
    the stack; the call stacks of the steps recorded are the stacks
    there were at the calls of [step] that recorded them; and every step
    of a timeline the promise is resolved with, the error step too, has
    a call stack of at least one frame with "main" at the bottom. *)
Theorem call_stack_invariant (fuel : nat) (userCode language : string) done s history :
  attempt parse new_Function fuel userCode language = Some (done, s, history) ->
  no_stack_writes history ->
  chain (fun before c after =>
           seeded (stack before) /\ seeded (stack after)
           /\ stack_transition (stack before) c (stack after)) initial history
  /\ map callStack (timeline s) = recorded_stacks ["main"] (calls history)
  /\ forall t, executeCode parse new_Function fuel userCode language = Some (Resolved t) ->
               Forall (fun st => seeded (callStack st)) t.
Proof.
  intros Hattempt Hwrites.
  destruct (attempt_stacks_seeded _ _ _ _ _ _ Hattempt Hwrites) as [Hchain [Hstack Htimeline]].
  split; [exact Hchain |]. split.
  - destruct (attempt_cases _ _ _ _ _ _ Hattempt) as [(-> & -> & _) | [program Hrun]].
    + reflexivity.
    + exact (run_recorded_stacks _ _ _ _ _ _ Hrun).
  - intros t Ht.
    destruct (executeCode_cases _ _ _ _ Ht) as (done' & s' & history' & Hattempt' & Hcases).
    rewrite Hattempt in Hattempt'. injection Hattempt' as <- <- <-.
    destruct done as [| e].
    + now subst t.
    + destruct Hcases as (message & _ & _ & ->).
      apply Forall_app. split; [exact Htimeline |].
      constructor; [| constructor]. now apply errorStep_seeded.
Qed.

(** C10.  A language selector other than 'c++', 'cpp', 'python' and 'py'
    invokes no front-end: the source text is what the instrumenter gets,
    and the call does what it does for the selector 'javascript'. *)
Theorem other_selectors_are_native (fuel : nat) (userCode language : string) :
  ~ In language ["c++"; "cpp"; "python"; "py"] ->
  codeToInstrument userCode language = userCode
  /\ attempt parse new_Function fuel userCode language
     = match Instrumenter.instrumentCode parse userCode with
       | inl e => Some (Throw e, initial, [])
       | inr instrumented =>
           match new_Function (wrappedCode instrumented) with
           | inl e => Some (Throw e, initial, [])
           | inr program => run fuel program initial
           end
       end
  /\ executeCode parse new_Function fuel userCode language
     = executeCode parse new_Function fuel userCode "javascript".
Proof.
  intros Hnot.
  assert (Hcode : codeToInstrument userCode language = userCode).
  { unfold codeToInstrument.
    destruct (String.eqb language "c++") eqn:E1;
      [apply String.eqb_eq in E1; exfalso; apply Hnot; simpl; auto |].
    destruct (String.eqb language "cpp") eqn:E2;
      [apply String.eqb_eq in E2; exfalso; apply Hnot; simpl; auto |].
    destruct (String.eqb language "python") eqn:E3;
      [apply String.eqb_eq in E3; exfalso; apply Hnot; simpl; auto |].
    destruct (String.eqb language "py") eqn:E4;
      [apply String.eqb_eq in E4; exfalso; apply Hnot; simpl; auto |].
    reflexivity. }
  split; [exact Hcode |].
  split.
  - unfold attempt. now rewrite Hcode.
  - unfold executeCode, attempt. rewrite Hcode. reflexivity.
Qed.

End Driver.

(** C6, as the code has it.  The [console] of the wrapper (which a text
    that assigns to its properties no longer has) has the three methods
    [log], [error] and [warn] and no other.  A call of any of the
    three whose arguments [JSON.stringify] accepts completes normally,
    appends exactly one ConsoleLog to the accumulating log and changes
    nothing else; in all three cases its kind is 'log' and its message is
    the texts of the arguments joined by a space.  A call with an object
    among its arguments on which [JSON.stringify] throws, throws that and
    appends nothing. *)
Theorem console_methods_append_log
        (method : string) (args : list Js.JsVal) (s : Executor.State) (fuel : nat) :
  In method ["log"; "error"; "warn"] ->
  (forall other, Executor.console_method other Executor.console <> None
                 <-> In other ["log"; "error"; "warn"])
  /\ match Executor.log_error args with
     | None =>
         let s' := Spec.with_log (Executor.mkLog Executor.log_ (Executor.log_message args)) s in
         Executor.run (S (S fuel)) (Executor.console_call method args) s
         = Some (Executor.Normal, s', [(Executor.CallLog args None, s')])
     | Some e =>
         Executor.run (S (S fuel)) (Executor.console_call method args) s
         = Some (Executor.Throw e, s, [(Executor.CallLog args (Some e), s)])
     end.
Proof.
  intros Hmethod. split.
  - intros other. unfold Executor.console, Executor.console_method. split.
    + destruct (String.eqb "log" other) eqn:E1;
        [apply String.eqb_eq in E1; subst; simpl; auto |].
      destruct (String.eqb "error" other) eqn:E2;
        [apply String.eqb_eq in E2; subst; simpl; auto |].
      destruct (String.eqb "warn" other) eqn:E3;
        [apply String.eqb_eq in E3; subst; simpl; auto |].
      intros H. now contradiction H.
    + intros [<- | [<- | [<- | []]]]; discriminate.
  - assert (Hcall : Executor.console_call method args = Executor.perform_log (Executor.Log args)).
    { destruct Hmethod as [<- | [<- | [<- | []]]]; reflexivity. }
    rewrite Hcall. unfold Executor.perform_log.
    destruct (Executor.log_error args) as [e |] eqn:Herror;
      cbn; unfold Executor.log; rewrite Herror; reflexivity.
Qed.

(** ** The scenarios *)

Section OnScenarios.
Import Js Executor Spec Scenarios.

(** The body of [while(true){}] makes no call of [step], so the counter
    stays where it is and the guard of the loop never answers [true]. *)
Lemma while_true_runs_forever (fuel : nat) (s : State) :
  checkLoop s = false -> run fuel while_true_program s = None.
Proof.
  intros Hguard. induction fuel as [fuel IH] using lt_wf_ind.
  destruct fuel as [|[|fuel]]; [reflexivity | reflexivity |].
  cbn -[checkLoop]. rewrite Hguard. cbn -[checkLoop].
  change (ITree.iter (fun _ : unit => guarded (Ret (inl tt))) tt) with while_true_program.
  rewrite IH by lia. reflexivity.
Qed.

(** C2 on the code.  On the source [while(true){}] the evaluation never
    ends, whatever the fuel: [executeCode] does not settle its promise. *)
Theorem while_true_never_settles (fuel : nat) : execute fuel while_true "javascript" = None.
Proof.
  assert (Hattempt : attempt acorn_parse new_Function fuel while_true "javascript"
                     = run fuel while_true_program initial).
  { unfold attempt.
    replace (Instrumenter.instrumentCode acorn_parse (codeToInstrument while_true "javascript"))
      with (inr (A := JsVal) while_true_instrumented) by (vm_compute; reflexivity).
    replace (new_Function (wrappedCode while_true_instrumented))
      with (inr (A := JsVal) while_true_program) by (vm_compute; reflexivity).
    reflexivity. }
  unfold execute, executeCode. rewrite Hattempt.
  rewrite while_true_runs_forever; [reflexivity | vm_compute; reflexivity].
Qed.




(** C3 as stated fails.  The empty source ends normally and its timeline
    is empty; and a program can end normally with 2001 steps, one more
    than 2000: here the guard of the loop ends the loop after the 2001st
    step, before a call of [step] could throw. *)
Lemma normal_run_counterexample :
  (completion_of (attempt acorn_parse new_Function 100 "" "javascript") = Some Normal
   /\ execute 100 "" "javascript" = Some (Resolved []))
  /\ (completion_of (attempt acorn_parse new_Function 30000 busy_loop "javascript") = Some Normal
      /\ exists t, execute 30000 busy_loop "javascript" = Some (Resolved t)
                   /\ List.length t = 2001
                   /\ Forall (fun st => isError st = false) t).
Proof.
  split; [split; vm_compute; reflexivity |].
  split; [vm_compute; reflexivity |].
  assert (H : match execute 30000 busy_loop "javascript" with
              | Some (Resolved t) =>
                  (List.length t =? 2001) && forallb (fun st => negb (isError st)) t
              | _ => false
              end = true) by (vm_compute; reflexivity).
  destruct (execute 30000 busy_loop "javascript") as [[t | e] |]; try discriminate.
  apply andb_prop in H. destruct H as [Hlen Herr].
  exists t. split; [reflexivity |]. split; [now apply Nat.eqb_eq |].
  apply Forall_forall. intros st Hin. rewrite forallb_forall in Herr.
  specialize (Herr st Hin). now destruct (isError st).
Qed.

Lemma normal_run_timeline_witness :
  exists s history,
    attempt acorn_parse new_Function 100 console_calls "javascript" = Some (Normal, s, history)
    /\ execute 100 console_calls "javascript" = Some (Resolved (timeline s))
    /\ List.length (timeline s) = 3
    /\ Forall (fun st => isError st = false) (timeline s).
Proof.
  compute_attempt E.
  pose proof E as E'. vm_compute in E'. injection E' as Hd Hs _.
  subst done.
  destruct (normal_run_timeline acorn_parse new_Function 100 console_calls "javascript"
                                s history E) as (Hexec & _ & Herr & _ & _).
  exists s, history. repeat split; try assumption.
  rewrite <- Hs. reflexivity.
Defined.

Lemma call_stack_invariant_witness :
  exists done s history t,
    attempt acorn_parse new_Function 100 call_then_throw "javascript" = Some (done, s, history)
    /\ no_stack_writes history
    /\ execute 100 call_then_throw "javascript" = Some (Resolved t)
    /\ map callStack (timeline s) = [["main"; "f"]; ["main"]]
    /\ recorded_stacks ["main"] (calls history) = [["main"; "f"]; ["main"]]
    /\ Forall (fun st => seeded (callStack st)) t.
Proof.
  assert (Ht : exists t, execute 100 call_then_throw "javascript" = Some (Resolved t)).
  { destruct (execute 100 call_then_throw "javascript") as [[t | e] |] eqn:E;
      [eauto | vm_compute in E; discriminate E | vm_compute in E; discriminate E]. }
  destruct Ht as (t & Hexec).
  assert (Ha : exists done s history,
             attempt acorn_parse new_Function 100 call_then_throw "javascript"
             = Some (done, s, history)
             /\ no_stack_writes history
             /\ map callStack (timeline s) = [["main"; "f"]; ["main"]]).
  { compute_attempt E. pose proof E as E'. vm_compute in E'. injection E' as Hd Hs Hh.
    exists done, s, history. split; [reflexivity |].
    rewrite <- Hs, <- Hh. split; [repeat constructor | reflexivity]. }
  destruct Ha as (done & s & history & E & Hwrites & Hstacks).
  destruct (call_stack_invariant acorn_parse new_Function 100 call_then_throw "javascript"
                                 done s history E Hwrites) as (_ & Hrecorded & Hall).
  exists done, s, history, t. repeat split; try assumption.
  - now rewrite <- Hrecorded.
  - apply Hall, Hexec.
Defined.

(** C4 as stated fails.  The text holds the tracer object and can write
    its stack: a text that pops it before its first statement is traced
    leaves no frame, and both steps of the timeline have an empty call
    stack. *)
Lemma stack_write_counterexample :
  Instrumenter.instrumentCode acorn_parse stack_pop = inr stack_pop_instrumented
  /\ option_map (map callStack) (resolved (execute 100 stack_pop "javascript"))
     = Some [[]; []]
  /\ option_map (map isError) (resolved (execute 100 stack_pop "javascript"))
     = Some [false; false].
Proof. repeat split; vm_compute; reflexivity. Qed.

(** C5 on the code.  For a function whose body is empty, the offset after
    the opening brace is the offset before the closing one: the two
    patches of the function are spliced at one offset, the second before
    the first, and the instrumented text has the [finally] clause in front
    of the call of [enter] and of the [try].  The text is not a program:
    nothing is evaluated, and the run ends with the syntax error. *)
Theorem empty_function_body_unwrapped :
  Instrumenter.instrumentCode acorn_parse empty_function
  = inr ("function f(){ } finally { __tracer.exit(); }  __tracer.enter("
         +++ dq +++ "f" +++ dq +++ "); try { }")
  /\ execute 100 empty_function "javascript"
     = Some (Resolved [mkStep 0 (VObj []) ["main"]
                              [mkLog error_ "Runtime Error: Unexpected token 'finally' "]
                              true (VStr "Unexpected token 'finally'")]).
Proof. split; vm_compute; reflexivity. Qed.

(** C6 as stated fails.  The three calls [console.log('a')],
    [console.error('b')] and [console.warn('c')] leave three console
    entries of the kind 'log'. *)
Lemma console_kinds_counterexample :
  final_console (execute 100 console_calls "javascript")
  = Some [mkLog log_ "a"; mkLog log_ "b"; mkLog log_ "c"].
Proof. vm_compute. reflexivity. Qed.

Lemma console_methods_append_log_witness :
  In "log" ["log"; "error"; "warn"]
  /\ option_map (fun r => currentLogs (snd (fst r)))
                (run 2 (console_call "log" [VStr "b"; VNull]) initial)
     = Some [mkLog log_ "b null"]
  /\ option_map (fun r => currentLogs (snd (fst r)))
                (run 2 (console_call "error" [VStr "b"; VNull]) initial)
     = Some [mkLog log_ "b null"]
  /\ option_map (fun r => currentLogs (snd (fst r)))
                (run 2 (console_call "warn" [VStr "b"; VNull]) initial)
     = Some [mkLog log_ "b null"]
  /\ option_map (fun r => (fst (fst r), currentLogs (snd (fst r))))
                (run 2 (console_call "warn" [VStr "b"; VCyclic]) initial)
     = Some (Throw (TypeError "Converting circular structure to JSON"), []).
Proof.
  assert (Hlog : In "log" ["log"; "error"; "warn"]) by (simpl; auto).
  assert (Herror : In "error" ["log"; "error"; "warn"]) by (simpl; auto).
  assert (Hwarn : In "warn" ["log"; "error"; "warn"]) by (simpl; auto).
  pose proof (proj2 (console_methods_append_log "log" [VStr "b"; VNull] initial 0 Hlog)) as H1.
  pose proof (proj2 (console_methods_append_log "error" [VStr "b"; VNull] initial 0 Herror)) as H2.
  pose proof (proj2 (console_methods_append_log "warn" [VStr "b"; VNull] initial 0 Hwarn)) as H3.
  pose proof (proj2 (console_methods_append_log "warn" [VStr "b"; VCyclic] initial 0 Hwarn)) as H4.
  cbv beta iota zeta delta [log_error is_object json_error] in H1, H2, H3, H4.
  rewrite H1, H2, H3, H4. repeat split; try assumption; vm_compute; reflexivity.
Defined.

(** C7 as stated fails.  The front-end leaves a loop written on one line
    as it is, but for [print]; the text is not a program of the target
    syntax, and the timeline is the error step of the parser alone.  With
    the body on a line of its own the loop runs, and no step records the
    variable of the loop: the variables of the three steps are empty. *)
Lemma python_range_counterexample :
  PythonTranspiler.transpilePythonToJs python_range_one_line = "for i in range(3): console.log(i)"
  /\ execute 100 python_range_one_line "python"
     = Some (Resolved [mkStep 0 (VObj []) ["main"]
                              [mkLog error_ "Runtime Error: Unexpected token (1:4) "]
                              true (VStr "Unexpected token (1:4)")])
  /\ option_map (map variables) (resolved (execute 100 python_range "python"))
     = Some [VObj []; VObj []; VObj []].
Proof. repeat split; vm_compute; reflexivity. Qed.

(** C7, as the code has it.  For the Python source [for i in range(3):]
    with [print(i)] indented on the next line, the front-end gives a
    counted loop, the console output of the run is "0", "1", "2" in that
    order, and the timeline has three steps, one for each turn of the
    loop, on line 2, none an error step, with the console output as it was
    after that turn. *)
Theorem python_range_two_lines :
  PythonTranspiler.transpilePythonToJs python_range
  = "for (let i = 0; i < 3; i++) {" +++ nl +++ "    console.log(i)" +++ nl +++ "}"
  /\ option_map messages (final_console (execute 100 python_range "python"))
     = Some ["0"; "1"; "2"]
  /\ option_map (map (fun st => (line st, isError st, messages (consoleOutput st))))
                (resolved (execute 100 python_range "python"))
     = Some [(2, false, ["0"]); (2, false, ["0"; "1"]); (2, false, ["0"; "1"; "2"])].
Proof. repeat split; vm_compute; reflexivity. Qed.

(** C8 on the code.  The declaration of [v] becomes a literal of three
    elements, [size()] becomes [length] and [endl] is dropped; but the
    phase of the math functions then rewrites the [log(] of [console.log(]
    into [Math.log(].  The statement that should print calls
    [console.Math.log], which does not exist: the run ends with a type
    error after the step of the declaration, and the console holds the
    message of the error, not "3". *)
Theorem cpp_vector_output_lost :
  CppTranspiler.transpileCppToJs cpp_vector = "let v = [1,2,3]; console.Math.log(v.length);"
  /\ execute 100 cpp_vector "cpp"
     = Some (Resolved
               [mkStep 1 (VObj [("v", VArr [VNum 1; VNum 2; VNum 3])]) ["main"] [] false VUndefined;
                mkStep 1 (VObj [("v", VArr [VNum 1; VNum 2; VNum 3])]) ["main"]
                       [mkLog error_
                          "Runtime Error: Cannot read properties of undefined (reading 'log') "]
                       true (VStr "Cannot read properties of undefined (reading 'log')")])
  /\ option_map messages (final_console (execute 100 cpp_vector "cpp")) <> Some ["3"].
Proof. repeat split; try (vm_compute; reflexivity). vm_compute. discriminate. Qed.

Lemma other_selectors_are_native_witness :
  ~ In "typescript" ["c++"; "cpp"; "python"; "py"]
  /\ execute 100 console_calls "typescript" = execute 100 console_calls "javascript".
Proof.
  assert (H : ~ In "typescript" ["c++"; "cpp"; "python"; "py"]).
  { simpl. intros [H | [H | [H | [H | []]]]]; discriminate H. }
  split; [exact H |].
  exact (proj2 (proj2 (other_selectors_are_native acorn_parse new_Function 100
                                                    console_calls "typescript" H))).
Defined.

End OnScenarios.

(* ===================================================================== *)
(** * Further properties *)
(* ===================================================================== *)

(** Properties of the code that the specification does not state, read
    off the source: of the tracer and the driver, of the instrumenter, of
    the two front-ends, and of the panels and the player that show a
    timeline. *)

(** ** The tracer along a run *)

Section MoreRuns.
Import Js Executor Spec.

Lemma call_inputs (R : Type) (e : tracerE R) (s : State) :
  match snd (call e s) with
  | CallInput v =>
      v = VNum (nth (_inputIndex s mod 10) _inputValues 0%Z)
      /\ _inputIndex (snd (fst (call e s))) = S (_inputIndex s)
  | _ => _inputIndex (snd (fst (call e s))) = _inputIndex s
  end.
Proof. call_cases e s; auto. Qed.

(** X1.  [tracer.input] hands out the ten seeded values in their order
    and starts again at the first after the last: in every run, the calls
    of [input] return the values at the indices [_inputIndex],
    [_inputIndex + 1], ... taken modulo ten, and the index has advanced by
    the number of calls. *)
Theorem input_values_cycle (fuel : nat) (p : Program) (s : State) done s' history :
  run fuel p s = Some (done, s', history) ->
  inputs history
  = map (fun k => VNum (nth (k mod 10) _inputValues 0%Z))
        (List.seq (_inputIndex s) (List.length (inputs history)))
  /\ _inputIndex s' = _inputIndex s + List.length (inputs history).
Proof.
  revert p s done s' history.
  induction fuel as [|fuel IH]; intros p s done s' history Hrun; [discriminate |].
  simpl in Hrun. destruct (observe p) as [c | p' | R e k].
  - injection Hrun as <- <- <-. simpl. split; [reflexivity | lia].
  - eapply IH; eauto.
  - pose proof (call_inputs R e s) as Hcall.
    destruct (call e s) as [[r s1] c1]. simpl in Hcall.
    destruct (run fuel (k r) s1) as [[[d s2] h] |] eqn:Hrest; [| discriminate].
    injection Hrun as <- <- <-.
    destruct (IH _ _ _ _ _ Hrest) as [Hin Hidx].
    unfold inputs, calls in *. simpl.
    destruct c1; simpl; try (rewrite Hcall in *; auto).
    destruct Hcall as [-> Hnext]. rewrite Hnext in *. split.
    + f_equal. exact Hin.
    + lia.
Qed.

Lemma input_values_cycle_witness :
  exists done s history,
    run 100 Scenarios.eleven_inputs initial = Some (done, s, history)
    /\ inputs history = map VNum [5; 10; 3; 7; 1; 42; 100; 0; -1; 99; 5]%Z
    /\ _inputIndex s = 11.
Proof.
  destruct (run 100 Scenarios.eleven_inputs initial) as [[[done s] history] |] eqn:E;
    [| vm_compute in E; discriminate E].
  exists done, s, history. split; [reflexivity |].
  destruct (input_values_cycle _ _ _ _ _ _ E) as [Hvalues Hindex].
  vm_compute in E. injection E as <- <- <-.
  split; reflexivity.
Defined.









Lemma call_over_budget (R : Type) (e : tracerE R) (s : State) :
  (MAX_STEPS < stepCount s ->
   MAX_STEPS < stepCount (snd (fst (call e s))) /\ over_budget (snd (call e s)))
  /\ (snd (call e s) = CallCheckLoop true -> MAX_STEPS < stepCount (snd (fst (call e s)))).
Proof.
  call_cases e s; (split; [intros H | try discriminate]).
  all: try (apply Nat.ltb_ge in Heqb; lia).
  all: try (split; [lia | first [exact Logic.I | reflexivity | now apply Nat.ltb_lt]]).
  intros [= Hc]. now apply Nat.ltb_lt.
Qed.

Lemma chain_over_budget (h : History) (s : State) :
  chain (fun before c after =>
           MAX_STEPS < stepCount before -> MAX_STEPS < stepCount after /\ over_budget c) s h ->
  MAX_STEPS < stepCount s ->
  Forall (fun entry => over_budget (fst entry)) h.
Proof.
  revert s. induction h as [|[c s1] h IH]; intros s Hchain Hs; simpl in *.
  - constructor.
  - destruct Hchain as [Hc Hrest]. destruct (Hc Hs) as [H1 Hover].
    constructor; [exact Hover | eapply IH; eauto].
Qed.

(** X3.  The budget, once spent, stays spent: in every run, after a call
    of [step] that found the budget spent and threw, or a call of
    [checkLoop] that answered [true], every later call of [step] throws
    the error of the budget and every later call of [checkLoop] answers
    [true]. *)
Theorem budget_error_is_permanent (fuel : nat) (p : Program) (s : State) done s' history :
  run fuel p s = Some (done, s', history) ->
  forall earlier entry later,
    history = earlier ++ entry :: later ->
    step_over_budget entry \/ fst entry = CallCheckLoop true ->
    Forall (fun entry => over_budget (fst entry)) later.
Proof.
  intros Hrun.
  apply (run_chain (fun _ => True)
           (fun before c after =>
              (MAX_STEPS < stepCount before -> MAX_STEPS < stepCount after /\ over_budget c)
              /\ (step_over_budget (c, after) \/ c = CallCheckLoop true ->
                  MAX_STEPS < stepCount after))) in Hrun; [| | exact Logic.I].
  - destruct Hrun as [Hchain _]. clear done s' fuel p.
    intros earlier. revert s history Hchain.
    induction earlier as [|[c0 s0] earlier IH]; intros s history Hchain [c after] later -> Hc;
      simpl in Hchain.
    + destruct Hchain as [[_ Hthrown] Hrest].
      apply chain_over_budget with (s := after); [| auto].
      clear - Hrest. revert after Hrest.
      induction later as [|[c1 s1] later IH]; intros after Hrest; simpl in *; [exact Logic.I |].
      destruct Hrest as [[H1 _] H2]. split; [exact H1 | apply IH, H2].
    + destruct Hchain as [_ Hrest]. eapply IH; eauto.
  - intros R e s0 _. split; [exact Logic.I |].
    destruct (call_over_budget R e s0) as (H1 & H2).
    split; [exact H1 |].
    intros [Hover | Hc]; [| auto].
    unfold step_over_budget in Hover. cbn [fst snd] in Hover.
    destruct (snd (call e s0)) as [| | | ? ? [error |] | | | |]; try contradiction. lia.
Qed.

Lemma budget_error_is_permanent_witness :
  exists done s' first second third,
    run 10 Scenarios.three_steps Scenarios.budget_reached
    = Some (done, s', [first; second; third])
    /\ fst first = CallStep 1 (VObj []) None
    /\ step_over_budget second
    /\ Forall (fun entry => over_budget (fst entry)) [third].
Proof.
  destruct (run 10 Scenarios.three_steps Scenarios.budget_reached)
    as [[[done s'] history] |] eqn:E; [| vm_compute in E; discriminate E].
  pose proof (budget_error_is_permanent _ _ _ _ _ _ E) as H.
  vm_compute in E. injection E as <- <- <-.
  assert (Hover : step_over_budget
                    (CallStep 2 (VObj []) (Some limit_error),
                     mkState [mkStep 1 (VObj []) ["main"] [] false VUndefined] [] 1
                             (S (S MAX_STEPS)) ["main"] 1 0)).
  { unfold step_over_budget. cbn [fst snd stepCount]. lia. }
  do 5 eexists. split; [reflexivity |]. split; [reflexivity |]. split; [exact Hover |].
  eapply (H [_]); [reflexivity |]. left. exact Hover.
Defined.



End MoreRuns.

(** ** Values made safe for a snapshot *)

Section Values.
Import Js.

Variable P : JsVal -> Prop.
Hypothesis Hbase : forall v, match v with VArr _ | VObj _ => False | _ => True end -> P v.
Hypothesis HArr : forall items, Forall P items -> P (VArr items).
Hypothesis HObj : forall props, Forall (fun kv => P (snd kv)) props -> P (VObj props).

(** Induction on a value, through its arrays and objects. *)
Lemma JsVal_nested_ind : forall v, P v.
Proof.
  fix IH 1. intros v.
  destruct v as [ | | b | z | | s | items | props | n msg | src | z | d | | thrown];
    try (apply Hbase; exact Logic.I).
  - apply HArr. induction items as [|x items IHitems]; constructor; [apply IH | exact IHitems].
  - apply HObj. induction props as [|[k x] props IHprops]; constructor; [apply IH | exact IHprops].
Qed.

End Values.

Section SafeVars.
Import Js Spec.

Lemma plain_fixed (v : JsVal) : plain v = true -> safeVars v = v.
Proof.
  induction v as [v Hv | items IH | props IH] using JsVal_nested_ind.
  - destruct v; try contradiction; simpl; try reflexivity; discriminate.
  - simpl. intros H. f_equal.
    induction items as [|x items IHitems]; [reflexivity |].
    simpl in H. apply andb_prop in H. destruct H as [Hx Hitems].
    inversion IH as [|? ? IHx IHrest]; subst.
    cbn [map]. f_equal; [| now apply IHitems].
    specialize (IHx Hx). destruct x; try discriminate Hx; exact IHx.
  - simpl. intros H. f_equal.
    induction props as [|[k x] props IHprops]; [reflexivity |].
    simpl in H. apply andb_prop in H. destruct H as [Hx Hprops].
    inversion IH as [|? ? IHx IHrest]; subst. simpl in IHx.
    specialize (IHx Hx). specialize (IHprops IHrest Hprops).
    destruct x; try discriminate Hx; rewrite IHprops; f_equal; f_equal; exact IHx.
Qed.

(** What [JSON.stringify] does not throw on has a plain copy, as a
    property of an object or an element of an array too, where a symbol
    is [null]. *)
Lemma copy_is_plain (v : JsVal) :
  json_error v = None ->
  plain (match v with VSymbol _ => VNull | _ => safeVars v end) = true.
Proof.
  induction v as [v Hv | items IH | props IH] using JsVal_nested_ind.
  - destruct v; try contradiction; try reflexivity; discriminate.
  - simpl. induction items as [|x items IHitems]; [reflexivity |].
    inversion IH as [|? ? IHx IHrest]; subst.
    destruct (json_error x) eqn:Hx; [discriminate |]. intros Hitems.
    cbn [map forallb]. rewrite (IHx eq_refl). now apply IHitems.
  - simpl. induction props as [|[k x] props IHprops]; [reflexivity |].
    inversion IH as [|? ? IHx IHrest]; subst. simpl in IHx.
    destruct (json_error x) eqn:Hx; [discriminate |]. intros Hprops.
    specialize (IHx eq_refl). specialize (IHprops IHrest Hprops).
    destruct x; try exact IHprops; cbn [plain] in *; rewrite IHx; exact IHprops.
Qed.

Lemma safeVars_is_plain (v : JsVal) : roundtrip_error v = None -> plain (safeVars v) = true.
Proof.
  unfold roundtrip_error. destruct (json_error v) eqn:Hv; [discriminate |].
  intros H. pose proof (copy_is_plain v Hv) as Hcopy.
  destruct v; try exact Hcopy. discriminate H.
Qed.

(** Plain data is copied without a throw. *)
Lemma plain_roundtrip (v : JsVal) : plain v = true -> roundtrip_error v = None.
Proof.
  assert (H : plain v = true -> json_error v = None).
  { induction v as [v Hv | items IH | props IH] using JsVal_nested_ind.
    - destruct v; try contradiction; try reflexivity; discriminate.
    - simpl. induction items as [|x items IHitems]; [reflexivity |].
      inversion IH as [|? ? IHx IHrest]; subst.
      intros H. apply andb_prop in H. destruct H as [Hx Hitems].
      rewrite (IHx Hx). now apply IHitems.
    - simpl. induction props as [|[k x] props IHprops]; [reflexivity |].
      inversion IH as [|? ? IHx IHrest]; subst. simpl in IHx.
      intros H. apply andb_prop in H. destruct H as [Hx Hprops].
      rewrite (IHx Hx). now apply IHprops. }
  intros Hplain. unfold roundtrip_error. rewrite (H Hplain).
  destruct v; try reflexivity. discriminate Hplain.
Qed.

(** X5.  The variables [step] records are plain data: wherever the copy
    of what the program passes does not throw, it has no function, no
    [undefined], no [NaN], no error object and no symbol at any depth;
    copying it again changes nothing, and does not throw; and it has a
    JSON text. *)
Theorem safeVars_plain_and_idempotent (v : JsVal) :
  roundtrip_error v = None ->
  plain (safeVars v) = true
  /\ safeVars (safeVars v) = safeVars v
  /\ roundtrip_error (safeVars v) = None
  /\ stringify (safeVars v) <> None.
Proof.
  intros Hv. pose proof (safeVars_is_plain v Hv) as H.
  split; [exact H |].
  split; [now apply plain_fixed |].
  split; [now apply plain_roundtrip |].
  destruct (safeVars v); try discriminate; simpl; try destruct b; discriminate.
Qed.

Lemma safeVars_plain_and_idempotent_witness :
  roundtrip_error Scenarios.mixed_vars = None
  /\ safeVars Scenarios.mixed_vars
     = VObj [("f", VStr "[Function]");
             ("a", VArr [VNull; VStr "undefined"; VStr "NaN"; VNum 1])]
  /\ plain (safeVars Scenarios.mixed_vars) = true
  /\ roundtrip_error (VObj [("n", VBigInt 1)]) <> None.
Proof.
  assert (H : roundtrip_error Scenarios.mixed_vars = None) by reflexivity.
  split; [exact H |]. split; [reflexivity |].
  split; [exact (proj1 (safeVars_plain_and_idempotent _ H)) | discriminate].
Defined.

End SafeVars.

(** ** The timeline the promise is resolved with *)

Section MoreDriver.
Import Js Executor Spec.

Variable parse : string -> JsVal + Instrumenter.Node.
Variable new_Function : string -> JsVal + Program.

Lemma begins_refl {A : Type} (l : list A) : begins l l.
Proof. exists []. now rewrite app_nil_r. Qed.

Lemma begins_app {A : Type} (l1 l2 more : list A) : begins l1 l2 -> begins l1 (l2 ++ more).
Proof. intros [m ->]. exists (m ++ more). now rewrite app_assoc. Qed.

Lemma StronglySorted_snoc {A : Type} (R : A -> A -> Prop) (l : list A) (x : A) :
  StronglySorted R l -> Forall (fun a => R a x) l -> StronglySorted R (l ++ [x]).
Proof.
  induction 1 as [|a l Hl IH Ha]; intros Hx; simpl.
  - repeat constructor.
  - inversion Hx as [|? ? Hax Hlx]; subst.
    constructor; [now apply IH |].
    apply Forall_app. split; [exact Ha | now constructor].
Qed.

Lemma logs_kept_append (s : State) (more : list ConsoleLog) :
  Forall (fun st => begins (consoleOutput st) (currentLogs s)) (timeline s) ->
  Forall (fun st => begins (consoleOutput st) (currentLogs s ++ more)) (timeline s).
Proof. apply Forall_impl. intros st. apply begins_app. Qed.

Lemma call_logs_kept (R : Type) (e : tracerE R) (s : State) :
  logs_kept s -> logs_kept (snd (fst (call e s))).
Proof.
  unfold logs_kept, console_grows. intros [Hsorted Hlogs].
  call_cases e s; auto; try (split; [exact Hsorted | now apply logs_kept_append]).
  split.
  - apply StronglySorted_snoc; assumption.
  - apply Forall_app. split; [exact Hlogs |].
    constructor; [apply begins_refl | constructor].
Qed.

(** What the tracer keeps from call to call holds of the state the [try]
    block ends in. *)
Lemma attempt_invariant (I : State -> Prop) :
  I initial ->
  (forall (R : Type) (e : tracerE R) (s : State), I s -> I (snd (fst (call e s)))) ->
  forall fuel userCode language done s history,
    attempt parse new_Function fuel userCode language = Some (done, s, history) -> I s.
Proof.
  intros Hinit Hcall fuel userCode language done s history H.
  destruct (attempt_cases _ _ _ _ _ _ _ _ H) as [(-> & _ & _) | [program Hrun]].
  - exact Hinit.
  - eapply (run_invariant I); eauto.
Qed.

(** X6.  The console output only grows along a timeline: the output of
    each step, the error step too, begins with the whole output of every
    step before it. *)
Theorem console_output_grows (fuel : nat) (userCode language : string) (t : Timeline) :
  executeCode parse new_Function fuel userCode language = Some (Resolved t) ->
  console_grows t.
Proof.
  intros H. destruct (executeCode_cases _ _ _ _ _ _ H) as (done & s & history & Hattempt & Ht).
  assert (Hkept : logs_kept s).
  { eapply (attempt_invariant logs_kept); eauto using call_logs_kept.
    split; constructor. }
  destruct Hkept as [Hsorted Hlogs].
  destruct done as [| e].
  - now subst.
  - destruct Ht as (message & _ & _ & ->).
    apply StronglySorted_snoc; [exact Hsorted |].
    unfold errorStep. simpl. now apply logs_kept_append.
Qed.

Lemma call_log_only (R : Type) (e : tracerE R) (s : State) :
  log_only s -> log_only (snd (fst (call e s))).
Proof.
  unfold log_only. intros [Hlogs Hsteps].
  call_cases e s; auto;
    try (split; [| exact Hsteps]; apply Forall_app; split; [exact Hlogs | repeat constructor]).
  split; [exact Hlogs |].
  apply Forall_app. split; [exact Hsteps | repeat constructor; exact Hlogs].
Qed.

Lemma resolved_kinds (fuel : nat) (userCode language : string) (t : Timeline) :
  executeCode parse new_Function fuel userCode language = Some (Resolved t) ->
  Forall kinds_of_step t.
Proof.
  intros H. destruct (executeCode_cases _ _ _ _ _ _ H) as (done & s & history & Hattempt & Ht).
  assert (Honly : log_only s).
  { eapply (attempt_invariant log_only); eauto using call_log_only.
    split; constructor. }
  destruct Honly as [Hlogs Hsteps].
  assert (Hold : Forall kinds_of_step (timeline s)).
  { eapply Forall_impl; [| exact Hsteps].
    intros st [Herr Hst]. unfold kinds_of_step. now rewrite Herr. }
  destruct done as [| e].
  - now subst.
  - destruct Ht as (message & _ & _ & ->).
    apply Forall_app. split; [exact Hold |].
    constructor; [| constructor].
    unfold kinds_of_step, errorStep. simpl.
    exists (currentLogs s), (String_ message +++ " "). split; [reflexivity | exact Hlogs].
Qed.

(** X7.  Of the three kinds a ConsoleLog can have, a timeline holds two:
    every entry of every step is of kind 'log', except the last entry of
    an error step, which is the one entry of kind 'error' and reads
    "Runtime Error: ..."; no entry is of kind 'warn', whatever the
    program called. *)
Theorem console_kinds (fuel : nat) (userCode language : string) (t : Timeline) :
  executeCode parse new_Function fuel userCode language = Some (Resolved t) ->
  Forall kinds_of_step t
  /\ Forall (fun st => Forall (fun l => type l <> warn_) (consoleOutput st)) t.
Proof.
  intros H. apply resolved_kinds in H. split; [exact H |].
  eapply Forall_impl; [| exact H].
  intros st. unfold kinds_of_step. destruct (isError st).
  - intros (logs & text & -> & Hlogs). apply Forall_app. split.
    + eapply Forall_impl; [| exact Hlogs]. intros l ->. discriminate.
    + repeat constructor. discriminate.
  - apply Forall_impl. intros l ->. discriminate.
Qed.

(** The values whose message cannot be read. *)
Lemma message_unreadable (e thrown : JsVal) :
  message_of e = inl thrown ->
  e = VNull \/ e = VUndefined \/ exists thrown, e = VGetter thrown.
Proof. destruct e; try discriminate; eauto. Qed.


(** X9.  Every step of a timeline the promise is resolved with, the error
    step too, holds variables that are plain data. *)
Theorem recorded_variables_plain (fuel : nat) (userCode language : string) (t : Timeline) :
  executeCode parse new_Function fuel userCode language = Some (Resolved t) ->
  Forall (fun st => plain (variables st) = true) t.
Proof.
  intros H. destruct (executeCode_cases _ _ _ _ _ _ H) as (done & s & history & Hattempt & Ht).
  assert (Hplain : Forall (fun st => plain (variables st) = true) (timeline s)).
  { eapply (attempt_invariant
              (fun s => Forall (fun st => plain (variables st) = true) (timeline s)));
      [constructor | | exact Hattempt].
    intros R e s0 H0.
    call_cases e s0; auto.
    apply Forall_app. split; [exact H0 |]. constructor; [| constructor].
    now apply safeVars_is_plain. }
  destruct done as [| e]; [now subst |].
  destruct Ht as (message & _ & _ & ->).
  apply Forall_app. split; [exact Hplain |]. constructor; [| constructor].
  unfold errorStep. simpl.
  destruct (last_step (timeline s)) as [st |] eqn:Hlast; [| reflexivity].
  apply last_step_in in Hlast. rewrite Forall_forall in Hplain. now apply Hplain.
Qed.

(** Without a write of the stack, the steps of a timeline the promise is
    resolved with have the seed frame at the bottom of their stacks. *)
Lemma resolved_stacks_seeded (fuel : nat) (userCode language : string) done s history
      (t : Timeline) :
  attempt parse new_Function fuel userCode language = Some (done, s, history) ->
  no_stack_writes history ->
  executeCode parse new_Function fuel userCode language = Some (Resolved t) ->
  Forall (fun st => seeded (callStack st)) t.
Proof.
  intros Hattempt Hwrites H.
  destruct (attempt_stacks_seeded _ _ _ _ _ _ _ _ Hattempt Hwrites) as [_ [_ Hsteps]].
  destruct (executeCode_cases _ _ _ _ _ _ H) as (done' & s' & history' & Hattempt' & Ht).
  rewrite Hattempt in Hattempt'. injection Hattempt' as <- <- <-.
  destruct done as [| e]; [now subst |].
  destruct Ht as (message & _ & _ & ->).
  apply Forall_app. split; [exact Hsteps |].
  constructor; [| constructor]. now apply errorStep_seeded.
Qed.

End MoreDriver.

Section OnResolvedTimelines.
Import Js Executor Spec Scenarios.

Lemma console_output_grows_witness :
  exists t,
    executeCode acorn_parse new_Function 100 console_calls "javascript" = Some (Resolved t)
    /\ console_grows t
    /\ map (fun st => messages (consoleOutput st)) t = [["a"]; ["a"; "b"]; ["a"; "b"; "c"]].
Proof.
  destruct (executeCode acorn_parse new_Function 100 console_calls "javascript")
    as [[t | e] |] eqn:E; [| vm_compute in E; discriminate E | vm_compute in E; discriminate E].
  exists t. split; [reflexivity |].
  split; [exact (console_output_grows _ _ _ _ _ _ E) |].
  vm_compute in E. injection E as <-. reflexivity.
Defined.

Lemma console_kinds_witness :
  exists t,
    executeCode acorn_parse new_Function 100 call_then_throw "javascript" = Some (Resolved t)
    /\ Forall kinds_of_step t
    /\ Forall (fun st => Forall (fun l => type l <> warn_) (consoleOutput st)) t.
Proof.
  destruct (executeCode acorn_parse new_Function 100 call_then_throw "javascript")
    as [[t | e] |] eqn:E; [| vm_compute in E; discriminate E | vm_compute in E; discriminate E].
  exists t. split; [reflexivity |].
  exact (console_kinds _ _ _ _ _ _ E).
Defined.


Lemma recorded_variables_plain_witness :
  exists t,
    executeCode acorn_parse new_Function 100 call_then_throw "javascript" = Some (Resolved t)
    /\ Forall (fun st => plain (variables st) = true) t
    /\ option_map variables (hd_error t)
       = Some (VObj [("f", VStr "[Function]"); ("a", VNum 1)]).
Proof.
  destruct (executeCode acorn_parse new_Function 100 call_then_throw "javascript")
    as [[t | e] |] eqn:E; [| vm_compute in E; discriminate E | vm_compute in E; discriminate E].
  exists t. split; [reflexivity |].
  split; [exact (recorded_variables_plain _ _ _ _ _ _ E) |].
  vm_compute in E. injection E as <-. reflexivity.
Defined.

End OnResolvedTimelines.

(** ** The scopes and the patches of the instrumenter *)

Section Scopes.
Import Instrumenter.

Lemma set_add_in (v x : string) (set : list string) :
  In x (set_add v set) <-> x = v \/ In x set.
Proof.
  unfold set_add. destruct (existsb (String.eqb v) set) eqn:E.
  - split; [auto |]. intros [-> | H]; [| exact H].
    apply existsb_exists in E. destruct E as (y & Hy & Heq).
    apply String.eqb_eq in Heq. now subst.
  - rewrite in_app_iff. simpl. split.
    + intros [H | [<- | []]]; auto.
    + intros [-> | H]; auto.
Qed.

Lemma set_add_nodup (v : string) (set : list string) : NoDup set -> NoDup (set_add v set).
Proof.
  unfold set_add. intros H. destruct (existsb (String.eqb v) set) eqn:E; [exact H |].
  apply NoDup_app; [exact H | repeat constructor; intros [] |].
  intros x Hx [Heq | []]. subst x.
  assert (Hex : existsb (String.eqb v) set = true).
  { apply existsb_exists. exists v. split; [exact Hx | apply String.eqb_refl]. }
  congruence.
Qed.

Lemma add_frame (frame vars : list string) :
  NoDup vars ->
  NoDup (fold_left (fun vars v => set_add v vars) frame vars)
  /\ forall x, In x (fold_left (fun vars v => set_add v vars) frame vars) <-> In x vars \/ In x frame.
Proof.
  revert vars. induction frame as [|v frame IH]; intros vars Hvars; simpl.
  - split; [exact Hvars | tauto].
  - destruct (IH (set_add v vars) (set_add_nodup v vars Hvars)) as [Hnd Hin].
    split; [exact Hnd |]. intros x. rewrite Hin, set_add_in. intuition congruence.
Qed.

Lemma add_frames (frames : list (list string)) (vars : list string) :
  NoDup vars ->
  let all := fold_left (fun vars frame => fold_left (fun vars v => set_add v vars) frame vars)
                       frames vars in
  NoDup all
  /\ forall x, In x all <-> In x vars \/ exists frame, In frame frames /\ In x frame.
Proof.
  revert vars. induction frames as [|frame frames IH]; intros vars Hvars; simpl.
  - split; [exact Hvars |]. intros x. split; [auto |]. intros [H | (f & [] & _)]. exact H.
  - destruct (add_frame frame vars Hvars) as [Hnd Hin].
    destruct (IH _ Hnd) as [Hnd' Hin']. split; [exact Hnd' |].
    intros x. rewrite Hin', Hin. split.
    + intros [[H | H] | (f & Hf & Hx)]; eauto.
    + intros [H | (f & [<- | Hf] & Hx)]; eauto.
Qed.

(** X10.  The variables a trace call captures are the names of all the
    frames of the scope stack, each once: [getCurrentScopeVars] returns
    no name twice, and returns a name exactly when some frame has it. *)
Theorem scope_vars_are_a_set (w : Walk) :
  NoDup (getCurrentScopeVars w)
  /\ forall v, In v (getCurrentScopeVars w) <-> exists frame, In frame (scopeStack w) /\ In v frame.
Proof.
  unfold getCurrentScopeVars.
  destruct (add_frames (scopeStack w) [] (NoDup_nil _)) as [Hnd Hin].
  split; [exact Hnd |]. intros v. rewrite Hin. split; [intros [[] | H]; exact H | auto].
Qed.

End Scopes.

Section OneOffset.
Import Instrumenter.

Lemma sort_patches_one_offset (i : nat) (ps : list Patch) :
  Forall (fun p => index p = i) ps -> sort_patches ps = ps.
Proof.
  induction 1 as [|p ps Hp Hps IH]; simpl; [reflexivity |].
  rewrite IH. destruct ps as [|q ps]; [reflexivity |].
  inversion Hps as [|? ? Hq _]; subst. simpl.
  now rewrite Hq, Nat.ltb_irrefl.
Qed.

Lemma splice_at (i : nat) (a t b : list ascii) (p : Patch) :
  index p = i -> List.length a = i ->
  splice (str (a ++ t ++ b)) p = str (a ++ (chars (text p) ++ t) ++ b).
Proof.
  intros Hp Ha. rewrite <- (str_chars (splice _ p)), chars_splice, chars_str, Hp, <- Ha.
  f_equal.
  rewrite firstn_app, firstn_all, Nat.sub_diag, skipn_app, skipn_all, Nat.sub_diag. simpl.
  now rewrite app_nil_r, <- !app_assoc.
Qed.

Lemma chars_concat_snoc (l : list string) (s : string) :
  chars (String.concat "" (l ++ [s])) = chars (String.concat "" l) ++ chars s.
Proof.
  induction l as [|x l IHl]; [reflexivity |].
  destruct l as [|y l].
  - simpl. now rewrite !chars_append.
  - change (chars (x +++ "" +++ String.concat "" ((y :: l) ++ [s]))
            = chars (x +++ "" +++ String.concat "" (y :: l)) ++ chars s).
    rewrite !chars_append, IHl. now rewrite <- !app_assoc.
Qed.

Lemma apply_patches_at (i : nat) (ps : list Patch) (a t b : list ascii) :
  Forall (fun p => index p = i) ps -> List.length a = i ->
  apply_patches (str (a ++ t ++ b)) ps
  = str (a ++ (chars (String.concat "" (map text (rev ps))) ++ t) ++ b).
Proof.
  unfold apply_patches. intros Hps Ha. revert t.
  induction Hps as [|p ps Hp Hps IH]; intros t; simpl.
  - reflexivity.
  - rewrite (splice_at i) by assumption. rewrite IH. do 2 f_equal.
    rewrite map_app. simpl. rewrite chars_concat_snoc. now rewrite <- !app_assoc.
Qed.

(** X11.  Patches registered for one offset come out in the reverse of
    the order of their registration: the text is the source up to the
    offset, then the patch registered last, ..., then the patch
    registered first, then the rest of the source.  (So the text the
    wrapper of a function means to put before [} finally] lands after it
    when the two offsets coincide.) *)
Theorem one_offset_latest_first (code : string) (i : nat) (ps : list Patch) :
  Forall (fun p => index p = i) ps ->
  i <= String.length code ->
  apply_patches code (sort_patches ps)
  = slice_to i code +++ String.concat "" (map text (rev ps)) +++ slice_from i code.
Proof.
  intros Hps Hi. rewrite (sort_patches_one_offset i) by assumption.
  rewrite <- (str_chars code) at 1.
  rewrite <- (firstn_skipn i (chars code)).
  change (skipn i (chars code)) with ([] ++ skipn i (chars code)) at 1.
  rewrite (apply_patches_at i); [| assumption | rewrite length_firstn, length_chars; lia].
  unfold slice_to, slice_from.
  rewrite <- (str_chars (_ +++ _ +++ _)). f_equal.
  now rewrite !chars_append, !chars_str, app_nil_r.
Qed.

Lemma one_offset_latest_first_witness :
  Forall (fun p => index p = 13) Scenarios.empty_function_patches
  /\ 13 <= String.length Scenarios.empty_function
  /\ apply_patches Scenarios.empty_function (sort_patches Scenarios.empty_function_patches)
     = Scenarios.empty_function_instrumented.
Proof.
  assert (H1 : Forall (fun p => index p = 13) Scenarios.empty_function_patches)
    by (repeat constructor).
  assert (H2 : 13 <= String.length Scenarios.empty_function) by (simpl; lia).
  split; [exact H1 |]. split; [exact H2 |].
  rewrite (one_offset_latest_first _ _ _ H1 H2). reflexivity.
Defined.

End OneOffset.

Section Trees.
Import Instrumenter.

Variable P : Node -> Prop.
Hypothesis Hnode :
  forall ty s e ps,
    Forall (fun kv => match snd kv with
                      | ANode c => P c
                      | AList items =>
                          Forall (fun v => match v with ANode c => P c | _ => True end) items
                      | _ => True
                      end) ps ->
    P (mkNode ty s e ps).

(** Induction on a tree, through the properties of a node that hold a
    node or an array of nodes, which are those the walk descends into. *)
Lemma Node_nested_ind : forall n, P n.
Proof.
  fix IH 1. intros [ty s e ps]. apply Hnode.
  induction ps as [|[k v] ps IHps]; constructor; [| exact IHps].
  simpl. destruct v as [c | items | | |]; try exact Logic.I.
  - apply IH.
  - induction items as [|v items IHitems]; constructor; [| exact IHitems].
    destruct v; try exact Logic.I. apply IH.
Qed.

End Trees.

Section Walks.
Import Instrumenter Spec.

Lemma walked_refl (w : Walk) : walked w w.
Proof. split; [reflexivity | exists []; now rewrite app_nil_r]. Qed.

Lemma walked_trans (a b c : Walk) : walked a b -> walked b c -> walked a c.
Proof.
  intros [H1 [m1 E1]] [H2 [m2 E2]]. split; [congruence |].
  exists (m1 ++ m2). now rewrite E2, E1, app_assoc.
Qed.

Lemma walked_addPatch (a b : Walk) (i : nat) (t : string) :
  walked a b -> walked a (addPatch i t b).
Proof.
  intros [H [m E]]. split; [exact H |].
  exists (m ++ [mkPatch i t]). simpl. now rewrite E, app_assoc.
Qed.

Lemma add_from_top_length (k : nat) (v : string) (l : list (list string)) :
  List.length (add_from_top k v l) = List.length l.
Proof.
  revert k. induction l as [|f l IH]; intros k; destruct k; simpl; try reflexivity.
  now rewrite IH.
Qed.

Lemma walked_add_to_frame (a b : Walk) (k : nat) (v : string) :
  walked a b -> walked a (add_to_frame k v b).
Proof.
  intros [H E]. split; [| exact E].
  simpl. now rewrite length_rev, add_from_top_length, length_rev.
Qed.

Lemma walked_add_names (k : nat) (names : list string) (a b : Walk) :
  walked a b -> walked a (fold_left (fun w v => add_to_frame k v w) names b).
Proof.
  revert b. induction names as [|v names IH]; intros b H; simpl; [exact H |].
  apply IH. now apply walked_add_to_frame.
Qed.

Lemma walked_collect_variables (isFunction : bool) (node : Node) (a b : Walk) :
  walked a b -> walked a (collect_variables isFunction node b).
Proof.
  intros H. unfold collect_variables.
  repeat match goal with
         | |- walked _ (if ?c then _ else _) => destruct c
         | |- walked _ (match ?x with _ => _ end) => destruct x
         | |- walked _ (fold_left _ _ _) => apply walked_add_names
         | |- walked _ (add_to_frame _ _ _) => apply walked_add_to_frame
         end; exact H.
Qed.

(** The rules of a node enter its scope, where it has one, and after
    that only register patches and names. *)
Lemma visit_walked (code : string) (node : Node) (parent : option Parent) (w w1 : Walk) :
  visit code node parent w = Some w1 ->
  walked (if opens_scope node then push_scope w else w) w1.
Proof.
  unfold visit, opens_scope. cbv zeta.
  match goal with
  | |- context [collect_variables ?b node ?w0] =>
      pose proof (walked_collect_variables b node w0 w0 (walked_refl w0)) as Hc;
      revert Hc; generalize (collect_variables b node w0)
  end.
  intros wc Hc H.
  repeat match type of H with
         | context [match ?x with _ => _ end] =>
             lazymatch x with
             | context [match _ with _ => _ end] => fail
             | _ => destruct x
             end
         end;
    try discriminate; injection H as <-;
    repeat apply walked_addPatch; exact Hc.
Qed.

Lemma leave_opens (node : Node) (w : Walk) :
  leave node w = if opens_scope node then pop_scope w else w.
Proof. reflexivity. Qed.

Lemma walk_unfold (code : string) (ty : string) (s e : nat) (ps : list (string * Value))
      (parent : option Parent) (w : Walk) :
  walk code (mkNode ty s e ps) parent w
  = if skipped_initializer parent then Some w
    else
      match visit code (mkNode ty s e ps) parent w with
      | None => None
      | Some w =>
          match (fix keys (ps : list (string * Value)) (w : Walk) {struct ps} : option Walk :=
                   match ps with
                   | [] => Some w
                   | (key, val) :: ps' =>
                       match match val with
                             | ANode c => walk code c (Some (mkParent ty (Some key))) w
                             | AList items =>
                                 (fix each (vs : list Value) (w : Walk) {struct vs} : option Walk :=
                                    match vs with
                                    | [] => Some w
                                    | ANode c :: vs' =>
                                        match walk code c (Some (mkParent ty None)) w with
                                        | Some w' => each vs' w'
                                        | None => None
                                        end
                                    | _ :: vs' => each vs' w
                                    end) items w
                             | _ => Some w
                             end with
                       | Some w' => keys ps' w'
                       | None => None
                       end
                   end) ps w with
          | Some w' => Some (leave (mkNode ty s e ps) w')
          | None => None
          end
      end.
Proof. reflexivity. Qed.

(** X12.  The walk leaves every scope it enters: after [walk] has
    returned from a node, whatever the node, the scope stack is as deep as
    it was before, and the patches registered before are still there in
    their places, the walk having only added to them. *)
Theorem walk_keeps_scope_depth (code : string) (node : Node) :
  forall (parent : option Parent) (w w' : Walk),
    walk code node parent w = Some w' -> walked w w'.
Proof.
  induction node as [ty s e ps IH] using Node_nested_ind.
  intros parent w w'. rewrite walk_unfold.
  destruct (skipped_initializer parent); [intros [= <-]; apply walked_refl |].
  destruct (visit code (mkNode ty s e ps) parent w) as [w1 |] eqn:Hvisit; [| discriminate].
  apply visit_walked in Hvisit.
  match goal with
  | |- match ?children ps w1 with _ => _ end = _ -> _ =>
      assert (Hkeys : forall w2 w3, children ps w2 = Some w3 -> walked w2 w3)
  end.
  { clear Hvisit. induction ps as [|[key val] ps IHps]; intros w2 w3.
    - intros [= <-]. apply walked_refl.
    - inversion IH as [|? ? Hval Hrest]; subst. simpl in Hval.
      destruct val as [c | items | | |].
      + destruct (walk code c (Some (mkParent ty (Some key))) w2) as [w4 |] eqn:Hc; [| discriminate].
        intros H. eapply walked_trans; [eapply Hval; eauto | eapply IHps; eauto].
      + match goal with
        | |- match ?each items w2 with _ => _ end = _ -> _ =>
            assert (Heach : forall w4 w5, each items w4 = Some w5 -> walked w4 w5)
        end.
        { clear - Hval. induction items as [|v items IHitems]; intros w4 w5.
          - intros [= <-]. apply walked_refl.
          - inversion Hval as [|? ? Hv Hitems]; subst.
            destruct v as [c | | | |]; try (apply IHitems; exact Hitems).
            destruct (walk code c (Some (mkParent ty None)) w4) as [w6 |] eqn:Hc; [| discriminate].
            intros H. eapply walked_trans; [eapply Hv; eauto | eapply IHitems; eauto]. }
        match goal with
        | |- match ?x with _ => _ end = _ -> _ => destruct x as [w4 |] eqn:Hitems; [| discriminate]
        end.
        intros H. eapply walked_trans; [eapply Heach; eauto | eapply IHps; eauto].
      + intros H. eapply IHps; eauto.
      + intros H. eapply IHps; eauto.
      + intros H. eapply IHps; eauto. }
  match goal with
  | |- match ?x with _ => _ end = _ -> _ => destruct x as [w2 |] eqn:Hchildren; [| discriminate]
  end.
  intros [= <-]. apply Hkeys in Hchildren.
  rewrite leave_opens.
  destruct (opens_scope (mkNode ty s e ps)).
  - destruct Hvisit as [Hv1 Hv2], Hchildren as [Hc1 Hc2]. split.
    + simpl in *. rewrite removelast_firstn_len, length_firstn, Hc1, Hv1, length_app. simpl. lia.
    + simpl in *. destruct Hv2 as [m1 E1], Hc2 as [m2 E2]. exists (m1 ++ m2).
      now rewrite E2, E1, app_assoc.
  - eapply walked_trans; eauto.
Qed.

Lemma walk_keeps_scope_depth_witness :
  exists w',
    walk Scenarios.call_then_throw Scenarios.call_then_throw_ast None (mkWalk [] [[]]) = Some w'
    /\ walked (mkWalk [] [[]]) w'
    /\ scopeStack w' = [[]]
    /\ List.length (patches w') = 6.
Proof.
  destruct (walk Scenarios.call_then_throw Scenarios.call_then_throw_ast None (mkWalk [] [[]]))
    as [w' |] eqn:E; [| vm_compute in E; discriminate E].
  exists w'. split; [reflexivity |].
  split; [exact (walk_keeps_scope_depth _ _ _ _ _ E) |].
  vm_compute in E. injection E as <-. split; reflexivity.
Defined.

End Walks.

Section Offsets.
Import Instrumenter Spec Scenarios.

Variable code : string.

Lemma fits_placed (lo hi : nat) (n : Node) : fits code lo hi n = true -> placed code n.
Proof.
  destruct n as [ty s e ps]. simpl. intros H.
  repeat (apply andb_prop in H; destruct H as [H ?]).
  repeat match goal with E : (_ <=? _) = true |- _ => apply Nat.leb_le in E end.
  unfold placed. simpl. split; [assumption |]. split; [assumption |].
  intros Hblock.
  match goal with E : (if String.eqb ty "BlockStatement" then _ else _) = true |- _ =>
    rewrite Hblock in E; apply andb_prop in E; destruct E as [E _] end.
  unfold startsWith, substring in *.
  destruct (e - s) as [|d] eqn:Hd; [| lia].
  simpl in *. discriminate.
Qed.

Lemma fits_children (lo hi : nat) (ty : string) (s e : nat) (ps : list (string * Value)) :
  fits code lo hi (mkNode ty s e ps) = true ->
  Forall (fun kv => match snd kv with
                    | ANode c => fits code s e c = true
                    | AList items =>
                        Forall (fun v => match v with
                                         | ANode c => fits code s e c = true
                                         | _ => True
                                         end) items
                    | _ => True
                    end) ps.
Proof.
  simpl. intros H. apply andb_prop in H. destruct H as [_ H].
  induction ps as [|[k v] ps IH]; constructor.
  - apply andb_prop in H. destruct H as [H _]. simpl.
    destruct v as [c | items | | |]; try exact Logic.I; [exact H |].
    induction items as [|v items IHitems]; constructor.
    + destruct v; try exact Logic.I. apply andb_prop in H. tauto.
    + destruct v; try (apply IHitems; exact H). apply andb_prop in H. apply IHitems. tauto.
  - apply andb_prop in H. destruct H as [_ H]. now apply IH.
Qed.

Lemma child_placed (lo hi : nat) (n : Node) (key : string) (c : Node) :
  fits code lo hi n = true -> child key n = Some c -> placed code c.
Proof.
  destruct n as [ty s e ps]. intros Hfits.
  pose proof (fits_children _ _ _ _ _ _ Hfits) as Hps. clear Hfits.
  unfold child, prop. simpl.
  induction ps as [|[k v] ps IH]; simpl; [discriminate |].
  inversion Hps as [|? ? Hv Hrest]; subst.
  destruct (String.eqb k key).
  - destruct v; try discriminate. intros [= <-]. simpl in Hv. eapply fits_placed; eauto.
  - now apply IH.
Qed.

Lemma inside_addPatch (i : nat) (t : string) (w : Walk) :
  i <= String.length code ->
  Forall (inside code) (patches w) -> Forall (inside code) (patches (addPatch i t w)).
Proof.
  intros Hi Hw. simpl. apply Forall_app. split; [exact Hw | repeat constructor; exact Hi].
Qed.

Lemma patches_add_names (k : nat) (names : list string) (w : Walk) :
  patches (fold_left (fun w v => add_to_frame k v w) names w) = patches w.
Proof.
  revert w. induction names as [|v names IH]; intros w; simpl; [reflexivity |].
  now rewrite IH.
Qed.

Lemma patches_collect_variables (isFunction : bool) (node : Node) (w : Walk) :
  patches (collect_variables isFunction node w) = patches w.
Proof.
  unfold collect_variables.
  repeat match goal with
         | |- context [if ?c then _ else _] => destruct c
         | |- context [match ?x with _ => _ end] => destruct x
         end;
    repeat (progress (simpl; rewrite ?patches_add_names)); reflexivity.
Qed.

Lemma visit_inside (lo hi : nat) (node : Node) (parent : option Parent) (w w1 : Walk) :
  fits code lo hi node = true ->
  visit code node parent w = Some w1 ->
  Forall (inside code) (patches w) -> Forall (inside code) (patches w1).
Proof.
  intros Hfits Hvisit Hw.
  pose proof (fits_placed _ _ _ Hfits) as (Hn1 & Hn2 & _).
  pose proof (fun key c => child_placed lo hi node key c Hfits) as Hchild.
  clear Hfits. revert Hvisit. unfold visit. cbv zeta.
  match goal with
  | |- context [collect_variables ?b node ?w0] =>
      assert (Hc : Forall (inside code) (patches (collect_variables b node w0)))
        by (rewrite patches_collect_variables; destruct (_ || _); exact Hw);
      revert Hc; generalize (collect_variables b node w0)
  end.
  intros wc Hc H. unfold placed in Hchild.
  repeat match type of H with
         | context [match ?x with _ => _ end] =>
             lazymatch x with
             | context [match _ with _ => _ end] => fail
             | _ => destruct x eqn:?
             end
         end;
    try discriminate; injection H as <-;
    repeat match goal with
           | E : child _ node = Some _ |- _ => apply Hchild in E; destruct E as (? & ? & ?)
           end;
    repeat match goal with
           | E : String.eqb (type ?b) "BlockStatement" = true,
             H : String.eqb (type ?b) "BlockStatement" = true -> _ |- _ => specialize (H E)
           end;
    repeat (apply inside_addPatch; [lia |]); exact Hc.
Qed.

Lemma walk_inside (node : Node) :
  forall (lo hi : nat) (parent : option Parent) (w w' : Walk),
    fits code lo hi node = true ->
    walk code node parent w = Some w' ->
    Forall (inside code) (patches w) -> Forall (inside code) (patches w').
Proof.
  induction node as [ty s e ps IH] using Node_nested_ind.
  intros lo hi parent w w' Hfits. rewrite walk_unfold.
  destruct (skipped_initializer parent); [intros [= <-]; auto |].
  destruct (visit code (mkNode ty s e ps) parent w) as [w1 |] eqn:Hvisit; [| discriminate].
  intros Hwalk Hw. pose proof (visit_inside _ _ _ _ _ _ Hfits Hvisit Hw) as Hw1.
  pose proof (fits_children _ _ _ _ _ _ Hfits) as Hps.
  clear Hvisit Hfits Hw. revert Hwalk.
  match goal with
  | |- match ?children ps w1 with _ => _ end = _ -> _ =>
      assert (Hkeys : forall w2 w3, children ps w2 = Some w3 ->
                                    Forall (inside code) (patches w2) ->
                                    Forall (inside code) (patches w3))
  end.
  { clear Hw1. induction ps as [|[key val] ps IHps]; intros w2 w3.
    - intros [= <-]. auto.
    - inversion IH as [|? ? Hval Hrest]; subst. simpl in Hval.
      inversion Hps as [|? ? Hfit Hfits]; subst. simpl in Hfit.
      destruct val as [c | items | | |].
      + destruct (walk code c (Some (mkParent ty (Some key))) w2) as [w4 |] eqn:Hc; [| discriminate].
        intros H H2. eapply IHps; eauto.
      + match goal with
        | |- match ?each items w2 with _ => _ end = _ -> _ =>
            assert (Heach : forall w4 w5, each items w4 = Some w5 ->
                                          Forall (inside code) (patches w4) ->
                                          Forall (inside code) (patches w5))
        end.
        { clear - Hval Hfit. induction items as [|v items IHitems]; intros w4 w5.
          - intros [= <-]. auto.
          - inversion Hval as [|? ? Hv Hitems]; subst.
            inversion Hfit as [|? ? Hf Hfs]; subst.
            destruct v as [c | | | |]; try (apply IHitems; assumption).
            destruct (walk code c (Some (mkParent ty None)) w4) as [w6 |] eqn:Hc; [| discriminate].
            intros H H4. eapply IHitems; eauto. }
        match goal with
        | |- match ?x with _ => _ end = _ -> _ => destruct x as [w4 |] eqn:Hitems; [| discriminate]
        end.
        intros H H2. eapply IHps; eauto.
      + intros H. eapply IHps; eauto.
      + intros H. eapply IHps; eauto.
      + intros H. eapply IHps; eauto. }
  match goal with
  | |- match ?x with _ => _ end = _ -> _ => destruct x as [w2 |] eqn:Hchildren; [| discriminate]
  end.
  intros [= <-]. apply Hkeys in Hchildren; [| exact Hw1].
  unfold leave. destruct (_ || _); exact Hchildren.
Qed.

(** X13.  For a tree whose offsets lie within the text as the parser's
    do (each node inside its parent, a block between its braces), every
    patch the walk registers has an offset of the text; so every splice of
    [instrumentCode] finds the text before its offset as the source has
    it, and the offset recorded for it means what it meant. *)
Theorem patches_inside_text (ast : Node) (w : Walk) :
  fits code 0 (String.length code) ast = true ->
  walk code ast None (mkWalk [] [[]]) = Some w ->
  Forall (inside code) (patches w)
  /\ forall before p after,
       sort_patches (patches w) = before ++ p :: after ->
       slice_to (index p) (apply_patches code before) = slice_to (index p) code.
Proof.
  intros Hfits Hwalk.
  assert (Hin : Forall (inside code) (patches w)).
  { eapply walk_inside; [exact Hfits | exact Hwalk | constructor]. }
  split; [exact Hin |].
  intros before p after Hsplit.
  apply apply_patches_prefix.
  - rewrite Forall_forall in Hin. apply Hin.
    apply (Permutation_in _ (Permutation_sym (sort_patches_perm (patches w)))).
    rewrite Hsplit. apply in_or_app. right. now left.
  - apply descending_before with (after := after).
    rewrite <- Hsplit. apply sort_patches_descending.
Qed.

End Offsets.

Section OnFittingTrees.
Import Instrumenter Spec Scenarios.

Lemma patches_inside_text_witness :
  exists w,
    fits busy_loop 0 (String.length busy_loop) busy_loop_ast = true
    /\ walk busy_loop busy_loop_ast None (mkWalk [] [[]]) = Some w
    /\ Forall (inside busy_loop) (patches w)
    /\ map index (sort_patches (patches w)) = [30; 24; 23; 10; 0].
Proof.
  assert (Hfits : fits busy_loop 0 (String.length busy_loop) busy_loop_ast = true)
    by (vm_compute; reflexivity).
  destruct (walk busy_loop busy_loop_ast None (mkWalk [] [[]])) as [w |] eqn:E;
    [| vm_compute in E; discriminate E].
  exists w. split; [exact Hfits |]. split; [reflexivity |].
  split; [exact (proj1 (patches_inside_text busy_loop busy_loop_ast w Hfits E)) |].
  vm_compute in E. injection E as <-. reflexivity.
Defined.

End OnFittingTrees.

(** ** The helpers of the C++ front-end *)

Section Trim.
Import Spec.

Lemma drop_space_head (l : list ascii) : trimmed_head (drop_space l).
Proof.
  induction l as [|c l IH]; simpl; [exact Logic.I |].
  destruct (is_space c) eqn:E; [exact IH | exact E].
Qed.

Lemma drop_space_fixed (l : list ascii) : trimmed_head l -> drop_space l = l.
Proof. destruct l as [|c l]; simpl; [reflexivity | now intros ->]. Qed.

Lemma drop_space_suffix (l : list ascii) : exists sp, l = sp ++ drop_space l.
Proof.
  induction l as [|c l [sp IH]]; simpl.
  - now exists [].
  - destruct (is_space c).
    + exists (c :: sp). simpl. now f_equal.
    + now exists [].
Qed.

Lemma trim_chars_head (l : list ascii) : trimmed_head (trim_chars l).
Proof.
  unfold trim_chars.
  pose proof (drop_space_head l) as Hd.
  destruct (drop_space_suffix (rev (drop_space l))) as [sp Hsp].
  apply (f_equal (@rev ascii)) in Hsp. rewrite rev_involutive, rev_app_distr in Hsp.
  destruct (rev (drop_space (rev (drop_space l)))) as [|c t]; [exact Logic.I |].
  rewrite Hsp in Hd. exact Hd.
Qed.

Lemma trim_chars_idempotent (l : list ascii) : trim_chars (trim_chars l) = trim_chars l.
Proof.
  unfold trim_chars at 1.
  rewrite (drop_space_fixed (trim_chars l)) by apply trim_chars_head.
  unfold trim_chars. rewrite rev_involutive.
  rewrite (drop_space_fixed (drop_space _)) by apply drop_space_head.
  reflexivity.
Qed.

(** A trimmed text has nothing left to trim. *)
Lemma trim_idempotent (s : string) : trim (trim s) = trim s.
Proof. unfold trim. now rewrite chars_str, trim_chars_idempotent. Qed.

End Trim.

Section Braces.
Import CppTranspiler.

Lemma index_chars_from (p l : list ascii) (i r : nat) :
  index_chars p l i = Some r -> i <= r.
Proof.
  revert i. induction l as [|c l IH]; intros i; simpl.
  - destruct (prefix_chars p []); [intros [= <-]; lia | discriminate].
  - destruct (prefix_chars p (c :: l)); [intros [= <-]; lia |].
    intros H. apply IH in H. lia.
Qed.

Lemma indexOf_from (p : string) (from : nat) (s : string) (r : nat) :
  indexOf p from s = Some r -> from <= r.
Proof. apply index_chars_from. Qed.

Lemma findMatchingBrace_loop_sound (fuel : nat) (code : list ascii) :
  forall (i : nat) (depth : Z) (inString inChar : bool) (r : nat),
    findMatchingBrace_loop fuel code i depth inString inChar = Some r ->
    i <= r /\ char_at code r = Some "}"%char.
Proof.
  induction fuel as [|fuel IH]; intros i depth inString inChar r; simpl; [discriminate |].
  destruct (char_at code i) as [ch |] eqn:Hch; [| discriminate].
  repeat match goal with
         | |- (if ?c then _ else _) = _ -> _ => destruct c eqn:?
         | |- match ?x with _ => _ end = _ -> _ => destruct x eqn:?
         end;
    try discriminate;
    try (intros H; apply IH in H; destruct H as [H1 H2];
         repeat match goal with
                | E : indexOf _ _ _ = Some _ |- _ => apply indexOf_from in E
                end;
         split; [lia | exact H2]).
  intros [= <-]. split; [lia |].
  match goal with E : Ascii.eqb ch "}" = true |- _ => apply Ascii.eqb_eq in E; now subst end.
Qed.

(** X14.  When [findMatchingBrace] returns an index (and not -1), it is
    the index of a closing brace of the text, at or after the index the
    search started from, and after it when the search started at an
    opening brace. *)
Theorem findMatchingBrace_sound (code : string) (openIndex closeIndex : nat) :
  findMatchingBrace code openIndex = Some closeIndex ->
  openIndex <= closeIndex < String.length code
  /\ char_at (chars code) closeIndex = Some "}"%char
  /\ (char_at (chars code) openIndex = Some "{"%char -> openIndex < closeIndex).
Proof.
  unfold findMatchingBrace. intros H.
  apply findMatchingBrace_loop_sound in H. destruct H as [Hle Hch].
  assert (Hlt : closeIndex < String.length code).
  { rewrite <- length_chars. apply nth_error_Some. unfold char_at in Hch. congruence. }
  repeat split; try assumption.
  intros Hopen. destruct (Nat.eq_dec openIndex closeIndex) as [-> |]; [| lia].
  rewrite Hch in Hopen. discriminate.
Qed.

Lemma findMatchingBrace_sound_witness :
  findMatchingBrace Scenarios.cpp_nested 11 = Some 27
  /\ 11 <= 27 < String.length Scenarios.cpp_nested
  /\ char_at (chars Scenarios.cpp_nested) 27 = Some "}"%char.
Proof.
  assert (H : findMatchingBrace Scenarios.cpp_nested 11 = Some 27) by (vm_compute; reflexivity).
  split; [exact H |].
  destruct (findMatchingBrace_sound _ _ _ H) as (Hrange & Hbrace & _).
  split; [exact Hrange | exact Hbrace].
Defined.

End Braces.

Section Cout.
Import CppTranspiler Spec.

Lemma cout_parts_character (ch : ascii) (more : list ascii) (parts : list string)
      (current : list ascii) (parenDepth : Z) :
  let depth := if Ascii.eqb ch "(" then (parenDepth + 1)%Z
               else if Ascii.eqb ch ")" then (parenDepth - 1)%Z
               else parenDepth in
  (depth =? 0)%Z && Ascii.eqb ch "<" = false ->
  cout_parts (ch :: more) parts current parenDepth
  = cout_parts more parts (current ++ [ch]) depth.
Proof.
  cbv zeta. intros H. cbn [cout_parts]. rewrite H. destruct more; reflexivity.
Qed.

Lemma cout_parts_operand (x rest : list ascii) :
  forall (parenDepth : Z) parts current,
    operand_from parenDepth x = true ->
    cout_parts (x ++ rest) parts current parenDepth
    = cout_parts rest parts (current ++ x) 0%Z.
Proof.
  induction x as [|ch x IH]; intros parenDepth parts current Hx.
  - simpl in Hx. apply Z.eqb_eq in Hx. subst. simpl. now rewrite app_nil_r.
  - cbn [operand_from] in Hx. apply andb_prop in Hx. destruct Hx as [Hch Hx].
    apply negb_true_iff in Hch.
    change ((ch :: x) ++ rest) with (ch :: (x ++ rest)).
    rewrite cout_parts_character by exact Hch.
    rewrite (IH _ _ _ Hx). now rewrite <- app_assoc.
Qed.

Lemma cout_parts_separator (rest : list ascii) (parts : list string) (current : list ascii) :
  cout_parts ("<"%char :: "<"%char :: rest) parts current 0%Z
  = cout_parts rest (push_trimmed parts current) [] 0%Z.
Proof. reflexivity. Qed.

Lemma push_trimmed_operand (parts : list string) (x : string) :
  push_trimmed parts (chars x) = parts ++ operand_part x.
Proof.
  unfold push_trimmed, operand_part. rewrite str_chars.
  destruct (String.eqb (trim x) ""); [now rewrite app_nil_r | reflexivity].
Qed.

Lemma cout_parts_chain (xs : list string) :
  forallb operand xs = true ->
  forall parts,
    cout_parts (chars (join "<<" xs)) parts [] 0%Z = parts ++ flat_map operand_part xs.
Proof.
  induction xs as [|x xs IH]; intros Hxs parts.
  - simpl. unfold push_trimmed. simpl. now rewrite app_nil_r.
  - simpl in Hxs. apply andb_prop in Hxs. destruct Hxs as [Hx Hxs].
    destruct xs as [|y xs].
    + simpl. rewrite <- (app_nil_r (chars x)).
      rewrite cout_parts_operand by exact Hx. simpl.
      rewrite push_trimmed_operand. now rewrite app_nil_r.
    + change (join "<<" (x :: y :: xs)) with (x +++ "<<" +++ join "<<" (y :: xs)).
      rewrite !chars_append.
      rewrite cout_parts_operand by exact Hx.
      change (chars "<<" ++ chars (join "<<" (y :: xs)))
        with ("<"%char :: "<"%char :: chars (join "<<" (y :: xs))).
      rewrite cout_parts_separator. simpl app at 1.
      rewrite push_trimmed_operand, (IH Hxs).
      change (flat_map operand_part (x :: y :: xs))
        with (operand_part x ++ flat_map operand_part (y :: xs)).
      now rewrite app_assoc.
Qed.

(** X15.  [parseCoutArgs] reads an output chain as its operands: for
    operands whose parentheses are balanced and that have no [<] outside
    parentheses (a shift inside parentheses is part of its operand), the
    chain of the operands joined by the stream operator gives the
    operands trimmed, without the empty ones and without [endl] and
    [std::endl], joined by a comma and a space. *)
Theorem parseCoutArgs_chain (xs : list string) :
  forallb operand xs = true ->
  parseCoutArgs (join "<<" xs) = join ", " (filter printed (map trim xs)).
Proof.
  intros Hxs. unfold parseCoutArgs. rewrite (cout_parts_chain xs Hxs). simpl. f_equal.
  clear Hxs. induction xs as [|x xs IH]; [reflexivity |].
  simpl. rewrite filter_app, IH. unfold operand_part, printed.
  destruct (String.eqb (trim x) "") eqn:E; simpl; [reflexivity |].
  rewrite trim_idempotent.
  destruct (negb (String.eqb (trim x) "endl") && negb (String.eqb (trim x) "std::endl"));
    reflexivity.
Qed.

Lemma parseCoutArgs_chain_witness :
  forallb operand Scenarios.cout_operands = true
  /\ parseCoutArgs "v.size() << (1 << 2) << endl" = "v.size(), (1 << 2)".
Proof.
  assert (H : forallb operand Scenarios.cout_operands = true) by (vm_compute; reflexivity).
  split; [exact H |].
  change "v.size() << (1 << 2) << endl" with (join "<<" Scenarios.cout_operands).
  rewrite (parseCoutArgs_chain _ H). vm_compute. reflexivity.
Defined.

(** X16.  The text [transpileCppToJs] returns neither starts nor ends
    with white space: trimming it changes nothing. *)
Theorem transpileCppToJs_trimmed (cppCode : string) :
  trim (transpileCppToJs cppCode) = transpileCppToJs cppCode.
Proof. unfold transpileCppToJs, phase10. apply trim_idempotent. Qed.

End Cout.

(** ** The Python front-end *)

Section Lines.
Import Spec.

Lemma split_chars_lines (fuel : nat) (l cur : list ascii) :
  List.length l < fuel -> split_chars fuel [LF] l cur = lines_from l cur.
Proof.
  revert l cur. induction fuel as [|fuel IH]; intros l cur Hlt; [lia |].
  destruct l as [|c l]; [reflexivity |].
  cbn -[Ascii.eqb LF] in *. rewrite andb_true_r. destruct (Ascii.eqb LF c).
  - f_equal. apply IH. lia.
  - apply IH. lia.
Qed.

Lemma split_lines (s : string) : split nl s = map str (lines_from (chars s) []).
Proof.
  unfold split. f_equal. change (chars nl) with [LF].
  apply split_chars_lines. rewrite length_chars. lia.
Qed.

Lemma lines_from_cons (l cur : list ascii) : exists x rest, lines_from l cur = x :: rest.
Proof.
  revert cur. induction l as [|c l IH]; intros cur; cbn -[Ascii.eqb LF]; eauto.
  destruct (Ascii.eqb LF c); eauto.
Qed.

Lemma join_cons (sep x : string) (rest : list string) :
  rest <> [] -> join sep (x :: rest) = x +++ sep +++ join sep rest.
Proof. destruct rest; [congruence | reflexivity]. Qed.

Lemma str_app (a b : list ascii) : str (a ++ b) = str a +++ str b.
Proof. rewrite <- (str_chars (str a +++ str b)), chars_append, !chars_str. reflexivity. Qed.

Lemma join_lines (l cur : list ascii) :
  join nl (map str (lines_from l cur)) = str (rev cur ++ l).
Proof.
  revert cur. induction l as [|c l IH]; intros cur; cbn -[Ascii.eqb LF].
  - now rewrite app_nil_r.
  - destruct (Ascii.eqb LF c) eqn:E.
    + apply Ascii.eqb_eq in E. subst c.
      destruct (lines_from_cons l []) as (x & rest & Hl).
      change (map str (rev cur :: lines_from l [])) with (str (rev cur) :: map str (lines_from l [])).
      rewrite join_cons by (rewrite Hl; discriminate).
      rewrite IH. simpl. rewrite str_app. reflexivity.
    + rewrite IH. simpl. now rewrite <- app_assoc.
Qed.

(** Joining the lines of a text gives the text back. *)
Lemma join_split (s : string) : join nl (split nl s) = s.
Proof. rewrite split_lines, join_lines. apply str_chars. Qed.

Lemma lines_from_line (x rest cur : list ascii) :
  forallb (fun c => negb (Ascii.eqb c LF)) x = true ->
  lines_from (x ++ rest) cur = lines_from rest (rev x ++ cur).
Proof.
  revert cur. induction x as [|c x IH]; intros cur Hx; [reflexivity |].
  cbn -[Ascii.eqb LF] in *. apply andb_prop in Hx. destruct Hx as [Hc Hx].
  apply negb_true_iff in Hc. rewrite Ascii.eqb_sym in Hc. rewrite Hc.
  rewrite IH by exact Hx. now rewrite <- app_assoc.
Qed.

(** Cutting a text made of lines gives the lines back. *)
Lemma split_join (ls : list string) :
  ls <> [] -> forallb one_line ls = true -> split nl (join nl ls) = ls.
Proof.
  intros Hne Hls. rewrite split_lines.
  induction ls as [|x ls IH]; [congruence |].
  simpl in Hls. apply andb_prop in Hls. destruct Hls as [Hx Hls].
  destruct ls as [|y ls].
  - simpl. rewrite <- (app_nil_r (chars x)), lines_from_line by exact Hx.
    simpl. now rewrite app_nil_r, rev_involutive, str_chars.
  - change (join nl (x :: y :: ls)) with (x +++ nl +++ join nl (y :: ls)).
    rewrite !chars_append, lines_from_line by exact Hx.
    change (chars nl) with [LF]. simpl app. cbn [lines_from]. rewrite Ascii.eqb_refl.
    rewrite app_nil_r, rev_involutive. cbn [map]. rewrite str_chars. f_equal.
    apply IH; [discriminate | exact Hls].
Qed.

End Lines.

Section Indent.
Import Regex PythonTranspiler Spec.

Lemma leading_space_drop (l : list ascii) : leading_space l ++ drop_space l = l.
Proof.
  induction l as [|c l IH]; simpl; [reflexivity |].
  destruct (is_space c); simpl; [now rewrite IH | reflexivity].
Qed.

(** The quantifier of the matcher on the class of white space is
    [after_spaces]. *)
Lemma spaces_backtrack (fuel : nat) (k : mstate -> option mstate) :
  forall (l : list ascii) (prev : option ascii) (cs : list (nat * list ascii)),
    List.length l < fuel ->
    (fix rep (fuel : nat) (min : nat) (max : option nat) (st : mstate) {struct fuel}
       : option mstate :=
       match fuel with
       | O => None
       | S fuel' =>
           match max with
           | Some O => k st
           | _ =>
               let again :=
                 m (RCls false ClsSpace) (clear_caps (groups (RCls false ClsSpace)) st)
                   (fun st' =>
                      if (min =? 0) && (List.length (rest st') =? List.length (rest st))
                      then None
                      else rep fuel' (Nat.pred min) (option_map Nat.pred max) st') in
               match min with
               | S _ => again
               | O => match again with
                      | Some res => Some res
                      | None => k st
                      end
               end
           end
       end) fuel 0 None (MState l prev cs)
    = after_spaces k l prev cs.
Proof.
  induction fuel as [|fuel IH]; intros l prev cs Hlt; [lia |].
  destruct l as [|c l].
  - reflexivity.
  - cbn -[Nat.eqb] in IH |- *. simpl in Hlt.
    assert (Hcs : filter (fun _ : nat * list ascii => true) cs = cs).
    { clear. induction cs as [|x cs IHcs]; simpl; [reflexivity | now rewrite IHcs]. }
    rewrite Hcs.
    destruct (is_space c) eqn:E; [| reflexivity].
    replace (List.length l =? S (List.length l)) with false
      by (symmetry; apply Nat.eqb_neq; lia).
    cbn -[Nat.eqb]. rewrite IH by lia. reflexivity.
Qed.

(** In front of a continuation that accepts whatever is left, it takes all
    the white space. *)
Lemma after_spaces_greedy (k : mstate -> option mstate) (l : list ascii) :
  (forall st, k st <> None) ->
  forall prev cs,
    after_spaces k l prev cs = k (MState (drop_space l) (last_char prev (leading_space l)) cs).
Proof.
  intros Hk. induction l as [|c l IH]; intros prev cs; simpl; [reflexivity |].
  destruct (is_space c); [| reflexivity].
  rewrite IH. simpl. destruct (k _) eqn:Ek; [reflexivity | now apply Hk in Ek].
Qed.

(** X17.  [getIndent] counts the white-space characters a line starts
    with, of whatever kind (a tab counts as one): it is the length of
    the line less the length of what is left when the leading white space
    is dropped. *)
Theorem getIndent_leading_space (line : string) :
  getIndent line = List.length (leading_space (chars line))
  /\ getIndent line = String.length line - List.length (drop_space (chars line)).
Proof.
  assert (H : getIndent line = List.length (leading_space (chars line))).
  { unfold getIndent, match_first.
    change (re indent_pattern) with (RSeq RBol (RGroup 1 (RRepeat 0 None (RCls false ClsSpace)))).
    destruct (chars line) as [|c l] eqn:El.
    - reflexivity.
    - rewrite <- El. unfold search.
      destruct (chars line) as [|c0 l0] eqn:El0; [discriminate |]. rewrite <- El0.
      cbn [m before].
      rewrite (spaces_backtrack (0 + List.length (chars line) + 1)) by (simpl; lia).
      rewrite after_spaces_greedy by discriminate.
      cbn [before rest caps set_cap filter group get_cap fcaps Nat.eqb].
      rewrite <- length_chars, chars_str, length_firstn.
      pose proof (f_equal (@List.length ascii) (leading_space_drop (chars line))) as Hsplit.
      rewrite length_app in Hsplit. lia. }
  split; [exact H |].
  rewrite H, <- length_chars.
  pose proof (f_equal (@List.length ascii) (leading_space_drop (chars line))) as Hsplit.
  rewrite length_app in Hsplit. lia.
Qed.

End Indent.

Section Blocks.
Import Regex PythonTranspiler Spec.

Lemma indent_step_flat (line : string) (acc : list string) :
  flat line -> indent_step ([0], acc) line = ([0], acc ++ [line]).
Proof.
  unfold flat, indent_step. intros H.
  destruct (is_code_line line); [| reflexivity].
  simpl. now rewrite (H eq_refl).
Qed.

Lemma indent_steps_flat (lines : list string) :
  Forall flat lines ->
  forall acc, fold_left indent_step lines ([0], acc) = ([0], acc ++ lines).
Proof.
  induction 1 as [|line lines Hline Hlines IH]; intros acc; cbn [fold_left].
  - now rewrite app_nil_r.
  - rewrite indent_step_flat by exact Hline. rewrite IH. now rewrite <- app_assoc.
Qed.

(** X18.  A source without indented code passes through the first phase
    of the Python front-end unchanged: where every line that is neither
    blank nor a comment starts at the margin, no brace is added and no
    line is. *)
Theorem flat_source_unchanged (js : string) :
  Forall (fun line => is_code_line line = true -> getIndent line = 0) (split nl js) ->
  indentation_to_braces js = js.
Proof.
  intros H. unfold indentation_to_braces.
  rewrite (indent_steps_flat _ H). simpl. apply join_split.
Qed.

Lemma flat_source_unchanged_witness :
  Forall (fun line => is_code_line line = true -> getIndent line = 0)
         (split nl Scenarios.python_flat)
  /\ indentation_to_braces Scenarios.python_flat = Scenarios.python_flat.
Proof.
  assert (H : Forall (fun line => is_code_line line = true -> getIndent line = 0)
                     (split nl Scenarios.python_flat)).
  { replace (split nl Scenarios.python_flat) with ["x = 1"; "# done"; "y = 2"]
      by (vm_compute; reflexivity).
    repeat constructor; intros _; vm_compute; reflexivity. }
  split; [exact H | exact (flat_source_unchanged _ H)].
Defined.

Lemma indent_steps_body (k : nat) (lines : list string) (below : list nat) :
  Forall (fun line => is_code_line line = true /\ getIndent line = k) lines ->
  forall acc, fold_left indent_step lines (k :: below, acc) = (k :: below, acc ++ lines).
Proof.
  induction 1 as [|line lines [Hcode Hindent] Hlines IH]; intros acc; cbn [fold_left].
  - now rewrite app_nil_r.
  - unfold indent_step at 2. rewrite Hcode, Hindent. cbn [negb hd]. rewrite Nat.ltb_irrefl.
    rewrite IH. now rewrite <- app_assoc.
Qed.

(** X19.  A block of one level gets its braces: where lines at the margin
    are followed by a header at the margin, by a body of code lines that
    all have the same indentation, greater than none, and by code lines at
    the margin again, the first phase rewrites the header (its trailing
    colon removed, an opening brace added; a header that already ends
    with an opening brace is left as it is), keeps every other line, and
    puts one line with a closing brace after the body, in both cases. *)
Theorem block_gets_braces (before : list string) (header : string) (body after : list string)
        (k : nat) :
  Forall (fun line => is_code_line line = true -> getIndent line = 0) before ->
  is_code_line header = true -> getIndent header = 0 ->
  body <> [] -> 0 < k ->
  Forall (fun line => is_code_line line = true /\ getIndent line = k) body ->
  Forall (fun line => is_code_line line = true /\ getIndent line = 0) after ->
  forallb one_line (before ++ header :: body ++ after) = true ->
  indentation_to_braces (join nl (before ++ header :: body ++ after))
  = join nl (before ++ opened header :: body ++ "}" :: after).
Proof.
  intros Hbefore Hcode Hindent Hbody Hk Hlines Hafter Hone.
  unfold indentation_to_braces.
  rewrite split_join; [| destruct before; discriminate | exact Hone].
  rewrite fold_left_app, (indent_steps_flat _ Hbefore). simpl app.
  cbn [fold_left]. rewrite indent_step_flat by (intros _; exact Hindent).
  destruct body as [|first body]; [congruence |].
  inversion Hlines as [|? ? [Hfirst_code Hfirst_indent] Hrest]; subst.
  rewrite <- app_comm_cons. cbn [fold_left].
  assert (Hopen : indent_step ([0], before ++ [header]) first
                  = ([getIndent first; 0],
                     before ++ [opened header; first])).
  { unfold indent_step. rewrite Hfirst_code. cbn [negb hd].
    replace (0 <? getIndent first) with true by (symmetry; apply Nat.ltb_lt; exact Hk).
    f_equal. rewrite rev_app_distr. simpl rev at 1. simpl app at 1. cbn [open_block].
    rewrite Hcode. fold (opened header). simpl rev.
    now rewrite rev_involutive, <- app_assoc. }
  rewrite Hopen, fold_left_app, (indent_steps_body _ _ _ Hrest).
  destruct after as [|next after].
  - simpl. f_equal. now rewrite <- !app_assoc.
  - inversion Hafter as [|? ? [Hnext_code Hnext_indent] Hafter']; subst.
    cbn [fold_left].
    assert (Hclose : indent_step
                       ([getIndent first; 0],
                        (before ++ [opened header; first]) ++ body) next
                     = ([0],
                        ((before ++ [opened header; first]) ++ body) ++ ["}"; next])).
    { unfold indent_step. rewrite Hnext_code, Hnext_indent. cbn [negb hd].
      replace (getIndent first <? 0) with false by (symmetry; apply Nat.ltb_ge; lia).
      replace (0 <? getIndent first) with true by (symmetry; apply Nat.ltb_lt; exact Hk).
      cbn [close_blocks].
      replace (0 <? getIndent first) with true by (symmetry; apply Nat.ltb_lt; exact Hk).
      cbn [close_blocks repeat_space]. now rewrite <- app_assoc. }
    rewrite Hclose, indent_steps_flat.
    + simpl. f_equal. now rewrite <- !app_assoc.
    + eapply Forall_impl; [| exact Hafter']. intros line [_ H] _. exact H.
Qed.

Lemma block_gets_braces_witness :
  indentation_to_braces Scenarios.python_range
  = "for i in range(3) {" +++ nl +++ "    print(i)" +++ nl +++ "}"
  /\ indentation_to_braces ("d = {" +++ nl +++ "  1: 2" +++ nl +++ "x = 1")
     = "d = {" +++ nl +++ "  1: 2" +++ nl +++ "}" +++ nl +++ "x = 1".
Proof.
  split.
  - change Scenarios.python_range
      with (join nl ([] ++ "for i in range(3):" :: ["    print(i)"] ++ [])).
    rewrite (block_gets_braces [] "for i in range(3):" ["    print(i)"] [] 4).
    + vm_compute. reflexivity.
    + constructor.
    + vm_compute. reflexivity.
    + vm_compute. reflexivity.
    + discriminate.
    + lia.
    + repeat constructor; vm_compute; reflexivity.
    + constructor.
    + vm_compute. reflexivity.
  - change ("d = {" +++ nl +++ "  1: 2" +++ nl +++ "x = 1")
      with (join nl ([] ++ "d = {" :: ["  1: 2"] ++ ["x = 1"])).
    rewrite (block_gets_braces [] "d = {" ["  1: 2"] ["x = 1"] 2).
    + vm_compute. reflexivity.
    + constructor.
    + vm_compute. reflexivity.
    + vm_compute. reflexivity.
    + discriminate.
    + lia.
    + repeat constructor; vm_compute; reflexivity.
    + repeat constructor; vm_compute; reflexivity.
    + vm_compute. reflexivity.
Defined.

End Blocks.

Section Captures.
Import Regex Spec.

Variable kind : ascii -> Prop.

Lemma Forall_firstn {A : Type} (P : A -> Prop) (n : nat) (l : list A) :
  Forall P l -> Forall P (firstn n l).
Proof.
  revert n. induction l as [|x l IH]; intros n H; destruct n; simpl; try constructor.
  - now inversion H.
  - apply IH. now inversion H.
Qed.

Lemma Forall_skipn {A : Type} (P : A -> Prop) (n : nat) (l : list A) :
  Forall P l -> Forall P (skipn n l).
Proof.
  revert n. induction l as [|x l IH]; intros n H; destruct n; simpl; try assumption.
  apply IH. now inversion H.
Qed.

Lemma Forall_filter {A : Type} (P : A -> Prop) (f : A -> bool) (l : list A) :
  Forall P l -> Forall P (filter f l).
Proof.
  induction 1 as [|x l Hx Hl IH]; simpl; [constructor |].
  destruct (f x); [constructor; assumption | assumption].
Qed.

Lemma one_kind (p : ascii -> bool) (st : mstate) (k : mstate -> option mstate) (res : mstate) :
  of_kind kind st -> keeps_kind kind k -> one p st k = Some res -> of_kind kind res.
Proof.
  unfold one. intros [Hrest Hcaps] Hk.
  destruct (rest st) as [|c l] eqn:E; [discriminate |].
  destruct (p c); [| discriminate].
  apply Hk. split; simpl; [now inversion Hrest | exact Hcaps].
Qed.

(** The matcher makes its captures of the characters of its input: where
    these are all of one kind, so are the captures. *)
Lemma m_kind (r : regex) :
  forall (st : mstate) (k : mstate -> option mstate) (res : mstate),
    of_kind kind st -> keeps_kind kind k -> m r st k = Some res -> of_kind kind res.
Proof.
  induction r as [| c | | neg cl | neg items | r1 IH1 r2 IH2 | r1 IH1 r2 IH2
                  | min max r1 IH1 | i r1 IH1 | i | | | neg | neg r1 IH1];
    intros st k res Hst Hk; cbn [m].
  - apply Hk, Hst.
  - now apply one_kind.
  - now apply one_kind.
  - now apply one_kind.
  - now apply one_kind.
  - apply IH1; [exact Hst |]. intros st1 res1 H1. now apply IH2.
  - destruct (m r1 st k) as [res1 |] eqn:E1.
    + intros [= <-]. eapply IH1; eauto.
    + now apply IH2.
  - generalize (min + List.length (rest st) + 1). intros fuel.
    revert min max st Hst res.
    induction fuel as [|fuel IHfuel]; intros min max st Hst res; [discriminate |].
    assert (Hagain : forall res,
               m r1 (clear_caps (groups r1) st)
                 (fun st' =>
                    if (min =? 0) && (List.length (rest st') =? List.length (rest st))
                    then None
                    else
                      (fix rep (fuel : nat) (min : nat) (max : option nat) (st : mstate)
                           {struct fuel} : option mstate :=
                         match fuel with
                         | O => None
                         | S fuel' =>
                             match max with
                             | Some O => k st
                             | _ =>
                                 let again :=
                                   m r1 (clear_caps (groups r1) st)
                                     (fun st' =>
                                        if (min =? 0)
                                           && (List.length (rest st') =? List.length (rest st))
                                        then None
                                        else rep fuel' (Nat.pred min) (option_map Nat.pred max) st') in
                                 match min with
                                 | S _ => again
                                 | O => match again with
                                        | Some res => Some res
                                        | None => k st
                                        end
                                 end
                             end
                         end) fuel (Nat.pred min) (option_map Nat.pred max) st') = Some res ->
               of_kind kind res).
    { intros res0. apply IH1.
      - destruct Hst as [H1 H2]. split; [exact H1 | now apply Forall_filter].
      - intros st' res' Hst'. destruct (_ && _); [discriminate |]. now apply IHfuel. }
    cbn zeta.
    destruct max as [[|n] |].
    + apply Hk, Hst.
    + destruct min as [|min'].
      * match goal with |- match ?a with _ => _ end = _ -> _ => destruct a eqn:Ea end.
        -- intros [= <-]. eapply Hagain; eauto.
        -- apply Hk, Hst.
      * apply Hagain.
    + destruct min as [|min'].
      * match goal with |- match ?a with _ => _ end = _ -> _ => destruct a eqn:Ea end.
        -- intros [= <-]. eapply Hagain; eauto.
        -- apply Hk, Hst.
      * apply Hagain.
  - apply IH1; [exact Hst |]. intros st' res' [H1 H2]. apply Hk.
    split; [exact H1 |]. unfold set_cap. simpl. constructor.
    + simpl. apply Forall_firstn, Hst.
    + now apply Forall_filter.
  - destruct (get_cap i (caps st)); [| apply Hk, Hst].
    destruct (prefix_chars _ _); [| discriminate].
    apply Hk. destruct Hst as [H1 H2]. split; [now apply Forall_skipn | exact H2].
  - destruct (before st); [discriminate | apply Hk, Hst].
  - destruct (rest st) eqn:E; [apply Hk, Hst | discriminate].
  - destruct (xorb _ _); [apply Hk, Hst | discriminate].
  - destruct (m r1 st Some) as [st' |] eqn:E1.
    + destruct neg; [discriminate |]. apply Hk.
      assert (H' : of_kind kind st').
      { eapply IH1; [exact Hst | | exact E1]. intros ? ? ? [= <-]. assumption. }
      destruct Hst as [H1 _], H' as [_ H2]. split; assumption.
    + destruct neg; [apply Hk, Hst | discriminate].
Qed.

Lemma search_kind (r : regex) (l : list ascii) :
  forall (prev : option ascii) (sk : list ascii) (f : found),
    Forall kind l -> search r l prev = Some (sk, f) ->
    Forall (fun cap => Forall kind (snd cap)) (fcaps f).
Proof.
  induction l as [|c l IH]; intros prev sk f Hl; cbn [search].
  - destruct (m r _ Some) as [st |] eqn:E; [| discriminate].
    intros [= <- <-]. simpl.
    apply m_kind in E; [apply E | split; [exact Hl | constructor] |].
    intros ? ? ? [= <-]. assumption.
  - destruct (m r _ Some) as [st |] eqn:E.
    + intros [= <- <-]. simpl.
      apply m_kind in E; [apply E | split; [exact Hl | constructor] |].
      intros ? ? ? [= <-]. assumption.
    + destruct (search r l (Some c)) as [[sk' f'] |] eqn:E'; [| discriminate].
      intros [= <- <-]. eapply IH; [| exact E']. now inversion Hl.
Qed.

Lemma group_kind (r : regex) (s : string) (f : found) (i : nat) :
  Forall kind (chars s) -> match_first r s = Some f -> Forall kind (chars (group i f)).
Proof.
  unfold match_first, group. intros Hs.
  destruct (search r (chars s) None) as [[sk f'] |] eqn:E; [| discriminate].
  intros [= <-]. apply (search_kind _ _ _ _ _ Hs) in E.
  induction (fcaps f') as [|[j v] cs IHcs]; simpl; [constructor |].
  inversion E; subst. destruct (i =? j); [now rewrite chars_str | now apply IHcs].
Qed.

End Captures.

Section SingleCharacter.
Import Regex Spec.

Lemma search_char (c : ascii) (l : list ascii) :
  forall prev,
    search (RChar c) l prev
    = match cut c l with
      | Some (a, b) => Some (a, Found [c] [] (MState b (Some c) []))
      | None => None
      end.
Proof.
  induction l as [|x l IH]; intros prev; [reflexivity |].
  cbn [search m one rest caps cut].
  destruct (Ascii.eqb c x) eqn:E.
  - apply Ascii.eqb_eq in E. subst x. cbn [rest caps].
    replace (List.length (c :: l) - List.length l) with 1 by (cbn [List.length]; lia).
    reflexivity.
  - rewrite IH. destruct (cut c l) as [[a b] |]; reflexivity.
Qed.

Lemma cut_length (c : ascii) (l a b : list ascii) :
  cut c l = Some (a, b) -> List.length b < List.length l.
Proof.
  revert a b. induction l as [|x l IH]; intros a b; simpl; [discriminate |].
  destruct (Ascii.eqb c x).
  - intros [= <- <-]. lia.
  - destruct (cut c l) as [[a' b'] |]; [| discriminate].
    intros [= <- <-]. specialize (IH _ _ eq_refl). lia.
Qed.

Lemma chars_concat (l : list string) :
  chars (String.concat "" l) = List.concat (map chars l).
Proof.
  induction l as [|x l IH]; [reflexivity |].
  destruct l as [|y l].
  - simpl. now rewrite app_nil_r.
  - change (String.concat "" (x :: y :: l)) with (x +++ "" +++ String.concat "" (y :: l)).
    rewrite !chars_append, IH. reflexivity.
Qed.

(** Replacing every occurrence of a character by a fixed text. *)
Lemma replace_char (c : ascii) (fn : found -> string) (t : string) (s : string) :
  (forall f, fn f = t) ->
  chars (replace_fn (RChar c) fn s)
  = flat_map (fun x => if Ascii.eqb c x then chars t else [x]) (chars s).
Proof.
  intros Hfn. unfold replace_fn, pieces. rewrite chars_concat.
  assert (H : forall fuel l prev,
             List.length l < fuel ->
             List.concat (map chars (map (fun p => match p with
                                                   | Lit t => str t
                                                   | Hit f => fn f
                                                   end) (scan fuel (RChar c) l prev)))
             = flat_map (fun x => if Ascii.eqb c x then chars t else [x]) l).
  { induction fuel as [|fuel IH]; intros l prev Hlt; [lia |].
    cbn [scan]. rewrite search_char.
    destruct (cut c l) as [[a b] |] eqn:E.
    - cbn [matched after rest before map List.concat]. rewrite Hfn, chars_str.
      rewrite IH by (apply cut_length in E; lia).
      clear - E. revert a b E. induction l as [|x l IHl]; intros a b; simpl; [discriminate |].
      destruct (Ascii.eqb c x).
      + intros [= <- <-]. reflexivity.
      + destruct (cut c l) as [[a' b'] |]; [| discriminate].
        intros [= <- <-]. simpl. f_equal. now apply IHl.
    - simpl. rewrite chars_str, app_nil_r.
      clear - E. induction l as [|x l IHl]; simpl in *; [reflexivity |].
      destruct (Ascii.eqb c x); [discriminate |].
      destruct (cut c l) as [[a' b'] |]; [discriminate |].
      simpl. f_equal. now apply IHl. }
  apply H. rewrite length_chars. lia.
Qed.

End SingleCharacter.

Section Hash.
Import Regex PythonTranspiler Spec.

Lemma all_chars_append (P : ascii -> Prop) (a b : string) :
  all_chars P a -> all_chars P b -> all_chars P (a +++ b).
Proof. unfold all_chars. rewrite chars_append. intros. now apply Forall_app. Qed.

Lemma comment_rule_hash_free (js : string) :
  hash_free (apply_rule js (Replace "#" "//")).
Proof.
  unfold hash_free, all_chars, apply_rule, replace_all.
  change (re "#") with (RChar hash).
  rewrite (replace_char hash _ "//") by reflexivity.
  induction (chars js) as [|x l IH]; cbn [flat_map]; [constructor |].
  apply Forall_app. split; [| exact IH].
  destruct (Ascii.eqb hash x) eqn:E.
  - repeat constructor; discriminate.
  - constructor; [| constructor]. intros ->. now rewrite Ascii.eqb_refl in E.
Qed.

Lemma lines_kind (P : ascii -> Prop) (l : list ascii) :
  forall cur, Forall P l -> Forall P cur -> Forall (Forall P) (lines_from l cur).
Proof.
  induction l as [|c l IH]; intros cur Hl Hcur; cbn -[Ascii.eqb LF].
  - constructor; [| constructor]. now apply Forall_rev.
  - inversion Hl; subst. destruct (Ascii.eqb LF c).
    + constructor; [now apply Forall_rev | apply IH; [assumption | constructor]].
    + apply IH; [assumption | now constructor].
Qed.

Lemma split_kind (P : ascii -> Prop) (s : string) :
  all_chars P s -> Forall (all_chars P) (split nl s).
Proof.
  unfold all_chars. intros H. rewrite split_lines.
  apply Forall_map. eapply Forall_impl; [| apply lines_kind; [exact H | constructor]].
  intros l Hl. now rewrite chars_str.
Qed.

Lemma join_kind (P : ascii -> Prop) (ls : list string) :
  P LF -> Forall (all_chars P) ls -> all_chars P (join nl ls).
Proof.
  intros HLF. induction 1 as [|x ls Hx Hls IH]; [constructor |].
  destruct ls as [|y ls]; [exact Hx |].
  change (join nl (x :: y :: ls)) with (x +++ nl +++ join nl (y :: ls)).
  apply all_chars_append; [exact Hx |]. apply all_chars_append; [| exact IH].
  repeat constructor. exact HLF.
Qed.

Lemma inject_declaration_kind (P : ascii -> Prop) (line : string) :
  all_chars P "var " -> all_chars P " =" ->
  all_chars P line -> all_chars P (inject_declaration line).
Proof.
  intros Hvar Heq Hline. unfold inject_declaration.
  destruct (match_first (re assignment_pattern) line) as [f |] eqn:E; [| exact Hline].
  destruct (existsb _ keywords); [exact Hline |].
  repeat apply all_chars_append; try assumption;
    eapply (group_kind P); eauto.
Qed.

Lemma syntax_replacement_last (js : string) :
  syntax_replacement js
  = apply_rule (apply_rules (removelast syntax_rules) js) (Replace "#" "//").
Proof.
  unfold syntax_replacement, apply_rules.
  replace syntax_rules with (removelast syntax_rules ++ [Replace "#" "//"]) at 1 by reflexivity.
  now rewrite fold_left_app.
Qed.

(** X20.  The text [transpilePythonToJs] returns has no [#] in it,
    whatever the source: the last rule of the second phase rewrites every
    [#] to [//], inside a string literal as outside, and the third phase
    adds none. *)
Theorem python_output_has_no_hash (pythonCode : string) :
  hash_free (transpilePythonToJs pythonCode).
Proof.
  unfold hash_free, transpilePythonToJs, declaration_injection.
  apply join_kind; [discriminate |].
  apply Forall_map.
  eapply Forall_impl; [| apply split_kind with (P := fun c => c <> hash)].
  - intros line. apply inject_declaration_kind; repeat constructor; discriminate.
  - rewrite syntax_replacement_last. apply comment_rule_hash_free.
Qed.

End Hash.

Section Colon.
Import Regex PythonTranspiler Spec.

Lemma after_spaces_not_at_end (l : list ascii) :
  drop_space l <> [] ->
  forall prev cs, after_spaces (fun st => m REol st Some) l prev cs = None.
Proof.
  induction l as [|c l IH]; intros Hl prev cs; simpl in *; [congruence |].
  destruct (is_space c); [| reflexivity].
  now rewrite IH.
Qed.

Lemma after_spaces_at_end (l : list ascii) :
  forallb is_space l = true ->
  forall prev cs,
    after_spaces (fun st => m REol st Some) l prev cs = Some (MState [] (last_char prev l) cs).
Proof.
  induction l as [|c l IH]; intros Hl prev cs; simpl in *; [reflexivity |].
  apply andb_prop in Hl. destruct Hl as [Hc Hl]. rewrite Hc. now rewrite IH.
Qed.

Lemma drop_space_colon (a b : list ascii) : drop_space (a ++ ":"%char :: b) <> [].
Proof.
  induction a as [|c a IH]; simpl; [discriminate |].
  destruct (is_space c); [exact IH | discriminate].
Qed.

(** The pattern of the trailing colon matches at the last colon of a
    text that has only white space after it, and not before. *)
Lemma search_last_colon (p sp : list ascii) :
  forallb is_space sp = true ->
  forall prev,
    exists prev',
      search (RSeq (RChar ":") (RSeq (RRepeat 0 None (RCls false ClsSpace)) REol))
             (p ++ ":"%char :: sp) prev
      = Some (p, Found (":"%char :: sp) [] (MState [] prev' [])).
Proof.
  intros Hsp. induction p as [|x p IH]; intros prev.
  - exists (last_char (Some ":"%char) sp).
    cbn [app search m one rest caps before].
    rewrite Ascii.eqb_refl.
    rewrite (spaces_backtrack (0 + List.length sp + 1)) by (simpl; lia).
    rewrite after_spaces_at_end by exact Hsp.
    cbn [rest caps]. rewrite Nat.sub_0_r.
    now rewrite firstn_all.
  - destruct (IH (Some x)) as [prev' Hsearch]. exists prev'.
    change ((x :: p) ++ ":"%char :: sp) with (x :: (p ++ ":"%char :: sp)).
    cbn [search]. rewrite Hsearch.
    replace (m _ _ Some) with (@None mstate); [reflexivity |].
    symmetry. cbn [m one rest caps before].
    destruct (Ascii.eqb ":" x); [| reflexivity].
    rewrite (spaces_backtrack (0 + List.length (p ++ ":"%char :: sp) + 1)) by (simpl; lia).
    apply after_spaces_not_at_end, drop_space_colon.
Qed.

(** X21.  The header of a block loses its last colon and the white space
    after it, and nothing else: a colon earlier in the header stays. *)
Theorem header_colon_removed (p sp : string) :
  forallb is_space (chars sp) = true ->
  replace_first (re colon_pattern) "" (p +++ ":" +++ sp) = p.
Proof.
  intros Hsp. unfold replace_first, replace_first_fn.
  change (re colon_pattern)
    with (RSeq (RChar ":") (RSeq (RRepeat 0 None (RCls false ClsSpace)) REol)).
  rewrite !chars_append. change (chars ":") with [":"%char]. simpl app.
  destruct (search_last_colon (chars p) (chars sp) Hsp None) as [prev' ->].
  cbn [after rest]. simpl. rewrite str_chars.
  clear. induction p as [|c p IH]; simpl; [reflexivity | now rewrite IH].
Qed.

Lemma header_colon_removed_witness :
  forallb is_space (chars "  ") = true
  /\ replace_first (re colon_pattern) "" ("d = {1: 2}  # a: b" +++ ":" +++ "  ")
     = "d = {1: 2}  # a: b".
Proof.
  assert (H : forallb is_space (chars "  ") = true) by reflexivity.
  split; [exact H | exact (header_colon_removed _ _ H)].
Defined.

End Colon.

(** ** The panels and the player *)

Section Panels.
Import Js Executor Spec.

Lemma rows_from_nth (stack display : list string) :
  forall index position,
    nth_error (CallStackPanel.rows_from stack index display) position
    = option_map (fun frame => (List.length stack - 1 - (index + position), frame))
                 (nth_error display position).
Proof.
  induction display as [|frame more IH]; intros index position.
  - destruct position; reflexivity.
  - destruct position as [|position]; simpl.
    + now rewrite Nat.add_0_r.
    + rewrite IH. now replace (S index + position) with (index + S position) by lia.
Qed.

Lemma rows_from_names (stack display : list string) (index : nat) :
  map snd (CallStackPanel.rows_from stack index display) = display.
Proof.
  revert index. induction display as [|frame more IH]; intros index; simpl; [reflexivity |].
  now rewrite IH.
Qed.

(** X22.  The call-stack panel shows the frames from the top of the stack
    down, and labels each with its depth: the row at a position of the
    panel has the number of the frame's place in the stack, counted from
    the bottom, and the name of the frame at that place. *)
Theorem frames_labelled_by_depth (stack : list string) (rows : list (nat * string)) :
  CallStackPanel.CallStackPanel stack = Some rows ->
  map snd rows = rev stack
  /\ forall (position depth : nat) (frame : string),
       nth_error rows position = Some (depth, frame) ->
       depth = List.length stack - 1 - position /\ nth_error stack depth = Some frame.
Proof.
  unfold CallStackPanel.CallStackPanel, CallStackPanel.displayStack.
  destruct (List.length (rev stack) =? 0); [discriminate |].
  intros [= <-]. split; [apply rows_from_names |].
  intros position depth frame. rewrite rows_from_nth, nth_error_rev.
  destruct (position <? List.length stack) eqn:E; [| discriminate].
  destruct (nth_error stack (List.length stack - S position)) as [f |] eqn:En; [| discriminate].
  intros [= <- <-]. simpl. split; [reflexivity |].
  now replace (List.length stack - 1 - position) with (List.length stack - S position) by lia.
Qed.

Lemma frames_labelled_by_depth_witness :
  CallStackPanel.CallStackPanel ["main"; "f"; "g"] = Some [(2, "g"); (1, "f"); (0, "main")]
  /\ map snd [(2, "g"); (1, "f"); (0, "main")] = rev ["main"; "f"; "g"].
Proof.
  assert (H : CallStackPanel.CallStackPanel ["main"; "f"; "g"]
              = Some [(2, "g"); (1, "f"); (0, "main")]) by reflexivity.
  split; [exact H | exact (proj1 (frames_labelled_by_depth _ _ H))].
Defined.

Variable parse : string -> JsVal + Instrumenter.Node.
Variable new_Function : string -> JsVal + Program.

Lemma rows_from_bottom (stack display : list string) :
  forall index,
    CallStackPanel.rows_from stack index (display ++ ["main"])
    = CallStackPanel.rows_from stack index display
      ++ [(List.length stack - 1 - (index + List.length display), "main")].
Proof.
  induction display as [|x display IH]; intros index; simpl.
  - now rewrite Nat.add_0_r.
  - rewrite IH. now replace (S index + List.length display)
                      with (index + S (List.length display)) by lia.
Qed.

(** X23.  For a text that leaves the stack of the tracer to [enter] and
    [exit], and for every step of a timeline the promise is resolved
    with, the call-stack panel has rows (it does not show "Stack empty"),
    and its last row is Frame 0, the seed frame "main". *)
Theorem stack_panel_shows_main_at_bottom (fuel : nat) (userCode language : string)
        done s history (t : Timeline) :
  attempt parse new_Function fuel userCode language = Some (done, s, history) ->
  no_stack_writes history ->
  executeCode parse new_Function fuel userCode language = Some (Resolved t) ->
  Forall (fun st => exists above,
              CallStackPanel.CallStackPanel (callStack st) = Some (above ++ [(0, "main")]))
         t.
Proof.
  intros Hattempt Hwrites H.
  apply (resolved_stacks_seeded _ _ _ _ _ _ _ _ _ Hattempt Hwrites) in H.
  eapply Forall_impl; [| exact H].
  intros st [Hlen Hhd]. unfold CallStackPanel.CallStackPanel, CallStackPanel.displayStack.
  destruct (callStack st) as [|bottom above]; [simpl in Hlen; lia |].
  simpl in Hhd. injection Hhd as ->.
  rewrite length_rev. cbn [List.length Nat.eqb rev]. rewrite rows_from_bottom, length_rev.
  cbn [List.length].
  replace (S (List.length above) - 1 - (0 + List.length above)) with 0 by lia.
  eexists. reflexivity.
Qed.

Lemma row_of_log (message : string) :
  ConsolePanel.row (mkLog log_ message) = ConsolePanel.mkRow ConsolePanel.neutral None message.
Proof. reflexivity. Qed.

Lemma row_of_runtime_error (text : string) :
  ConsolePanel.row (mkLog error_ ("Runtime Error: " +++ text))
  = ConsolePanel.mkRow ConsolePanel.red None ("Runtime Error: " +++ text).
Proof. reflexivity. Qed.

Lemma rows_of_logs (logs : list ConsoleLog) :
  Forall (fun l => type l = log_) logs ->
  map ConsolePanel.row logs
  = map (fun l => ConsolePanel.mkRow ConsolePanel.neutral None (message l)) logs.
Proof.
  induction 1 as [|[ty msg] logs Hty Hlogs IH]; [reflexivity |].
  simpl in Hty. subst ty. cbn [map]. now rewrite IH, row_of_log.
Qed.

(** X24.  For every step of a timeline the promise is resolved with, the
    console panel shows the messages of the step as they are, one row
    each: no row has the style of a warning, and no row, the row of the
    runtime error neither, has an underlined location (the message of
    the error starts with "Runtime Error: ", not with "Line "). *)
Theorem console_panel_rows (fuel : nat) (userCode language : string) (t : Timeline) :
  executeCode parse new_Function fuel userCode language = Some (Resolved t) ->
  Forall (fun st =>
            forall rows,
              ConsolePanel.ConsolePanel (consoleOutput st) = Some rows ->
              map ConsolePanel.text rows = messages (consoleOutput st)
              /\ Forall (fun row => ConsolePanel.style row <> ConsolePanel.yellow
                                    /\ ConsolePanel.location row = None) rows)
         t.
Proof.
  intros H. apply resolved_kinds in H.
  eapply Forall_impl; [| exact H].
  intros st Hkinds rows. unfold ConsolePanel.ConsolePanel.
  destruct (List.length (consoleOutput st) =? 0); [discriminate |].
  intros [= <-]. unfold kinds_of_step in Hkinds.
  destruct (isError st).
  - destruct Hkinds as (logs & text & -> & Hlogs).
    rewrite map_app, (rows_of_logs _ Hlogs). cbn [map]. rewrite row_of_runtime_error.
    unfold messages. rewrite !map_app, !map_map. split; [reflexivity |].
    apply Forall_app. split.
    + apply Forall_map, Forall_forall. intros l _. split; [discriminate | reflexivity].
    + repeat constructor. discriminate.
  - rewrite (rows_of_logs _ Hkinds). unfold messages. rewrite map_map. split; [reflexivity |].
    apply Forall_map, Forall_forall. intros l _. split; [discriminate | reflexivity].
Qed.

End Panels.

Section Player.
Import Js Executor Spec App.

Lemma handle_in_range (a : App.State) (e : Event) :
  in_range a -> in_range (handle a e) /\ App.timeline (handle a e) = App.timeline a.
Proof.
  unfold in_range, last_index. intros H.
  destruct e; simpl; unfold tick, last_index; simpl.
  - split; [lia | reflexivity].
  - split; [lia | reflexivity].
  - destruct (isPlaying a); [| auto].
    destruct (currentStepIndex a <? _)%Z eqn:E; simpl; split; try reflexivity; try lia.
  - auto.
Qed.

(** X25.  The player stays on its timeline: once the index points at a
    step, it does so after every press of Next, Prev and Play/Pause and
    every tick of the timer, in whatever order; the timeline is not
    changed by them, and the step shown is a step of the timeline, never
    the placeholder. *)
Theorem player_stays_on_the_timeline (a : App.State) (events : list Event) :
  in_range a ->
  let a' := fold_left handle events a in
  in_range a'
  /\ App.timeline a' = App.timeline a
  /\ In (currentStep a') (App.timeline a').
Proof.
  intros Ha. cbn zeta.
  assert (H : in_range (fold_left handle events a)
              /\ App.timeline (fold_left handle events a) = App.timeline a).
  { revert a Ha. induction events as [|e events IH]; intros a Ha; simpl; [auto |].
    destruct (handle_in_range a e Ha) as [H1 H2].
    destruct (IH _ H1) as [H3 H4]. split; [exact H3 | congruence]. }
  destruct H as [Hrange Htimeline]. split; [exact Hrange |]. split; [exact Htimeline |].
  unfold currentStep, at_index. unfold in_range, last_index in Hrange.
  destruct (currentStepIndex _ <? 0)%Z eqn:E; [apply Z.ltb_lt in E; lia |].
  destruct (nth_error _ _) as [st |] eqn:En.
  - eapply nth_error_In; eauto.
  - apply nth_error_None in En. lia.
Qed.

Lemma player_stays_on_the_timeline_witness :
  in_range Scenarios.three_shown
  /\ currentStepIndex
       (fold_left handle [Next; Next; Next; Prev; Tick; Tick; PlayPause; Tick; Prev]
                  Scenarios.three_shown) = 1%Z
  /\ In (currentStep
           (fold_left handle [Next; Next; Next; Prev; Tick; Tick; PlayPause; Tick; Prev]
                      Scenarios.three_shown))
        (App.timeline Scenarios.three_shown).
Proof.
  assert (H : in_range Scenarios.three_shown) by (vm_compute; split; intros Hc; discriminate Hc).
  split; [exact H |]. split; [reflexivity |].
  destruct (player_stays_on_the_timeline
              Scenarios.three_shown
              [Next; Next; Next; Prev; Tick; Tick; PlayPause; Tick; Prev] H)
    as (_ & Htimeline & Hshown).
  rewrite <- Htimeline. exact Hshown.
Defined.

(** X26.  Playback runs to the last step and stops there: while playing,
    after [n] ticks of the timer the index has advanced by [n], but not
    beyond the last step, and the player is still playing exactly when
    it has not been asked to go beyond it (the tick that finds the index
    at the last step is the one that stops it). *)
Theorem playback_stops_at_the_last_step (a : App.State) (n : nat) :
  in_range a -> isPlaying a = true ->
  let a' := Nat.iter n tick a in
  currentStepIndex a' = Z.min (currentStepIndex a + Z.of_nat n) (last_index a)
  /\ isPlaying a' = (currentStepIndex a + Z.of_nat n <=? last_index a)%Z
  /\ App.timeline a' = App.timeline a.
Proof.
  intros Ha Hplay. cbn zeta. unfold in_range in Ha.
  induction n as [|n IH].
  - simpl. rewrite Z.add_0_r. split; [lia |]. split; [| reflexivity].
    rewrite Hplay. symmetry. apply Z.leb_le. lia.
  - change (Nat.iter (S n) tick a) with (tick (Nat.iter n tick a)).
    destruct IH as (Hi & Hp & Ht).
    remember (Nat.iter n tick a) as an eqn:Han. clear Han.
    unfold tick, last_index in *. rewrite Hp, Ht, Hi.
    destruct (currentStepIndex a + Z.of_nat n <=? _)%Z eqn:E1;
      [apply Z.leb_le in E1; destruct (Z.min _ _ <? _)%Z eqn:E2;
       [apply Z.ltb_lt in E2 | apply Z.ltb_ge in E2]
      | apply Z.leb_gt in E1];
      simpl; rewrite ?Hp, ?Ht, ?Hi;
      (split; [lia |]); (split; [| reflexivity]);
      symmetry; first [apply Z.leb_le; lia | apply Z.leb_gt; lia].
Qed.

Lemma playback_stops_at_the_last_step_witness :
  in_range Scenarios.three_shown
  /\ isPlaying Scenarios.three_shown = true
  /\ currentStepIndex (Nat.iter 2 tick Scenarios.three_shown) = 2%Z
  /\ isPlaying (Nat.iter 2 tick Scenarios.three_shown) = true
  /\ currentStepIndex (Nat.iter 5 tick Scenarios.three_shown) = 2%Z
  /\ isPlaying (Nat.iter 5 tick Scenarios.three_shown) = false.
Proof.
  assert (H : in_range Scenarios.three_shown) by (vm_compute; split; intros Hc; discriminate Hc).
  split; [exact H |]. split; [reflexivity |].
  destruct (playback_stops_at_the_last_step Scenarios.three_shown 2 H eq_refl) as (H1 & H2 & _).
  destruct (playback_stops_at_the_last_step Scenarios.three_shown 5 H eq_refl) as (H3 & H4 & _).
  rewrite H1, H2, H3, H4. repeat split.
Defined.

Variable parse : string -> JsVal + Instrumenter.Node.
Variable new_Function : string -> JsVal + Program.

(** X27.  [handleRun] shows a failure exactly when there was one: after
    a run that ended normally the player has the timeline, the index 0
    and no error; after a run that failed with a message the [catch]
    block can read and print it has the timeline with the error step,
    the index 0, and as its error the message of the failure, or "Error"
    where that is empty or missing; and where the promise was rejected it
    keeps the timeline and the index it had, with no error. *)
Theorem handleRun_reports_failure (fuel : nat) (userCode language : string)
        done s history (a : App.State) :
  attempt parse new_Function fuel userCode language = Some (done, s, history) ->
  exists outcome,
    executeCode parse new_Function fuel userCode language = Some outcome
    /\ let a' := handleRun outcome a in
       match outcome with
       | Resolved t =>
           App.timeline a' = t
           /\ currentStepIndex a' = 0%Z
           /\ match done with
              | Normal => t = Executor.timeline s /\ executionError a' = None
              | Throw e =>
                  exists message,
                    message_of e = inr message
                    /\ has_symbol message = false
                    /\ t = Executor.timeline s ++ [errorStep s message]
                    /\ executionError a'
                       = Some (if truthy message then message else VStr "Error")
              end
       | Rejected _ =>
           (exists e, done = Throw e /\ unprintable e)
           /\ App.timeline a' = App.timeline a
           /\ currentStepIndex a' = currentStepIndex a
           /\ executionError a' = None
       end.
Proof.
  intros Hattempt. unfold executeCode. rewrite Hattempt.
  destruct done as [| e].
  - eexists. split; [reflexivity |]. cbn zeta. unfold handleRun. simpl.
    split; [reflexivity |]. split; [reflexivity |]. split; [reflexivity |].
    destruct (attempt_steps_bounded _ _ _ _ _ _ _ _ Hattempt) as (Herr & _ & _).
    destruct (last_step (Executor.timeline s)) as [final |] eqn:Hlast; [| reflexivity].
    apply last_step_in in Hlast. rewrite Forall_forall in Herr.
    rewrite (Herr _ Hlast). now rewrite andb_false_r.
  - unfold catch, template. destruct (message_of e) as [thrown | message] eqn:Hm.
    + eexists. split; [reflexivity |]. simpl. split; [| auto].
      exists e. split; [reflexivity |]. unfold unprintable.
      apply message_unreadable in Hm. tauto.
    + destruct (has_symbol message) eqn:Hs.
      * eexists. split; [reflexivity |]. simpl. split; [| auto].
        exists e. split; [reflexivity |]. unfold unprintable. eauto 6.
      * eexists. split; [reflexivity |]. cbn zeta. unfold handleRun. simpl.
        split; [reflexivity |]. split; [reflexivity |].
        exists message. split; [reflexivity |]. split; [exact Hs |]. split; [reflexivity |].
        rewrite last_step_app, length_app. simpl.
        replace (0 <? List.length (Executor.timeline s) + 1) with true
          by (symmetry; apply Nat.ltb_lt; lia).
        reflexivity.
Qed.

End Player.

Section OnShownTimelines.
Import Js Executor Spec Scenarios.

Lemma stack_panel_shows_main_at_bottom_witness :
  exists done s history t,
    attempt acorn_parse new_Function 100 call_then_throw "javascript" = Some (done, s, history)
    /\ no_stack_writes history
    /\ executeCode acorn_parse new_Function 100 call_then_throw "javascript" = Some (Resolved t)
    /\ Forall (fun st => exists above,
                   CallStackPanel.CallStackPanel (callStack st) = Some (above ++ [(0, "main")]))
              t
    /\ option_map (fun st => CallStackPanel.CallStackPanel (callStack st)) (hd_error t)
       = Some (Some [(1, "f"); (0, "main")]).
Proof.
  assert (Ha : exists done s history,
             attempt acorn_parse new_Function 100 call_then_throw "javascript"
             = Some (done, s, history)
             /\ no_stack_writes history).
  { compute_attempt E. pose proof E as E'. vm_compute in E'. injection E' as Hd Hs Hh.
    exists done, s, history. split; [reflexivity |]. rewrite <- Hh. repeat constructor. }
  destruct Ha as (done & s & history & Hattempt & Hwrites).
  destruct (executeCode acorn_parse new_Function 100 call_then_throw "javascript")
    as [[t | e] |] eqn:E; [| vm_compute in E; discriminate E | vm_compute in E; discriminate E].
  exists done, s, history, t. split; [exact Hattempt |]. split; [exact Hwrites |].
  split; [reflexivity |].
  split; [exact (stack_panel_shows_main_at_bottom _ _ _ _ _ _ _ _ _ Hattempt Hwrites E) |].
  vm_compute in E. injection E as <-. reflexivity.
Defined.

Lemma console_panel_rows_witness :
  exists t,
    executeCode acorn_parse new_Function 100 call_then_throw "javascript" = Some (Resolved t)
    /\ Forall (fun st =>
                 forall rows,
                   ConsolePanel.ConsolePanel (consoleOutput st) = Some rows ->
                   map ConsolePanel.text rows = messages (consoleOutput st)
                   /\ Forall (fun row => ConsolePanel.style row <> ConsolePanel.yellow
                                         /\ ConsolePanel.location row = None) rows)
              t
    /\ option_map (fun st => ConsolePanel.ConsolePanel (consoleOutput st)) (last_step t)
       = Some (Some [ConsolePanel.mkRow ConsolePanel.red None "Runtime Error: boom "]).
Proof.
  destruct (executeCode acorn_parse new_Function 100 call_then_throw "javascript")
    as [[t | e] |] eqn:E; [| vm_compute in E; discriminate E | vm_compute in E; discriminate E].
  exists t. split; [reflexivity |].
  split; [exact (console_panel_rows _ _ _ _ _ _ E) |].
  vm_compute in E. injection E as <-. reflexivity.
Defined.

Lemma handleRun_reports_failure_witness :
  exists done s history outcome,
    attempt acorn_parse new_Function 100 call_then_throw "javascript" = Some (done, s, history)
    /\ executeCode acorn_parse new_Function 100 call_then_throw "javascript" = Some outcome
    /\ App.executionError (App.handleRun outcome App.initial) = Some (VStr "boom")
    /\ App.currentStepIndex (App.handleRun outcome App.initial) = 0%Z.
Proof.
  destruct (attempt acorn_parse new_Function 100 call_then_throw "javascript")
    as [[[done s] history] |] eqn:E; [| vm_compute in E; discriminate E].
  destruct (handleRun_reports_failure _ _ _ _ _ _ _ _ App.initial E) as (outcome & Hrun & Hshown).
  exists done, s, history, outcome. split; [reflexivity |]. split; [exact Hrun |].
  assert (Hd : done = Throw (Error "boom")).
  { vm_compute in E. now injection E as <- _ _. }
  destruct outcome as [t | reason]; [| vm_compute in Hrun; discriminate Hrun].
  cbn zeta in Hshown. destruct Hshown as (_ & Hindex & Hcase).
  rewrite Hd in Hcase. destruct Hcase as (message & Hm & _ & _ & Herror).
  cbn in Hm. injection Hm as <-. split; [exact Herror | exact Hindex].
Defined.

End OnShownTimelines.
